(** * The logs agent: pipeline wiring and lifecycle orchestration

    A shallow embedding of [pkg/logs/pipeline/pipeline.go] (NewPipeline,
    Pipeline.Start, Pipeline.Stop) and of the logs [Agent] (NewAgent,
    Agent.Start, Agent.Stop).

    Go pointers are indices into a grow-only store of objects; every
    function of the source is a computation in a small state-and-panic
    monad over that store together with a log of the method calls made
    so far.  The goroutine and the [select] of Agent.Stop are a
    transition system driven by an explicit schedule. *)

From Stdlib Require Import ZArith List String Lia Permutation.
From stdpp Require Import list.
Import ListNotations.

Local Open Scope Z_scope.

(** ** Store, events and the monad *)

(** A pointer is an index in the store; an index outside the store
    behaves as the nil pointer. *)
Definition ref := nat.

Inductive Method : Type := Start | Stop.

(** Modelled from the spec: the declaration of client.Endpoint is absent;
    an endpoint is an address, a credential and the encoding-format flag
    (the source reads the flag as [UseProto]). *)
Record Endpoint : Type := {
  Host : string;
  APIKey : string;
  UseProto : bool
}.

(** Modelled from the spec: the declaration of client.Endpoints is absent;
    one main endpoint plus zero or more additional endpoints (the source
    reads them as [Main] and [Additionals]). *)
Record Endpoints : Type := {
  Main : Endpoint;
  Additionals : list Endpoint
}.

(** Modelled from the spec: processor.NewEncoder is absent; the encoding is
    protocol-buffer or plain, chosen by the flag it is given. *)
Inductive Encoder : Type := ProtoEncoder | RawEncoder.

Definition NewEncoder (useProto : bool) : Encoder :=
  if useProto then ProtoEncoder else RawEncoder.

(** type Pipeline struct *)
Record Pipeline : Type := {
  InputChan : ref;
  processor : ref;
  sender : ref
}.

(** type Agent struct *)
Record Agent : Type := {
  auditor : ref;
  destinationsCtx : ref;
  pipelineProvider : ref;
  inputs : list ref;
  health : ref
}.

(** Modelled from the spec: the components whose packages are absent
    (sender, processor, auditor, client, pipeline.Provider and the five
    inputs).  Each keeps the arguments its constructor was given; its
    Start and Stop bodies are unknown. *)
Inductive Component : Type :=
  | Sender (inputChan outputChan destinations : ref)
  | Processor (inputChan outputChan : ref) (encoder : Encoder)
  | Auditor (runPath : string) (channelSize : Z) (healthHandle : ref)
  | DestinationsContext
  | Provider (numberOfPipelines bufferSize : Z)
             (auditorRef endpoints destinationsContext : ref)
  | Scanner (sources : ref) (tailingLimit : Z) (pp auditorRef : ref)
            (sleepDuration : Z)
  | ContainerLauncher (sources services pp auditorRef : ref)
  | ListenerLauncher (sources : ref) (frameSize : Z) (pp : ref)
  | JournaldLauncher (sources pp auditorRef : ref)
  | WindowsEventLauncher (sources pp : ref).

Inductive Obj : Type :=
  | OAgent (a : Agent)
  | OPipeline (p : Pipeline)
  | OChan (cap : Z) (buf : list ref) (closed : bool)
  | OEndpoints (e : Endpoints)
  | ODestination (endpoint : Endpoint) (ctx : ref)
  | ODestinations (main : ref) (additionals : list ref)
  | OStarter (components : list ref)
  | OParallelStopper (components : list ref)
  | OSerialStopper (components : list ref)
  | OComponent (c : Component) (calls : list Method)
  | OHealth (name : string)
  | OExternal.

(** What an observer of the program sees.  [Worker e] is the event [e]
    happening on the goroutine that Agent.Stop starts. *)
Inductive Event : Type :=
  | Invoke (r : ref) (m : Method)
  | Return (r : ref) (m : Method)
  | Worker (e : Event)
  | CloseChan (c : ref)
  | TimerFired
  | LogInfo (msg : string).

Record World : Type := {
  heap : list Obj;
  log : list Event
}.

Inductive Result (A : Type) : Type :=
  | Ok (a : A) (w : World)
  | Panic (msg : string)
  | NoResult.

Arguments Ok {A} a w.
Arguments Panic {A} msg.
Arguments NoResult {A}.

Definition M (A : Type) : Type := World -> Result A.

Definition ret {A} (a : A) : M A := fun w => Ok a w.

Definition bind {A B} (c : M A) (k : A -> M B) : M B :=
  fun w =>
    match c w with
    | Ok a w' => k a w'
    | Panic msg => Panic msg
    | NoResult => NoResult
    end.

Notation "x <- c1 ;; c2" := (bind c1 (fun x => c2))
  (at level 100, c1 at next level, right associativity).
Notation "c1 ;; c2" := (bind c1 (fun _ => c2))
  (at level 100, right associativity).

Definition panic {A} (msg : string) : M A := fun _ => Panic msg.

Definition nil_deref : string :=
  "invalid memory address or nil pointer dereference"%string.

Definition alloc (o : Obj) : M ref :=
  fun w => Ok (length (heap w)) {| heap := heap w ++ [o]; log := log w |}.

Definition load (r : ref) : M Obj :=
  fun w =>
    match heap w !! r with
    | Some o => Ok o w
    | None => Panic nil_deref
    end.

Definition store (r : ref) (o : Obj) : M unit :=
  fun w => Ok tt {| heap := <[r := o]> (heap w); log := log w |}.

Definition emit (e : Event) : M unit :=
  fun w => Ok tt {| heap := heap w; log := log w ++ [e] |}.

Definition emit_all (es : list Event) : M unit :=
  fun w => Ok tt {| heap := heap w; log := log w ++ es |}.

(** [for _, x := range l { body x }] *)
Fixpoint for_each {A} (l : list A) (body : A -> M unit) : M unit :=
  match l with
  | [] => ret tt
  | x :: l' => body x ;; for_each l' body
  end.

(** A range loop that grows an accumulator. *)
Fixpoint foldM {A B} (body : B -> A -> M B) (l : list A) (acc : B) : M B :=
  match l with
  | [] => ret acc
  | x :: l' => acc' <- body acc x ;; foldM body l' acc'
  end.

(** ** Channels *)

(** The largest length [make] accepts for a channel of pointers on a
    64-bit target: (maxAlloc - hchanSize) / 8.  The exact bound is the
    runtime's, and below it an allocation can still fail for lack of
    memory, which ends the process; the store here is unbounded, so only
    the refusals of [make] itself are modelled. *)
Definition maxChanLen : Z := (2 ^ 48 - 96) / 8.

Definition makechan_msg : string := "makechan: size out of range"%string.

(** [make(chan T, size)] *)
Definition makechan (size : Z) : M ref :=
  if (size <? 0) || (maxChanLen <? size)
  then panic makechan_msg
  else alloc (OChan size [] false).

(** The state of one channel, and the two operations a stage performs on
    it without blocking: [chan_send] is [None] when the sender would
    block, [chan_recv] is [None] when the receiver would. *)
Record Chan : Type := {
  chan_cap : Z;
  chan_buf : list ref
}.

Definition chan_send (m : ref) (ch : Chan) : option Chan :=
  if Z.of_nat (length (chan_buf ch)) <? chan_cap ch
  then Some {| chan_cap := chan_cap ch; chan_buf := chan_buf ch ++ [m] |}
  else None.

Definition chan_recv (ch : Chan) : option (ref * Chan) :=
  match chan_buf ch with
  | m :: rest => Some (m, {| chan_cap := chan_cap ch; chan_buf := rest |})
  | [] => None
  end.

Inductive ChanOp : Type := Send (m : ref) | Recv.

(** One attempted operation; an operation that would block leaves the
    channel as it is. *)
Definition chan_step (ch : Chan) (op : ChanOp) : Chan :=
  match op with
  | Send m => match chan_send m ch with Some ch' => ch' | None => ch end
  | Recv => match chan_recv ch with Some (_, ch') => ch' | None => ch end
  end.

Definition chan_run (ops : list ChanOp) (ch : Chan) : Chan :=
  fold_left chan_step ops ch.

(** The channel stored at [r], as made (empty). *)
Definition chan_at (h : list Obj) (r : ref) : option Chan :=
  match h !! r with
  | Some (OChan cap buf _) => Some {| chan_cap := cap; chan_buf := buf |}
  | _ => None
  end.

(** ** pkg/logs/pipeline *)

Definition load_endpoints (r : ref) : M Endpoints :=
  o <- load r ;;
  match o with
  | OEndpoints e => ret e
  | _ => panic nil_deref
  end.

Definition load_pipeline (r : ref) : M Pipeline :=
  o <- load r ;;
  match o with
  | OPipeline p => ret p
  | _ => panic nil_deref
  end.

(** Modelled from the spec: client.NewDestination is absent; a Destination
    wraps one endpoint and references the shared DestinationsContext. *)
Definition NewDestination (endpoint : Endpoint) (destinationsContext : ref)
  : M ref :=
  alloc (ODestination endpoint destinationsContext).

(** Modelled from the spec: client.NewDestinations is absent; exactly one
    main Destination plus an ordered sequence of additional ones. *)
Definition NewDestinations (main : ref) (additionals : list ref) : M ref :=
  alloc (ODestinations main additionals).

(** Modelled from the spec: sender.NewSender is absent; the Sender reads
    from its input queue, submits to the Destinations and forwards to its
    output. *)
Definition NewSender (inputChan outputChan destinations : ref) : M ref :=
  alloc (OComponent (Sender inputChan outputChan destinations) []).

(** Modelled from the spec: processor.New is absent; the Processor reads
    from its input queue, encodes and pushes to its output queue. *)
Definition processor_New (inputChan outputChan : ref) (encoder : Encoder)
  : M ref :=
  alloc (OComponent (Processor inputChan outputChan encoder) []).

(** func NewPipeline *)
Definition NewPipeline (outputChan : ref) (bufferSize : Z)
    (endpoints destinationsContext : ref) : M ref :=
  eps <- load_endpoints endpoints ;;
  main <- NewDestination (Main eps) destinationsContext ;;
  additionals <-
    foldM (fun additionals endpoint =>
             d <- NewDestination endpoint destinationsContext ;;
             ret (additionals ++ [d]))
          (Additionals eps) [] ;;
  destinations <- NewDestinations main additionals ;;
  senderChan <- makechan bufferSize ;;
  sender_ <- NewSender senderChan outputChan destinations ;;
  inputChan <- makechan bufferSize ;;
  let encoder := NewEncoder (UseProto (Main eps)) in
  processor_ <- processor_New inputChan senderChan encoder ;;
  alloc (OPipeline {| InputChan := inputChan;
                      processor := processor_;
                      sender := sender_ |}).

(** func (p *Pipeline) Start; [call] is the method dispatch. *)
Definition Pipeline_Start (call : ref -> Method -> M unit) (p : ref)
  : M unit :=
  pl <- load_pipeline p ;;
  call (sender pl) Start ;;
  call (processor pl) Start.

(** func (p *Pipeline) Stop *)
Definition Pipeline_Stop (call : ref -> Method -> M unit) (p : ref)
  : M unit :=
  pl <- load_pipeline p ;;
  call (processor pl) Stop ;;
  call (sender pl) Stop.

(** ** pkg/logs/restart *)

(** Modelled from the spec: restart.NewStarter, Add and Start are absent.
    A Starter holds an ordered sequence of Restartables; Start invokes
    each member's Start in that order, synchronously. *)
Definition NewStarter (components : list ref) : M ref :=
  alloc (OStarter components).

Definition Starter_Add (s c : ref) : M unit :=
  o <- load s ;;
  match o with
  | OStarter cs => store s (OStarter (cs ++ [c]))
  | _ => panic nil_deref
  end.

Definition Starter_Start (call : ref -> Method -> M unit) (s : ref)
  : M unit :=
  o <- load s ;;
  match o with
  | OStarter cs => for_each cs (fun c => call c Start)
  | _ => panic nil_deref
  end.

(** Modelled from the spec: restart.NewSerialStopper and its Stop are
    absent.  A SerialStopper holds an ordered sequence of stop-groups;
    Stop invokes Stop on each group in turn, waiting for full completion
    before advancing to the next group. *)
Definition NewSerialStopper (components : list ref) : M ref :=
  alloc (OSerialStopper components).

Definition SerialStopper_Stop (call : ref -> Method -> M unit) (s : ref)
  : M unit :=
  o <- load s ;;
  match o with
  | OSerialStopper cs => for_each cs (fun c => call c Stop)
  | _ => panic nil_deref
  end.

(** Runs [c] with an empty log and hands its events back instead of
    appending them. *)
Definition isolate (c : M unit) : M (list Event) :=
  fun w =>
    match c {| heap := heap w; log := [] |} with
    | Ok _ w' => Ok (log w') {| heap := heap w'; log := log w |}
    | Panic msg => Panic msg
    | NoResult => NoResult
    end.

Definition nonempty (t : list Event) : bool :=
  match t with [] => false | _ :: _ => true end.

(** The next event of thread [k], and the threads after it happened. *)
Definition pick_head (k : nat) (ts : list (list Event))
  : option (Event * list (list Event)) :=
  match ts !! k with
  | Some (e :: t) => Some (e, <[k := t]> ts)
  | _ => None
  end.

(** Modelled from the spec: the concurrency of ParallelStopper.Stop.
    Merges the event sequences of concurrent threads: at each step the
    schedule names, among the threads that still have events, the one
    that moves. *)
Fixpoint interleave (n : nat) (sched : list nat) (ts : list (list Event))
  : list Event :=
  match n with
  | O => []
  | S n' =>
      let live := List.filter nonempty ts in
      match pick_head (Nat.modulo (hd 0%nat sched) (length live)) live with
      | Some (e, ts') => e :: interleave n' (tl sched) ts'
      | None => []
      end
  end.

(** Modelled from the spec: the concurrency of ParallelStopper.Stop.
    Peers with no ordering dependency among themselves run concurrently:
    the store effects are taken member by member, the events are
    interleaved by the schedule. *)
Definition parallel (sched : list nat) (ts : list (M unit)) : M unit :=
  segs <- foldM (fun segs t => seg <- isolate t ;; ret (segs ++ [seg]))
                ts [] ;;
  emit_all (interleave (length (concat segs)) sched segs).

(** Modelled from the spec: restart.NewParallelStopper, Add and Stop are
    absent.  A ParallelStopper holds peer Restartables; Stop invokes Stop
    on all members concurrently and waits for every one to complete
    before returning. *)
Definition NewParallelStopper (components : list ref) : M ref :=
  alloc (OParallelStopper components).

Definition ParallelStopper_Add (s c : ref) : M unit :=
  o <- load s ;;
  match o with
  | OParallelStopper cs => store s (OParallelStopper (cs ++ [c]))
  | _ => panic nil_deref
  end.

Definition ParallelStopper_Stop (sched : list nat)
    (call : ref -> Method -> M unit) (s : ref) : M unit :=
  o <- load s ;;
  match o with
  | OParallelStopper cs => parallel sched (map (fun c => call c Stop) cs)
  | _ => panic nil_deref
  end.

(** ** Method dispatch *)

Definition no_method : string := "method not found"%string.

(** Modelled from the spec: the bodies of Start and Stop of the
    components are absent; each is a Restartable, whose call is kept in
    the component's history and returns. *)
Definition component_call (r : ref) (k : Component) (calls : list Method)
    (m : Method) : M unit :=
  store r (OComponent k (calls ++ [m])).

(** [r.m()] through the Restartable interface: the call and the return
    are logged around the body.  [fuel] bounds the nesting of calls. *)
Fixpoint invoke (sched : list nat) (fuel : nat) (r : ref) (m : Method)
    {struct fuel} : M unit :=
  match fuel with
  | O => fun _ => NoResult
  | S fuel' =>
      o <- load r ;;
      emit (Invoke r m) ;;
      match o, m with
      | OComponent k calls, _ => component_call r k calls m
      | OPipeline _, Start => Pipeline_Start (invoke sched fuel') r
      | OPipeline _, Stop => Pipeline_Stop (invoke sched fuel') r
      | OStarter _, Start => Starter_Start (invoke sched fuel') r
      | OParallelStopper _, Stop =>
          ParallelStopper_Stop sched (invoke sched fuel') r
      | OSerialStopper _, Stop => SerialStopper_Stop (invoke sched fuel') r
      | _, _ => panic no_method
      end ;;
      emit (Return r m)
  end.

(** ** The agent *)

(** Modelled from the spec: config.LogsAgent is absent; the configuration
    provider supplies named settings. *)
Record Config : Type := {
  GetInt : string -> Z;
  GetString : string -> string
}.

Definition load_agent (r : ref) : M Agent :=
  o <- load r ;;
  match o with
  | OAgent a => ret a
  | _ => panic nil_deref
  end.

(** Modelled from the spec: health.Register is absent; it returns a
    handle. *)
Definition health_Register (name : string) : M ref :=
  alloc (OHealth name).

(** Modelled from the spec: auditor.New is absent; the Auditor is fed by
    its own bounded queue, whose size it is given here. *)
Definition auditor_New (runPath : string) (channelSize : Z) (h : ref)
  : M ref :=
  alloc (OComponent (Auditor runPath channelSize h) []).

(** Modelled from the spec: client.NewDestinationsContext is absent. *)
Definition NewDestinationsContext : M ref :=
  alloc (OComponent DestinationsContext []).

(** Modelled from the spec: pipeline.NewProvider is absent; it owns a
    pool of Pipelines sized at construction. *)
Definition NewProvider (numberOfPipelines bufferSize : Z)
    (auditor_ endpoints destinationsContext : ref) : M ref :=
  alloc (OComponent (Provider numberOfPipelines bufferSize auditor_
                              endpoints destinationsContext) []).

(** Modelled from the spec: the constructors of the five source
    collectors are absent; each is a Restartable. *)
Definition file_NewScanner (sources : ref) (tailingLimit : Z)
    (pp auditor_ : ref) (sleepDuration : Z) : M ref :=
  alloc (OComponent (Scanner sources tailingLimit pp auditor_
                             sleepDuration) []).

Definition container_NewLauncher (sources services pp auditor_ : ref)
  : M ref :=
  alloc (OComponent (ContainerLauncher sources services pp auditor_) []).

Definition listener_NewLauncher (sources : ref) (frameSize : Z) (pp : ref)
  : M ref :=
  alloc (OComponent (ListenerLauncher sources frameSize pp) []).

Definition journald_NewLauncher (sources pp auditor_ : ref) : M ref :=
  alloc (OComponent (JournaldLauncher sources pp auditor_) []).

Definition windowsevent_NewLauncher (sources pp : ref) : M ref :=
  alloc (OComponent (WindowsEventLauncher sources pp) []).

(** func NewAgent; [DefaultSleepDuration] is file.DefaultSleepDuration,
    whose value is absent. *)
Definition NewAgent (cfg : Config) (DefaultSleepDuration : Z)
    (sources services endpoints : ref) : M ref :=
  health_ <- health_Register "logs-agent" ;;
  let pipelineBufferSize := GetInt cfg "logs_config.pipeline.buffer_size" in
  auditor_ <- auditor_New (GetString cfg "logs_config.run_path")
                          pipelineBufferSize health_ ;;
  destinationsCtx_ <- NewDestinationsContext ;;
  pipelineProvider_ <- NewProvider (GetInt cfg "logs_config.pipeline.count")
                                   pipelineBufferSize auditor_ endpoints
                                   destinationsCtx_ ;;
  scanner <- file_NewScanner sources
               (GetInt cfg "logs_config.open_files_limit")
               pipelineProvider_ auditor_ DefaultSleepDuration ;;
  containers <- container_NewLauncher sources services pipelineProvider_
                                      auditor_ ;;
  listeners <- listener_NewLauncher sources
                 (GetInt cfg "logs_config.frame_size") pipelineProvider_ ;;
  journal <- journald_NewLauncher sources pipelineProvider_ auditor_ ;;
  winevents <- windowsevent_NewLauncher sources pipelineProvider_ ;;
  alloc (OAgent {| auditor := auditor_;
                   destinationsCtx := destinationsCtx_;
                   pipelineProvider := pipelineProvider_;
                   inputs := [scanner; containers; listeners; journal;
                              winevents];
                   health := health_ |}).

(** func (a *Agent) Start *)
Definition Agent_Start (sched : list nat) (fuel : nat) (a : ref) : M unit :=
  ag <- load_agent a ;;
  starter <- NewStarter [destinationsCtx ag; auditor ag;
                         pipelineProvider ag] ;;
  for_each (inputs ag) (fun input => Starter_Add starter input) ;;
  invoke sched fuel starter Start.

(** ** The shutdown race of Agent.Stop *)

(** int64 arithmetic of time.Duration *)
Definition wrap64 (x : Z) : Z := (x + 2 ^ 63) mod 2 ^ 64 - 2 ^ 63.

(** time.Second, in nanoseconds *)
Definition Second : Z := 1000000000.

(** [time.Duration(config.LogsAgent.GetInt("logs_config.stop_grace_period"))
    * time.Second] *)
Definition stop_timeout (cfg : Config) : Z :=
  wrap64 (wrap64 (GetInt cfg "logs_config.stop_grace_period") * Second).

Definition timed_out_msg : string :=
  "Timed out when stopping logs-agent, forcing it to stop now"%string.

(** Where the calling goroutine stands in the source:
    [PcTimer] before [time.After(timeout)] is evaluated, [PcSelect] at
    the select before its cases are polled, [PcBlocked] parked in the
    select, [PcDone] case [<-c] taken, [PcTimedOut] case
    [<-time.After(timeout)] taken, [PcForceCall] and [PcForceReturn]
    around [a.destinationsCtx.Stop()], [PcWait] at the final [<-c],
    [PcReturned] after the function has returned. *)
Inductive Pc : Type :=
  | PcTimer | PcSelect | PcBlocked | PcDone | PcTimedOut
  | PcForceCall | PcForceReturn | PcWait | PcReturned.

Record Race : Type := {
  clock : Z;                 (* nanoseconds since Stop started the goroutine *)
  pending : list Event;      (* what is left of stopper.Stop() *)
  c_closed : bool;           (* close(c) has happened *)
  deadline : option Z;       (* the timer of time.After, once created *)
  fired : bool;              (* the timer has sent on its channel *)
  timed_out : bool;          (* the select took the timer case *)
  pc : Pc;
  trace : list Event
}.

(** What the scheduler may do next. *)
Inductive Choice : Type :=
  | Tick (d : Z)
  | RunWorker
  | FireTimer
  | RunMain (coin : bool).

Section Race.

Variables (c ctx : ref) (timeout : Z).

Definition set_pc (s : Race) (p : Pc) : Race :=
  {| clock := clock s; pending := pending s; c_closed := c_closed s;
     deadline := deadline s; fired := fired s; timed_out := timed_out s;
     pc := p; trace := trace s |}.

Definition say (s : Race) (e : Event) (p : Pc) : Race :=
  {| clock := clock s; pending := pending s; c_closed := c_closed s;
     deadline := deadline s; fired := fired s; timed_out := timed_out s;
     pc := p; trace := trace s ++ [e] |}.

Definition take_timer_case (s : Race) : Race :=
  {| clock := clock s; pending := pending s; c_closed := c_closed s;
     deadline := deadline s; fired := fired s; timed_out := true;
     pc := PcTimedOut; trace := trace s |}.

(** The goroutine: [stopper.Stop()], one event at a time, then
    [close(c)], which completes a select parked on [c]. *)
Definition step_worker (s : Race) : Race :=
  match pending s with
  | e :: rest =>
      {| clock := clock s; pending := rest; c_closed := c_closed s;
         deadline := deadline s; fired := fired s;
         timed_out := timed_out s; pc := pc s;
         trace := trace s ++ [Worker e] |}
  | [] =>
      if c_closed s then s
      else
        {| clock := clock s; pending := []; c_closed := true;
           deadline := deadline s; fired := fired s;
           timed_out := timed_out s;
           pc := match pc s with PcBlocked => PcDone | p => p end;
           trace := trace s ++ [Worker (CloseChan c)] |}
  end.

(** The runtime timer: it sends once, at or after its deadline, which
    completes a select parked on its channel. *)
Definition step_timer (s : Race) : Race :=
  match deadline s with
  | Some d =>
      if (d <=? clock s) && negb (fired s) then
        let s' :=
          {| clock := clock s; pending := pending s;
             c_closed := c_closed s; deadline := deadline s;
             fired := true; timed_out := timed_out s; pc := pc s;
             trace := trace s ++ [TimerFired] |} in
        match pc s with
        | PcBlocked => take_timer_case s'
        | _ => s'
        end
      else s
  | None => s
  end.

(** The calling goroutine, from [select] to the end of Stop.  When both
    cases of the select are ready, [coin] chooses. *)
Definition step_main (coin : bool) (s : Race) : Race :=
  match pc s with
  | PcTimer =>
      {| clock := clock s; pending := pending s; c_closed := c_closed s;
         deadline := Some (clock s + timeout); fired := fired s;
         timed_out := timed_out s; pc := PcSelect; trace := trace s |}
  | PcSelect =>
      match c_closed s, fired s with
      | true, true => if coin then set_pc s PcDone else take_timer_case s
      | true, false => set_pc s PcDone
      | false, true => take_timer_case s
      | false, false => set_pc s PcBlocked
      end
  | PcBlocked => s
  | PcDone => set_pc s PcReturned
  | PcTimedOut => say s (LogInfo timed_out_msg) PcForceCall
  | PcForceCall => say s (Invoke ctx Stop) PcForceReturn
  | PcForceReturn => say s (Return ctx Stop) PcWait
  | PcWait => if c_closed s then set_pc s PcReturned else s
  | PcReturned => s
  end.

(** One scheduling decision.  Nothing is observed after Stop has
    returned. *)
Definition step (s : Race) (ch : Choice) : Race :=
  match pc s with
  | PcReturned => s
  | _ =>
      match ch with
      | Tick d =>
          if 0 <? d then
            {| clock := clock s + d; pending := pending s;
               c_closed := c_closed s; deadline := deadline s;
               fired := fired s; timed_out := timed_out s; pc := pc s;
               trace := trace s |}
          else s
      | RunWorker => step_worker s
      | FireTimer => step_timer s
      | RunMain coin => step_main coin s
      end
  end.

Definition exec (sched : list Choice) (s : Race) : Race :=
  fold_left step sched s.

(** The state right after [go func() { stopper.Stop(); close(c) }()]. *)
Definition race_init (evs : list Event) : Race :=
  {| clock := 0; pending := evs; c_closed := false; deadline := None;
     fired := false; timed_out := false; pc := PcTimer; trace := [] |}.

End Race.

(** [a.destinationsCtx.Stop()] on the calling goroutine, as it acts on
    the store. *)
Definition forced_stop (ctx : ref) : M unit :=
  o <- load ctx ;;
  match o with
  | OComponent k calls => component_call ctx k calls Stop
  | _ => panic no_method
  end.

(** [close(c)], as it acts on the store. *)
Definition close_chan (c : ref) : M unit :=
  o <- load c ;;
  match o with
  | OChan cap buf _ => store c (OChan cap buf true)
  | _ => panic nil_deref
  end.

(** Lines 110 to 125 of Agent.Stop: the goroutine running [worker] and
    closing [c], raced against the grace-period timer.  [rsched] is the
    schedule of the race; a schedule that ends before Stop has returned
    gives no result. *)
Definition stop_race (worker : M unit) (c ctx : ref) (timeout : Z)
    (rsched : list Choice) : M unit :=
  evs <- isolate worker ;;
  let s := exec c ctx timeout rsched (race_init evs) in
  match pc s with
  | PcReturned =>
      (if timed_out s then forced_stop ctx else ret tt) ;;
      close_chan c ;;
      emit_all (trace s)
  | _ => fun _ => NoResult
  end.

(** func (a *Agent) Stop *)
Definition Agent_Stop (cfg : Config) (sched : list nat) (fuel : nat)
    (rsched : list Choice) (a : ref) : M unit :=
  ag <- load_agent a ;;
  inputs_ <- NewParallelStopper [] ;;
  for_each (inputs ag) (fun input => ParallelStopper_Add inputs_ input) ;;
  stopper <- NewSerialStopper [inputs_; pipelineProvider ag; auditor ag;
                               destinationsCtx ag] ;;
  c <- makechan 0 ;;
  let timeout := stop_timeout cfg in
  stop_race (invoke sched fuel stopper Stop) c (destinationsCtx ag) timeout
            rsched.

(** ** Vocabulary of the statements *)

(** [r] points to a component whose body is absent. *)
Definition is_component (h : list Obj) (r : ref) : bool :=
  match h !! r with
  | Some (OComponent _ _) => true
  | _ => false
  end.

(** The store after the component at [r] has received the call [m]. *)
Definition record (m : Method) (h : list Obj) (r : ref) : list Obj :=
  match h !! r with
  | Some (OComponent k calls) => <[r := OComponent k (calls ++ [m])]> h
  | _ => h
  end.

(** A call that has returned: the invocation, then the return. *)
Definition call_events (m : Method) (r : ref) : list Event :=
  [Invoke r m; Return r m].

(** [e1] happens before [e2] in [l]. *)
Definition precedes (e1 e2 : Event) (l : list Event) : Prop :=
  exists l1 l2 l3, l = l1 ++ e1 :: l2 ++ e2 :: l3.

(** The encoder of the Processor of the pipeline at [p]. *)
Definition pipeline_encoder (h : list Obj) (p : ref) : option Encoder :=
  match h !! p with
  | Some (OPipeline pl) =>
      match h !! processor pl with
      | Some (OComponent (Processor _ _ enc) _) => Some enc
      | _ => None
      end
  | _ => None
  end.

(** The inter-stage queue of the pipeline at [p]: the queue its Sender
    reads from. *)
Definition pipeline_senderChan (h : list Obj) (p : ref) : option ref :=
  match h !! p with
  | Some (OPipeline pl) =>
      match h !! sender pl with
      | Some (OComponent (Sender sc _ _) _) => Some sc
      | _ => None
      end
  | _ => None
  end.

(** The events of the goroutine of Agent.Stop, in order. *)
Fixpoint worker_events (l : list Event) : list Event :=
  match l with
  | [] => []
  | Worker e :: l' => e :: worker_events l'
  | _ :: l' => worker_events l'
  end.

(** The events of the calling goroutine, in order. *)
Fixpoint main_events (l : list Event) : list Event :=
  match l with
  | [] => []
  | Worker _ :: l' => main_events l'
  | TimerFired :: l' => main_events l'
  | e :: l' => e :: main_events l'
  end.

(** The objects NewPipeline allocates after the Destinations of a
    pipeline whose first object is at [n] and which has [k] additional
    endpoints: the Destinations, the sender queue, the Sender, the entry
    queue, the Processor and the Pipeline. *)
Definition stage_objects (n k : nat) (outputChan : ref) (bufferSize : Z)
    (e : Endpoints) : list Obj :=
  [ODestinations n (seq (S n) k);
   OChan bufferSize [] false;
   OComponent (Sender (n + k + 2) outputChan (n + k + 1))%nat [];
   OChan bufferSize [] false;
   OComponent (Processor (n + k + 4) (n + k + 2)
                         (NewEncoder (UseProto (Main e))))%nat [];
   OPipeline {| InputChan := (n + k + 4)%nat;
                processor := (n + k + 5)%nat;
                sender := (n + k + 3)%nat |}].

(** The store objects that NewPipeline adds to a store of [n] objects. *)
Definition pipeline_objects (n : nat) (outputChan : ref) (bufferSize : Z)
    (e : Endpoints) (destinationsContext : ref) : list Obj :=
  ODestination (Main e) destinationsContext
  :: map (fun ep => ODestination ep destinationsContext) (Additionals e)
  ++ stage_objects n (length (Additionals e)) outputChan bufferSize e.

(** The store objects that NewAgent adds to a store of [n] objects. *)
Definition agent_objects (n : nat) (cfg : Config) (DefaultSleepDuration : Z)
    (sources services endpoints : ref) : list Obj :=
  let size := GetInt cfg "logs_config.pipeline.buffer_size" in
  [OHealth "logs-agent";
   OComponent (Auditor (GetString cfg "logs_config.run_path") size n) [];
   OComponent DestinationsContext [];
   OComponent (Provider (GetInt cfg "logs_config.pipeline.count") size
                        (n + 1) endpoints (n + 2))%nat [];
   OComponent (Scanner sources (GetInt cfg "logs_config.open_files_limit")
                       (n + 3) (n + 1) DefaultSleepDuration)%nat [];
   OComponent (ContainerLauncher sources services (n + 3) (n + 1))%nat [];
   OComponent (ListenerLauncher sources (GetInt cfg "logs_config.frame_size")
                                (n + 3))%nat [];
   OComponent (JournaldLauncher sources (n + 3) (n + 1))%nat [];
   OComponent (WindowsEventLauncher sources (n + 3))%nat [];
   OAgent {| auditor := (n + 1)%nat;
             destinationsCtx := (n + 2)%nat;
             pipelineProvider := (n + 3)%nat;
             inputs := [n + 4; n + 5; n + 6; n + 7; n + 8]%nat;
             health := n |}].

(** The queue size the Auditor of the agent at [a] was given. *)
Definition auditor_channelSize (h : list Obj) (a : ref) : option Z :=
  match h !! a with
  | Some (OAgent ag) =>
      match h !! auditor ag with
      | Some (OComponent (Auditor _ size _) _) => Some size
      | _ => None
      end
  | _ => None
  end.

(** The buffer size the PipelineProvider of the agent at [a] was given. *)
Definition provider_bufferSize (h : list Obj) (a : ref) : option Z :=
  match h !! a with
  | Some (OAgent ag) =>
      match h !! pipelineProvider ag with
      | Some (OComponent (Provider _ size _ _ _) _) => Some size
      | _ => None
      end
  | _ => None
  end.

(** The components Agent.Start hands to the Starter, in its order. *)
Definition agent_components (ag : Agent) : list ref :=
  destinationsCtx ag :: auditor ag :: pipelineProvider ag :: inputs ag.

(** The stop-groups after the inputs, in the order of Agent.Stop. *)
Definition agent_stages (ag : Agent) : list ref :=
  [pipelineProvider ag; auditor ag; destinationsCtx ag].

(** The store objects Agent.Stop adds to a store of [n] objects: the
    ParallelStopper of the inputs, the SerialStopper and the channel
    [c]. *)
Definition stop_objects (n : nat) (ag : Agent) : list Obj :=
  [OParallelStopper (inputs ag);
   OSerialStopper ((n :: agent_stages ag));
   OChan 0 [] false].

(** The events of the inputs' stop-group under the schedule [sched]. *)
Definition inputs_stop_events (sched : list nat) (ag : Agent)
  : list Event :=
  interleave (length (concat (map (call_events Stop) (inputs ag)))) sched
             (map (call_events Stop) (inputs ag)).

(** The events of [stopper.Stop()] in Agent.Stop, when the
    ParallelStopper is at [n] and the SerialStopper at [n + 1]. *)
Definition stop_events (sched : list nat) (n : nat) (ag : Agent)
  : list Event :=
  Invoke (n + 1)%nat Stop
  :: (Invoke n Stop :: inputs_stop_events sched ag ++ [Return n Stop])
  ++ flat_map (call_events Stop) (agent_stages ag)
  ++ [Return (n + 1)%nat Stop].

(** The store when Agent.Stop returns. *)
Definition stopped_heap (forced : bool) (n : nat) (ag : Agent)
    (h : list Obj) : list Obj :=
  let h1 := fold_left (record Stop) (inputs ag ++ agent_stages ag)
                      (h ++ stop_objects n ag) in
  let h2 := if forced then record Stop h1 (destinationsCtx ag) else h1 in
  <[(n + 2)%nat := OChan 0 [] true]> h2.

(** What the calling goroutine does on the timeout branch. *)
Definition forced_events (ctx : ref) : list Event :=
  [LogInfo timed_out_msg; Invoke ctx Stop; Return ctx Stop].

(** The invariant of the race.  The goroutine's events so far, followed
    by what is left of the stop sequence, are the whole sequence (and the
    close of [c] once it has happened); [c] is closed only after the
    sequence is finished; the calling goroutine's own events and flags
    follow its position; the timer fires only once created, at or after
    its deadline, which is no earlier than the timeout. *)
Definition race_inv (c ctx : ref) (timeout : Z) (evs : list Event)
    (s : Race) : Prop :=
  worker_events (trace s) ++ pending s
    = evs ++ (if c_closed s then [CloseChan c] else []) /\
  (c_closed s = true -> pending s = []) /\
  0 <= clock s /\
  (forall d, deadline s = Some d -> timeout <= d) /\
  (fired s = true -> exists d, deadline s = Some d /\ d <= clock s) /\
  (timed_out s = true -> fired s = true) /\
  match pc s with
  | PcTimer => deadline s = None /\ timed_out s = false /\
               main_events (trace s) = []
  | PcSelect => timed_out s = false /\ main_events (trace s) = []
  | PcBlocked => timed_out s = false /\ main_events (trace s) = [] /\
                 c_closed s = false /\ fired s = false
  | PcDone => timed_out s = false /\ main_events (trace s) = [] /\
              c_closed s = true
  | PcTimedOut => timed_out s = true /\ main_events (trace s) = []
  | PcForceCall => timed_out s = true /\
                   main_events (trace s) = [LogInfo timed_out_msg]
  | PcForceReturn => timed_out s = true /\
                     main_events (trace s)
                       = [LogInfo timed_out_msg; Invoke ctx Stop]
  | PcWait => timed_out s = true /\
              main_events (trace s) = forced_events ctx
  | PcReturned => c_closed s = true /\
                  main_events (trace s)
                    = (if timed_out s then forced_events ctx else [])
  end.

(** A schedule that lets the goroutine finish and then lets the calling
    goroutine run to its return. *)
Definition finishing (s : Race) : list Choice :=
  repeat RunWorker (S (length (pending s))) ++ repeat (RunMain true) 6.

(** A store, a configuration and schedules to run the definitions on. *)
Definition example_endpoints : Endpoints :=
  {| Main := {| Host := "intake.example"; APIKey := "k0"; UseProto := true |};
     Additionals :=
       [{| Host := "mirror1.example"; APIKey := "k1"; UseProto := false |};
        {| Host := "mirror2.example"; APIKey := "k2"; UseProto := false |}] |}.

Definition example_world : World :=
  {| heap := [OExternal; OExternal; OEndpoints example_endpoints;
              OChan 100 [] false; OComponent DestinationsContext []];
     log := [] |}.

Definition example_config : Config :=
  {| GetInt := fun key =>
       if String.eqb key "logs_config.pipeline.buffer_size" then 100
       else if String.eqb key "logs_config.pipeline.count" then 4
       else if String.eqb key "logs_config.stop_grace_period" then 30
       else if String.eqb key "logs_config.open_files_limit" then 100
       else if String.eqb key "logs_config.frame_size" then 9000
       else 0;
     GetString := fun _ => "/opt/datadog-agent/run"%string |}.

Definition world_of {A} (r : Result A) : World :=
  match r with
  | Ok _ w => w
  | _ => {| heap := []; log := [] |}
  end.

(** The agent NewAgent builds in the example store, the store it leaves,
    and a schedule of the shutdown race in which the grace period runs
    out while the inputs are stopping. *)
Definition example_agent : Agent :=
  {| auditor := 6%nat; destinationsCtx := 7%nat; pipelineProvider := 8%nat;
     inputs := [9; 10; 11; 12; 13]%nat; health := 5%nat |}.

Definition example_agent_world : World :=
  world_of (NewAgent example_config 1 0%nat 1%nat 2%nat example_world).

Definition example_race : list Choice :=
  [RunWorker; RunMain true; RunMain true; Tick 30000000000; FireTimer]
  ++ repeat RunWorker 10 ++ [RunMain true; RunMain true]
  ++ repeat RunWorker 12 ++ repeat (RunMain true) 4.

(** The example store after Agent.Start, and after the Agent.Stop that
    follows it under [example_race]. *)
Definition example_started_world : World :=
  world_of (Agent_Start [] 2 14%nat example_agent_world).

Definition example_stopped_world : World :=
  world_of (Agent_Stop example_config [3; 1; 0; 2]%nat 3 example_race
                       14%nat example_started_world).

(** The example store after an Agent.Stop that no Start preceded. *)
Definition example_unstarted_stop : World :=
  world_of (Agent_Stop example_config [3; 1; 0; 2]%nat 3 example_race
                       14%nat example_agent_world).

(** ** Vocabulary of the further properties *)

(** The calls the component at [r] has received so far. *)
Definition calls_of (h : list Obj) (r : ref) : option (list Method) :=
  match h !! r with
  | Some (OComponent _ calls) => Some calls
  | _ => None
  end.

(** The time one scheduling decision lets pass, and the time a whole
    schedule lets pass. *)
Definition tick_of (ch : Choice) : Z :=
  match ch with
  | Tick d => if 0 <? d then d else 0
  | _ => 0
  end.

Definition total_ticks (sched : list Choice) : Z :=
  fold_right (fun ch acc => tick_of ch + acc) 0 sched.

(** A schedule on which no time passes: the calling goroutine enters the
    select and parks, then the timer fires. *)
Definition hasty : list Choice := [RunMain true; RunMain true; FireTimer].

(** More stores and configurations to run the definitions on. *)
Definition example_pipeline_world : World :=
  world_of (NewPipeline 3%nat 10 2%nat 4%nat example_world).

Definition example_two_pipelines : World :=
  world_of (NewPipeline 3%nat 5 2%nat 4%nat example_pipeline_world).

Definition example_config_no_grace : Config :=
  {| GetInt := fun key =>
       if String.eqb key "logs_config.stop_grace_period" then 0
       else GetInt example_config key;
     GetString := GetString example_config |}.

Definition example_config_overflow : Config :=
  {| GetInt := fun key =>
       if String.eqb key "logs_config.stop_grace_period" then 9223372037
       else GetInt example_config key;
     GetString := GetString example_config |}.

(** A schedule of the race on which no time passes and the goroutine
    finishes first. *)
Definition example_clean_race : list Choice :=
  repeat RunWorker 21 ++ repeat (RunMain true) 3.

(** [example_race] in two parts: what happens before the first tick, and
    the rest. *)
Definition example_race_early : list Choice :=
  [RunWorker; RunMain true; RunMain true].

Definition example_race_late : list Choice :=
  [Tick 30000000000; FireTimer]
  ++ repeat RunWorker 10 ++ [RunMain true; RunMain true]
  ++ repeat RunWorker 12 ++ repeat (RunMain true) 4.

Definition example_clean_stop : World :=
  world_of (Agent_Stop example_config [3; 1; 0; 2]%nat 3 example_clean_race
                       14%nat example_started_world).

(** ** Vocabulary of the order and of the grace period *)

(** The event itself, whichever goroutine it happened on. *)
Definition untag (e : Event) : Event :=
  match e with
  | Worker e' => e'
  | _ => e
  end.

Definition is_call (e : Event) : bool :=
  match e with
  | Invoke _ _ | Return _ _ => true
  | _ => false
  end.

(** The calls and returns of a log, by either goroutine, in the order
    they happened. *)
Definition all_calls (l : list Event) : list Event :=
  List.filter is_call (map untag l).

(** At every occurrence of [e2] in [l], [e1] has already happened. *)
Definition completed_before (e1 e2 : Event) (l : list Event) : Prop :=
  forall l1 l2, l = l1 ++ e2 :: l2 -> In e1 l1.

(** The stop-groups of Agent.Stop, in its order. *)
Definition stop_groups (ag : Agent) : list (list ref) :=
  [inputs ag; [pipelineProvider ag]; [auditor ag]; [destinationsCtx ag]].

(** Serial order of the groups in a list of calls: whenever Stop is
    invoked on a member of a group, the Stop of every member of every
    earlier group has returned. *)
Definition stops_in_order (groups : list (list ref)) (l : list Event)
  : Prop :=
  forall i j gi gj r r',
    groups !! i = Some gi -> groups !! j = Some gj -> (i < j)%nat ->
    In r gi -> In r' gj ->
    completed_before (Return r Stop) (Invoke r' Stop) l.









(** ** Store lemmas *)

Lemma lookup_app_plus (h L : list Obj) (k : nat) :
  (h ++ L) !! (length h + k)%nat = L !! k.
Proof.
  rewrite lookup_app_r by lia.
  f_equal. lia.
Qed.

Lemma alloc_app (h L : list Obj) (l : list Event) (o : Obj) :
  alloc o {| heap := h ++ L; log := l |} =
  Ok (length h + length L)%nat {| heap := h ++ (L ++ [o]); log := l |}.
Proof.
  unfold alloc. cbn [heap log].
  rewrite length_app, <- app_assoc. reflexivity.
Qed.

Lemma is_component_spec (h : list Obj) (r : ref) :
  is_component h r = true <->
  exists k calls, h !! r = Some (OComponent k calls).
Proof.
  unfold is_component. split.
  - destruct (h !! r) as [[]|]; try discriminate. eauto.
  - intros (k & calls & ->). reflexivity.
Qed.

Lemma record_length (m : Method) (h : list Obj) (r : ref) :
  length (record m h r) = length h.
Proof.
  unfold record. destruct (h !! r) as [[]|]; try reflexivity.
  apply length_insert.
Qed.

Lemma record_is_component (m : Method) (h : list Obj) (r r' : ref) :
  is_component (record m h r) r' = is_component h r'.
Proof.
  unfold record.
  destruct (h !! r) as [o|] eqn:Hr; [|reflexivity].
  destruct o; try reflexivity.
  unfold is_component.
  destruct (decide (r = r')) as [<-|Hne].
  - rewrite list_lookup_insert_eq by (eapply lookup_lt_Some; eauto).
    rewrite Hr. reflexivity.
  - rewrite list_lookup_insert_ne by assumption. reflexivity.
Qed.

(** A call never touches an object that is not a component. *)
Lemma record_frame (m : Method) (h : list Obj) (r a : ref) (o : Obj) :
  h !! a = Some o ->
  (forall k calls, o <> OComponent k calls) ->
  record m h r !! a = Some o.
Proof.
  intros Ha Hno. unfold record.
  destruct (h !! r) as [o'|] eqn:Hr; [|assumption].
  destruct o'; try assumption.
  destruct (decide (r = a)) as [->|Hne].
  - rewrite Ha in Hr. inversion Hr; subst. exfalso. eapply Hno; eauto.
  - rewrite list_lookup_insert_ne by assumption. assumption.
Qed.

Lemma records_length (m : Method) (rs : list ref) (h : list Obj) :
  length (fold_left (record m) rs h) = length h.
Proof.
  revert h. induction rs as [|r rs IH]; intros h; cbn; [reflexivity|].
  rewrite IH. apply record_length.
Qed.

Lemma records_frame (m : Method) (rs : list ref) (h : list Obj) (a : ref)
    (o : Obj) :
  h !! a = Some o ->
  (forall k calls, o <> OComponent k calls) ->
  fold_left (record m) rs h !! a = Some o.
Proof.
  revert h. induction rs as [|r rs IH]; intros h Ha Hno; cbn.
  - assumption.
  - apply IH; [|assumption]. apply record_frame; assumption.
Qed.

(** ** Calls on components *)

Lemma invoke_component (sched : list nat) (fuel : nat) (r : ref)
    (m : Method) (w : World) :
  is_component (heap w) r = true ->
  invoke sched (S fuel) r m w =
  Ok tt {| heap := record m (heap w) r;
           log := log w ++ call_events m r |}.
Proof.
  intros Hc. apply is_component_spec in Hc as (k & calls & Hr).
  cbn [invoke]. unfold bind, load, emit, record, component_call.
  cbn [heap log].
  rewrite Hr. cbn. unfold call_events.
  rewrite <- app_assoc. reflexivity.
Qed.

Lemma for_each_invoke (sched : list nat) (fuel : nat) (m : Method)
    (rs : list ref) (w : World) :
  forallb (is_component (heap w)) rs = true ->
  for_each rs (fun r => invoke sched (S fuel) r m) w =
  Ok tt {| heap := fold_left (record m) rs (heap w);
           log := log w ++ flat_map (call_events m) rs |}.
Proof.
  revert w. induction rs as [|r rs IH]; intros w Hall.
  - cbn. unfold ret. rewrite app_nil_r. destruct w; reflexivity.
  - cbn [forallb] in Hall. apply andb_prop in Hall as [Hr Hrs].
    cbn [for_each]. unfold bind at 1.
    rewrite invoke_component by assumption.
    rewrite IH.
    + cbn [heap log fold_left flat_map]. rewrite <- app_assoc. reflexivity.
    + cbn [heap]. rewrite forallb_forall in *. intros x Hx.
      rewrite record_is_component. apply Hrs, Hx.
Qed.

(** ** NewPipeline, step by step *)

Lemma foldM_NewDestination (destinationsContext : ref)
    (eps : list Endpoint) (acc : list ref) (h L : list Obj)
    (l : list Event) :
  foldM (fun additionals endpoint =>
           d <- NewDestination endpoint destinationsContext ;;
           ret (additionals ++ [d]))
        eps acc {| heap := h ++ L; log := l |} =
  Ok (acc ++ seq (length h + length L) (length eps))
     {| heap := h ++ (L ++ map (fun ep => ODestination ep destinationsContext)
                               eps);
        log := l |}.
Proof.
  revert acc L. induction eps as [|ep eps IH]; intros acc L.
  - cbn. unfold ret. rewrite !app_nil_r. reflexivity.
  - cbn [foldM]. unfold bind at 1. unfold bind at 1.
    unfold NewDestination. rewrite alloc_app. unfold ret at 1.
    rewrite IH. rewrite length_app. cbn [length map seq].
    rewrite <- !app_assoc. cbn [app].
    replace (length h + (length L + 1))%nat
      with (S (length h + length L)) by lia.
    reflexivity.
Qed.

Lemma makechan_in_range (size : Z) :
  0 <= size <= maxChanLen ->
  makechan size = alloc (OChan size [] false).
Proof.
  intros [Hlo Hhi]. unfold makechan.
  destruct (size <? 0) eqn:E1; [apply Z.ltb_lt in E1; lia|].
  destruct (maxChanLen <? size) eqn:E2; [apply Z.ltb_lt in E2; lia|].
  reflexivity.
Qed.

Lemma makechan_out_of_range (size : Z) (w : World) :
  size < 0 \/ maxChanLen < size ->
  makechan size w = Panic makechan_msg.
Proof.
  intros H. unfold makechan.
  destruct (size <? 0) eqn:E1; [reflexivity|].
  destruct (maxChanLen <? size) eqn:E2; [reflexivity|].
  apply Z.ltb_ge in E1, E2. lia.
Qed.

Lemma NewPipeline_nil_endpoints (outputChan : ref) (bufferSize : Z)
    (endpoints destinationsContext : ref) (w : World) :
  (forall e, heap w !! endpoints <> Some (OEndpoints e)) ->
  NewPipeline outputChan bufferSize endpoints destinationsContext w =
  Panic nil_deref.
Proof.
  intros Hno. unfold NewPipeline, load_endpoints, load.
  unfold bind at 1. unfold bind at 1.
  destruct (heap w !! endpoints) as [o|]; [|reflexivity].
  destruct o; try reflexivity.
  exfalso. eapply Hno. reflexivity.
Qed.

Lemma NewPipeline_bad_size (outputChan : ref) (bufferSize : Z)
    (endpoints destinationsContext : ref) (w : World) (e : Endpoints) :
  heap w !! endpoints = Some (OEndpoints e) ->
  bufferSize < 0 \/ maxChanLen < bufferSize ->
  NewPipeline outputChan bufferSize endpoints destinationsContext w =
  Panic makechan_msg.
Proof.
  intros He Hsz. destruct w as [h l]. cbn [heap] in He.
  unfold NewPipeline, load_endpoints, load.
  unfold bind at 1. unfold bind at 1. cbn [heap]. rewrite He.
  unfold ret at 1. unfold bind at 1. unfold NewDestination at 1.
  rewrite <- (app_nil_r h) at 1. rewrite alloc_app.
  unfold bind at 1. rewrite foldM_NewDestination.
  unfold bind at 1. unfold NewDestinations. rewrite alloc_app.
  unfold bind at 1. rewrite makechan_out_of_range by assumption.
  reflexivity.
Qed.

Lemma NewPipeline_ok (outputChan : ref) (bufferSize : Z)
    (endpoints destinationsContext : ref) (w : World) (e : Endpoints) :
  heap w !! endpoints = Some (OEndpoints e) ->
  0 <= bufferSize <= maxChanLen ->
  NewPipeline outputChan bufferSize endpoints destinationsContext w =
  Ok (length (heap w) + length (Additionals e) + 6)%nat
     {| heap := heap w ++ pipeline_objects (length (heap w)) outputChan
                                           bufferSize e destinationsContext;
        log := log w |}.
Proof.
  intros He Hsz. destruct w as [h l]. cbn [heap log] in *.
  unfold NewPipeline, load_endpoints, load.
  unfold bind at 1. unfold bind at 1. cbn [heap]. rewrite He.
  unfold ret at 1. unfold bind at 1. unfold NewDestination at 1.
  rewrite <- (app_nil_r h) at 1. rewrite alloc_app.
  unfold bind at 1. rewrite foldM_NewDestination.
  unfold bind at 1. unfold NewDestinations. rewrite alloc_app.
  rewrite makechan_in_range by assumption.
  unfold bind at 1. rewrite alloc_app.
  unfold bind at 1. unfold NewSender. rewrite alloc_app.
  unfold bind at 1. rewrite alloc_app.
  unfold bind at 1. unfold processor_New. rewrite alloc_app.
  rewrite alloc_app.
  unfold pipeline_objects, stage_objects.
  repeat rewrite length_app. rewrite length_map. cbn [length app].
  rewrite <- !app_assoc. cbn [app].
  set (n := length h). set (k := length (Additionals e)).
  replace (n + (0 + 1))%nat with (S n) by lia.
  replace (n + 0)%nat with n by lia.
  replace (n + (0 + 1 + k))%nat with (n + k + 1)%nat by lia.
  replace (n + (0 + 1 + k + 1))%nat with (n + k + 2)%nat by lia.
  replace (n + (0 + 1 + k + 1 + 1))%nat with (n + k + 3)%nat by lia.
  replace (n + (0 + 1 + k + 1 + 1 + 1))%nat with (n + k + 4)%nat by lia.
  replace (n + (0 + 1 + k + 1 + 1 + 1 + 1))%nat
    with (n + k + 5)%nat by lia.
  replace (n + (0 + 1 + k + 1 + 1 + 1 + 1 + 1))%nat
    with (n + k + 6)%nat by lia.
  reflexivity.
Qed.

Lemma NewPipeline_inv (outputChan : ref) (bufferSize : Z)
    (endpoints destinationsContext : ref) (w : World) (p : ref)
    (w' : World) :
  NewPipeline outputChan bufferSize endpoints destinationsContext w
    = Ok p w' ->
  exists e,
    heap w !! endpoints = Some (OEndpoints e) /\
    0 <= bufferSize <= maxChanLen /\
    p = (length (heap w) + length (Additionals e) + 6)%nat /\
    w' = {| heap := heap w ++ pipeline_objects (length (heap w)) outputChan
                                               bufferSize e
                                               destinationsContext;
            log := log w |}.
Proof.
  intros Hok.
  destruct (heap w !! endpoints) as [o|] eqn:He.
  2: { rewrite NewPipeline_nil_endpoints in Hok by congruence.
       discriminate. }
  destruct o;
    try (rewrite NewPipeline_nil_endpoints in Hok by congruence;
         discriminate).
  destruct (Z_lt_dec bufferSize 0) as [Hneg|Hpos].
  { rewrite (NewPipeline_bad_size _ _ _ _ _ _ He) in Hok by lia.
    discriminate. }
  destruct (Z_lt_dec maxChanLen bufferSize) as [Hbig|Hsmall].
  { rewrite (NewPipeline_bad_size _ _ _ _ _ _ He) in Hok by lia.
    discriminate. }
  rewrite (NewPipeline_ok _ _ _ _ _ _ He) in Hok by lia.
  inversion Hok; subst. exists e. repeat split; try reflexivity; lia.
Qed.

Lemma pipeline_objects_main (h : list Obj) (outputChan : ref)
    (bufferSize : Z) (e : Endpoints) (destinationsContext : ref) :
  (h ++ pipeline_objects (length h) outputChan bufferSize e
                         destinationsContext) !! length h =
  Some (ODestination (Main e) destinationsContext).
Proof.
  rewrite lookup_app_r by lia. rewrite Nat.sub_diag. reflexivity.
Qed.

Lemma pipeline_objects_stage (h : list Obj) (outputChan : ref)
    (bufferSize : Z) (e : Endpoints) (destinationsContext : ref)
    (i j : nat) :
  i = (length h + length (Additionals e) + S j)%nat ->
  (h ++ pipeline_objects (length h) outputChan bufferSize e
                         destinationsContext) !! i =
  stage_objects (length h) (length (Additionals e)) outputChan bufferSize e
    !! j.
Proof.
  intros ->.
  replace (length h + length (Additionals e) + S j)%nat
    with (length h + S (length (Additionals e) + j))%nat by lia.
  rewrite lookup_app_plus. unfold pipeline_objects.
  rewrite lookup_cons. cbv beta iota.
  rewrite lookup_app_r by (rewrite length_map; lia).
  rewrite length_map. f_equal. lia.
Qed.

Lemma lookup_mapped {A} (f : A -> Obj) (xs : list A) (pre post : list Obj) :
  Forall2 (fun r x => (pre ++ map f xs ++ post) !! r = Some (f x))
          (seq (length pre) (length xs)) xs.
Proof.
  revert pre. induction xs as [|x xs IH]; intros pre; cbn [length seq map].
  - constructor.
  - constructor.
    + rewrite lookup_app_r by lia. rewrite Nat.sub_diag. reflexivity.
    + specialize (IH (pre ++ [f x])).
      rewrite length_app in IH. cbn [length] in IH.
      replace (length pre + 1)%nat with (S (length pre)) in IH by lia.
      rewrite <- app_assoc in IH. exact IH.
Qed.

Lemma pipeline_objects_additionals (h : list Obj) (outputChan : ref)
    (bufferSize : Z) (e : Endpoints) (destinationsContext : ref) :
  Forall2 (fun r ep =>
             (h ++ pipeline_objects (length h) outputChan bufferSize e
                                    destinationsContext) !! r =
             Some (ODestination ep destinationsContext))
          (seq (S (length h)) (length (Additionals e))) (Additionals e).
Proof.
  pose proof (lookup_mapped
                (fun ep => ODestination ep destinationsContext)
                (Additionals e)
                (h ++ [ODestination (Main e) destinationsContext])
                (stage_objects (length h) (length (Additionals e))
                               outputChan bufferSize e)) as H.
  rewrite length_app in H. cbn [length] in H.
  replace (length h + 1)%nat with (S (length h)) in H by lia.
  rewrite <- app_assoc in H. exact H.
Qed.

(** ** Bounded queues *)

Lemma chan_step_cap (ch : Chan) (op : ChanOp) :
  chan_cap (chan_step ch op) = chan_cap ch.
Proof.
  destruct op as [m|]; cbn; unfold chan_send, chan_recv.
  - destruct (_ <? _); reflexivity.
  - destruct (chan_buf ch); reflexivity.
Qed.

Lemma chan_step_bounded (ch : Chan) (op : ChanOp) :
  Z.of_nat (length (chan_buf ch)) <= chan_cap ch ->
  Z.of_nat (length (chan_buf (chan_step ch op))) <= chan_cap ch.
Proof.
  intros Hb. destruct op as [m|]; cbn; unfold chan_send, chan_recv.
  - destruct (_ <? _) eqn:E; [|assumption].
    apply Z.ltb_lt in E. cbn. rewrite length_app. cbn. lia.
  - destruct (chan_buf ch) eqn:E; [rewrite E; assumption|].
    cbn in *. lia.
Qed.

Lemma chan_run_bounded (ops : list ChanOp) (ch : Chan) :
  Z.of_nat (length (chan_buf ch)) <= chan_cap ch ->
  chan_cap (chan_run ops ch) = chan_cap ch /\
  Z.of_nat (length (chan_buf (chan_run ops ch))) <= chan_cap ch.
Proof.
  revert ch. unfold chan_run.
  induction ops as [|op ops IH]; intros ch Hb; cbn [fold_left].
  - split; [reflexivity|assumption].
  - destruct (IH (chan_step ch op)) as [Hc Hl].
    + rewrite chan_step_cap. apply chan_step_bounded, Hb.
    + rewrite chan_step_cap in Hc, Hl. split; assumption.
Qed.

(** Sends that find room are buffered in the order they are made. *)
Lemma chan_run_sends (ms : list ref) (ch : Chan) :
  Z.of_nat (length (chan_buf ch) + length ms) <= chan_cap ch ->
  chan_run (map Send ms) ch =
  {| chan_cap := chan_cap ch; chan_buf := chan_buf ch ++ ms |}.
Proof.
  revert ch. unfold chan_run.
  induction ms as [|m ms IH]; intros ch Hroom; cbn [map fold_left].
  - rewrite app_nil_r. destruct ch; reflexivity.
  - cbn [length] in Hroom. cbn [chan_step]. unfold chan_send.
    destruct (_ <? _) eqn:E; [|apply Z.ltb_ge in E; lia].
    rewrite IH.
    + cbn [chan_cap chan_buf]. rewrite <- app_assoc. reflexivity.
    + cbn [chan_cap chan_buf]. rewrite length_app. cbn [length]. lia.
Qed.

(** ** NewAgent *)

Lemma NewAgent_ok (cfg : Config) (DefaultSleepDuration : Z)
    (sources services endpoints : ref) (w : World) :
  NewAgent cfg DefaultSleepDuration sources services endpoints w =
  Ok (length (heap w) + 9)%nat
     {| heap := heap w ++ agent_objects (length (heap w)) cfg
                                        DefaultSleepDuration sources
                                        services endpoints;
        log := log w |}.
Proof.
  destruct w as [h l]. cbn [heap log].
  unfold NewAgent, health_Register, auditor_New, NewDestinationsContext,
    NewProvider, file_NewScanner, container_NewLauncher,
    listener_NewLauncher, journald_NewLauncher, windowsevent_NewLauncher.
  unfold bind. rewrite <- (app_nil_r h) at 1.
  repeat rewrite alloc_app. cbn [length app].
  unfold agent_objects.
  replace (length h + 0)%nat with (length h) by lia.
  reflexivity.
Qed.

Lemma agent_objects_lookup (h : list Obj) (cfg : Config)
    (DefaultSleepDuration : Z) (sources services endpoints : ref) (j : nat) :
  (h ++ agent_objects (length h) cfg DefaultSleepDuration sources services
                      endpoints) !! (length h + j)%nat =
  agent_objects (length h) cfg DefaultSleepDuration sources services
                endpoints !! j.
Proof. apply lookup_app_plus. Qed.

Lemma NewAgent_sizes (cfg : Config) (DefaultSleepDuration : Z)
    (sources services endpoints : ref) (w : World) :
  exists a w',
    NewAgent cfg DefaultSleepDuration sources services endpoints w
      = Ok a w' /\
    auditor_channelSize (heap w') a
      = Some (GetInt cfg "logs_config.pipeline.buffer_size") /\
    provider_bufferSize (heap w') a
      = Some (GetInt cfg "logs_config.pipeline.buffer_size").
Proof.
  eexists _, _. split; [apply NewAgent_ok|].
  unfold auditor_channelSize, provider_bufferSize. cbn [heap].
  rewrite !agent_objects_lookup.
  change (agent_objects (length (heap w)) cfg DefaultSleepDuration sources
                        services endpoints !! 9%nat)
    with (Some (OAgent {| auditor := (length (heap w) + 1)%nat;
                          destinationsCtx := (length (heap w) + 2)%nat;
                          pipelineProvider := (length (heap w) + 3)%nat;
                          inputs := [length (heap w) + 4;
                                     length (heap w) + 5;
                                     length (heap w) + 6;
                                     length (heap w) + 7;
                                     length (heap w) + 8]%nat;
                          health := length (heap w) |})).
  cbv beta iota. cbn [auditor pipelineProvider].
  rewrite !agent_objects_lookup. split; reflexivity.
Qed.

(** ** The pipeline: claims C4 to C8 and C10 *)

(** C5.  Pipeline.Start starts the Sender before the Processor: the call
    returns, and what it adds to the log is the call of Sender.Start, its
    return, the call of Processor.Start, its return, in that order; so
    Sender.Start has returned before Processor.Start is invoked. *)
Theorem Pipeline_Start_sender_first (sched : list nat) (fuel : nat)
    (p : ref) (pl : Pipeline) (w : World) :
  heap w !! p = Some (OPipeline pl) ->
  is_component (heap w) (sender pl) = true ->
  is_component (heap w) (processor pl) = true ->
  exists w',
    Pipeline_Start (invoke sched (S fuel)) p w = Ok tt w' /\
    heap w' = record Start (record Start (heap w) (sender pl))
                     (processor pl) /\
    log w' = log w ++ [Invoke (sender pl) Start; Return (sender pl) Start;
                       Invoke (processor pl) Start;
                       Return (processor pl) Start] /\
    precedes (Return (sender pl) Start) (Invoke (processor pl) Start)
             (log w').
Proof.
  intros Hp Hs Hpr. eexists. split; [|split; [|split]].
  - unfold Pipeline_Start, load_pipeline, load.
    unfold bind at 1. unfold bind at 1. rewrite Hp. unfold ret at 1.
    unfold bind at 1. rewrite invoke_component by assumption.
    rewrite invoke_component
      by (cbn [heap]; rewrite record_is_component; assumption).
    cbn [heap log]. unfold call_events. rewrite <- app_assoc. reflexivity.
  - reflexivity.
  - reflexivity.
  - cbn [log].
    exists (log w ++ [Invoke (sender pl) Start]), [],
           [Return (processor pl) Start].
    rewrite <- app_assoc. reflexivity.
Qed.

Lemma Pipeline_Start_sender_first_witness :
  exists w',
    Pipeline_Start (invoke [] 1) 13%nat
      (world_of (NewPipeline 3%nat 10 2%nat 4%nat example_world))
      = Ok tt w' /\
    heap w' = record Start
                (record Start
                   (heap (world_of (NewPipeline 3%nat 10 2%nat 4%nat
                                                example_world)))
                   10%nat) 12%nat /\
    log w' = [] ++ [Invoke 10%nat Start; Return 10%nat Start;
                    Invoke 12%nat Start; Return 12%nat Start] /\
    precedes (Return 10%nat Start) (Invoke 12%nat Start) (log w').
Proof.
  exact (Pipeline_Start_sender_first [] 0 13%nat
           {| InputChan := 11%nat; processor := 12%nat; sender := 10%nat |}
           (world_of (NewPipeline 3%nat 10 2%nat 4%nat example_world))
           eq_refl eq_refl eq_refl).
Defined.

(** C4.  Pipeline.Stop stops the Processor before the Sender: the call
    returns, and what it adds to the log is the call of Processor.Stop,
    its return, the call of Sender.Stop, its return, in that order; so
    Processor.Stop has returned before Sender.Stop is invoked. *)
Theorem Pipeline_Stop_processor_first (sched : list nat) (fuel : nat)
    (p : ref) (pl : Pipeline) (w : World) :
  heap w !! p = Some (OPipeline pl) ->
  is_component (heap w) (sender pl) = true ->
  is_component (heap w) (processor pl) = true ->
  exists w',
    Pipeline_Stop (invoke sched (S fuel)) p w = Ok tt w' /\
    heap w' = record Stop (record Stop (heap w) (processor pl))
                     (sender pl) /\
    log w' = log w ++ [Invoke (processor pl) Stop;
                       Return (processor pl) Stop;
                       Invoke (sender pl) Stop; Return (sender pl) Stop] /\
    precedes (Return (processor pl) Stop) (Invoke (sender pl) Stop)
             (log w').
Proof.
  intros Hp Hs Hpr. eexists. split; [|split; [|split]].
  - unfold Pipeline_Stop, load_pipeline, load.
    unfold bind at 1. unfold bind at 1. rewrite Hp. unfold ret at 1.
    unfold bind at 1. rewrite invoke_component by assumption.
    rewrite invoke_component
      by (cbn [heap]; rewrite record_is_component; assumption).
    cbn [heap log]. unfold call_events. rewrite <- app_assoc. reflexivity.
  - reflexivity.
  - reflexivity.
  - cbn [log].
    exists (log w ++ [Invoke (processor pl) Stop]), [],
           [Return (sender pl) Stop].
    rewrite <- app_assoc. reflexivity.
Qed.

Lemma Pipeline_Stop_processor_first_witness :
  exists w',
    Pipeline_Stop (invoke [] 1) 13%nat
      (world_of (NewPipeline 3%nat 10 2%nat 4%nat example_world))
      = Ok tt w' /\
    heap w' = record Stop
                (record Stop
                   (heap (world_of (NewPipeline 3%nat 10 2%nat 4%nat
                                                example_world)))
                   12%nat) 10%nat /\
    log w' = [] ++ [Invoke 12%nat Stop; Return 12%nat Stop;
                    Invoke 10%nat Stop; Return 10%nat Stop] /\
    precedes (Return 12%nat Stop) (Invoke 10%nat Stop) (log w').
Proof.
  exact (Pipeline_Stop_processor_first [] 0 13%nat
           {| InputChan := 11%nat; processor := 12%nat; sender := 10%nat |}
           (world_of (NewPipeline 3%nat 10 2%nat 4%nat example_world))
           eq_refl eq_refl eq_refl).
Defined.

(** C6.  A pipeline built by NewPipeline with buffer size B has an entry
    queue and a sender queue, two distinct channels, each made empty with
    capacity exactly B; the Processor reads the first and writes the
    second, which the Sender reads; whatever sends and receives are
    attempted on such a queue, it keeps capacity B and never holds more
    than B messages, and of the messages sent while there was room a
    receive takes the oldest.  NewAgent hands the Auditor, as the size of its
    queue, the one value of logs_config.pipeline.buffer_size that it
    hands the PipelineProvider. *)
Theorem queue_capacity_is_buffer_size
    (outputChan : ref) (bufferSize : Z)
    (endpoints destinationsContext : ref) (w : World) (p : ref)
    (w' : World) (cfg : Config) (DefaultSleepDuration : Z)
    (sources services eps : ref) (wa : World) :
  NewPipeline outputChan bufferSize endpoints destinationsContext w
    = Ok p w' ->
  (exists pl sc enc,
     heap w' !! p = Some (OPipeline pl) /\
     pipeline_senderChan (heap w') p = Some sc /\
     heap w' !! processor pl
       = Some (OComponent (Processor (InputChan pl) sc enc) []) /\
     sc <> InputChan pl /\
     chan_at (heap w') (InputChan pl)
       = Some {| chan_cap := bufferSize; chan_buf := [] |} /\
     chan_at (heap w') sc
       = Some {| chan_cap := bufferSize; chan_buf := [] |} /\
     (forall ops,
        chan_cap (chan_run ops {| chan_cap := bufferSize; chan_buf := [] |})
          = bufferSize /\
        Z.of_nat (length (chan_buf
          (chan_run ops {| chan_cap := bufferSize; chan_buf := [] |})))
          <= bufferSize) /\
     forall m rest,
       Z.of_nat (length (m :: rest)) <= bufferSize ->
       chan_recv (chan_run (map Send (m :: rest))
                           {| chan_cap := bufferSize; chan_buf := [] |})
         = Some (m, {| chan_cap := bufferSize; chan_buf := rest |})) /\
  (exists a wa',
     NewAgent cfg DefaultSleepDuration sources services eps wa
       = Ok a wa' /\
     auditor_channelSize (heap wa') a
       = Some (GetInt cfg "logs_config.pipeline.buffer_size") /\
     provider_bufferSize (heap wa') a
       = Some (GetInt cfg "logs_config.pipeline.buffer_size")).
Proof.
  intros Hok. split; [|apply NewAgent_sizes].
  apply NewPipeline_inv in Hok as (e & He & Hsz & -> & ->).
  cbn [heap].
  set (n := length (heap w)). set (k := length (Additionals e)).
  exists {| InputChan := (n + k + 4)%nat; processor := (n + k + 5)%nat;
            sender := (n + k + 3)%nat |},
         (n + k + 2)%nat, (NewEncoder (UseProto (Main e))).
  unfold pipeline_senderChan, chan_at. cbn [InputChan processor sender].
  subst n k.
  rewrite (pipeline_objects_stage _ _ _ _ _ (_ + _ + 6)%nat 5) by lia.
  rewrite (pipeline_objects_stage _ _ _ _ _ (_ + _ + 5)%nat 4) by lia.
  rewrite (pipeline_objects_stage _ _ _ _ _ (_ + _ + 4)%nat 3) by lia.
  rewrite (pipeline_objects_stage _ _ _ _ _ (_ + _ + 2)%nat 1) by lia.
  cbn [stage_objects lookup list_lookup sender].
  rewrite (pipeline_objects_stage _ _ _ _ _ (_ + _ + 3)%nat 2) by lia.
  cbn [stage_objects lookup list_lookup].
  repeat split; try reflexivity; try lia.
  - apply chan_run_bounded. cbn. lia.
  - apply (chan_run_bounded ops {| chan_cap := bufferSize; chan_buf := [] |}).
    cbn. lia.
  - intros m rest Hroom. rewrite chan_run_sends by exact Hroom.
    reflexivity.
Qed.

Lemma queue_capacity_is_buffer_size_witness :
  (exists pl sc enc,
     heap (world_of (NewPipeline 3%nat 10 2%nat 4%nat example_world))
       !! 13%nat = Some (OPipeline pl) /\
     pipeline_senderChan
       (heap (world_of (NewPipeline 3%nat 10 2%nat 4%nat example_world)))
       13%nat = Some sc /\
     heap (world_of (NewPipeline 3%nat 10 2%nat 4%nat example_world))
       !! processor pl
       = Some (OComponent (Processor (InputChan pl) sc enc) []) /\
     sc <> InputChan pl /\
     chan_at (heap (world_of (NewPipeline 3%nat 10 2%nat 4%nat
                                          example_world)))
             (InputChan pl)
       = Some {| chan_cap := 10; chan_buf := [] |} /\
     chan_at (heap (world_of (NewPipeline 3%nat 10 2%nat 4%nat
                                          example_world))) sc
       = Some {| chan_cap := 10; chan_buf := [] |} /\
     (forall ops,
        chan_cap (chan_run ops {| chan_cap := 10; chan_buf := [] |}) = 10 /\
        Z.of_nat (length (chan_buf
          (chan_run ops {| chan_cap := 10; chan_buf := [] |}))) <= 10) /\
     forall m rest,
       Z.of_nat (length (m :: rest)) <= 10 ->
       chan_recv (chan_run (map Send (m :: rest))
                           {| chan_cap := 10; chan_buf := [] |})
         = Some (m, {| chan_cap := 10; chan_buf := rest |})) /\
  (exists a wa',
     NewAgent example_config 1 0%nat 1%nat 2%nat example_world
       = Ok a wa' /\
     auditor_channelSize (heap wa') a
       = Some (GetInt example_config "logs_config.pipeline.buffer_size") /\
     provider_bufferSize (heap wa') a
       = Some (GetInt example_config "logs_config.pipeline.buffer_size")).
Proof.
  exact (queue_capacity_is_buffer_size 3%nat 10 2%nat 4%nat example_world
           13%nat
           (world_of (NewPipeline 3%nat 10 2%nat 4%nat example_world))
           example_config 1 0%nat 1%nat 2%nat example_world eq_refl).
Defined.

(** C7.  The Destinations of a pipeline built by NewPipeline hold one main
    Destination, built from endpoints.Main, and one additional Destination
    per entry of endpoints.Additionals, in the same order and each a
    Destination of its own; every one of them references the
    DestinationsContext that NewPipeline was given. *)
Theorem NewPipeline_destinations
    (outputChan : ref) (bufferSize : Z)
    (endpoints destinationsContext : ref) (w : World) (p : ref)
    (w' : World) :
  NewPipeline outputChan bufferSize endpoints destinationsContext w
    = Ok p w' ->
  exists e pl sc d main additionals,
    heap w !! endpoints = Some (OEndpoints e) /\
    heap w' !! p = Some (OPipeline pl) /\
    heap w' !! sender pl
      = Some (OComponent (Sender sc outputChan d) []) /\
    heap w' !! d = Some (ODestinations main additionals) /\
    heap w' !! main
      = Some (ODestination (Main e) destinationsContext) /\
    Forall2 (fun r ep =>
               heap w' !! r = Some (ODestination ep destinationsContext))
            additionals (Additionals e) /\
    NoDup (main :: additionals).
Proof.
  intros Hok.
  apply NewPipeline_inv in Hok as (e & He & Hsz & -> & ->).
  cbn [heap].
  set (n := length (heap w)). set (k := length (Additionals e)).
  exists e,
         {| InputChan := (n + k + 4)%nat; processor := (n + k + 5)%nat;
            sender := (n + k + 3)%nat |},
         (n + k + 2)%nat, (n + k + 1)%nat, n, (seq (S n) k).
  cbn [sender]. subst n k.
  rewrite (pipeline_objects_stage _ _ _ _ _ (_ + _ + 6)%nat 5) by lia.
  rewrite (pipeline_objects_stage _ _ _ _ _ (_ + _ + 3)%nat 2) by lia.
  rewrite (pipeline_objects_stage _ _ _ _ _ (_ + _ + 1)%nat 0) by lia.
  repeat split; try reflexivity.
  - assumption.
  - apply pipeline_objects_main.
  - apply pipeline_objects_additionals.
  - change (NoDup (seq (length (heap w)) (S (length (Additionals e))))).
    apply NoDup_seq.
Qed.

Lemma NewPipeline_destinations_witness :
  exists e pl sc d main additionals,
    heap example_world !! 2%nat = Some (OEndpoints e) /\
    heap (world_of (NewPipeline 3%nat 10 2%nat 4%nat example_world))
      !! 13%nat = Some (OPipeline pl) /\
    heap (world_of (NewPipeline 3%nat 10 2%nat 4%nat example_world))
      !! sender pl = Some (OComponent (Sender sc 3%nat d) []) /\
    heap (world_of (NewPipeline 3%nat 10 2%nat 4%nat example_world))
      !! d = Some (ODestinations main additionals) /\
    heap (world_of (NewPipeline 3%nat 10 2%nat 4%nat example_world))
      !! main = Some (ODestination (Main e) 4%nat) /\
    Forall2 (fun r ep =>
               heap (world_of (NewPipeline 3%nat 10 2%nat 4%nat
                                           example_world)) !! r
               = Some (ODestination ep 4%nat))
            additionals (Additionals e) /\
    NoDup (main :: additionals).
Proof.
  exact (NewPipeline_destinations 3%nat 10 2%nat 4%nat example_world 13%nat
           (world_of (NewPipeline 3%nat 10 2%nat 4%nat example_world))
           eq_refl).
Defined.

(** C8.  The encoder of the Processor that NewPipeline builds is
    NewEncoder applied to endpoints.Main.UseProto; hence two calls of
    NewPipeline whose main endpoints carry the same flag build the same
    encoder, whatever their additional endpoints, buffer sizes, contexts
    and stores are. *)
Theorem NewPipeline_encoder_from_main
    (outputChan : ref) (bufferSize : Z)
    (endpoints destinationsContext : ref) (w : World) (p : ref)
    (w' : World) (e : Endpoints) :
  NewPipeline outputChan bufferSize endpoints destinationsContext w
    = Ok p w' ->
  heap w !! endpoints = Some (OEndpoints e) ->
  pipeline_encoder (heap w') p = Some (NewEncoder (UseProto (Main e))) /\
  forall outputChan2 bufferSize2 endpoints2 destinationsContext2 w2 p2 w2'
         e2,
    NewPipeline outputChan2 bufferSize2 endpoints2 destinationsContext2 w2
      = Ok p2 w2' ->
    heap w2 !! endpoints2 = Some (OEndpoints e2) ->
    UseProto (Main e2) = UseProto (Main e) ->
    pipeline_encoder (heap w2') p2 = pipeline_encoder (heap w') p.
Proof.
  assert (Henc : forall oc bs eps dc v q v' x,
             NewPipeline oc bs eps dc v = Ok q v' ->
             heap v !! eps = Some (OEndpoints x) ->
             pipeline_encoder (heap v') q
               = Some (NewEncoder (UseProto (Main x)))).
  { intros oc bs eps dc v q v' x Hok Hx.
    apply NewPipeline_inv in Hok as (x' & Hx' & Hsz & -> & ->).
    rewrite Hx in Hx'. inversion Hx'; subst x'. clear Hx'.
    unfold pipeline_encoder. cbn [heap].
    rewrite (pipeline_objects_stage _ _ _ _ _ (_ + _ + 6)%nat 5) by lia.
    cbn [stage_objects lookup list_lookup processor].
    rewrite (pipeline_objects_stage _ _ _ _ _ (_ + _ + 5)%nat 4) by lia.
    reflexivity. }
  intros Hok He. split.
  - eapply Henc; eassumption.
  - intros oc2 bs2 eps2 dc2 w2 p2 w2' e2 Hok2 He2 Hflag.
    rewrite (Henc _ _ _ _ _ _ _ _ Hok2 He2).
    rewrite (Henc _ _ _ _ _ _ _ _ Hok He).
    rewrite Hflag. reflexivity.
Qed.

Lemma NewPipeline_encoder_from_main_witness :
  pipeline_encoder
    (heap (world_of (NewPipeline 3%nat 10 2%nat 4%nat example_world)))
    13%nat
    = Some (NewEncoder (UseProto (Main example_endpoints))) /\
  forall outputChan2 bufferSize2 endpoints2 destinationsContext2 w2 p2 w2'
         e2,
    NewPipeline outputChan2 bufferSize2 endpoints2 destinationsContext2 w2
      = Ok p2 w2' ->
    heap w2 !! endpoints2 = Some (OEndpoints e2) ->
    UseProto (Main e2) = UseProto (Main example_endpoints) ->
    pipeline_encoder (heap w2') p2
    = pipeline_encoder
        (heap (world_of (NewPipeline 3%nat 10 2%nat 4%nat example_world)))
        13%nat.
Proof.
  exact (NewPipeline_encoder_from_main 3%nat 10 2%nat 4%nat example_world
           13%nat
           (world_of (NewPipeline 3%nat 10 2%nat 4%nat example_world))
           example_endpoints eq_refl eq_refl).
Defined.

(** C10.  NewPipeline does not check its bufferSize.  With endpoints in
    place, every negative bufferSize makes the allocation of the sender
    queue panic; bufferSize 0 is accepted and gives a pipeline whose
    entry queue and sender queue both have capacity 0, queues on which
    no send is ever buffered. *)
Theorem NewPipeline_bufferSize_unchecked
    (outputChan : ref) (bufferSize : Z)
    (endpoints destinationsContext : ref) (w : World) (e : Endpoints) :
  heap w !! endpoints = Some (OEndpoints e) ->
  (bufferSize < 0 ->
   NewPipeline outputChan bufferSize endpoints destinationsContext w
     = Panic makechan_msg) /\
  (bufferSize = 0 ->
   exists p w' pl sc,
     NewPipeline outputChan bufferSize endpoints destinationsContext w
       = Ok p w' /\
     heap w' !! p = Some (OPipeline pl) /\
     pipeline_senderChan (heap w') p = Some sc /\
     chan_at (heap w') (InputChan pl)
       = Some {| chan_cap := 0; chan_buf := [] |} /\
     chan_at (heap w') sc = Some {| chan_cap := 0; chan_buf := [] |} /\
     forall ops m,
       chan_send m (chan_run ops {| chan_cap := 0; chan_buf := [] |})
         = None).
Proof.
  intros He. split.
  - intros Hneg. eapply NewPipeline_bad_size; [eassumption|lia].
  - intros ->.
    assert (Hrange : 0 <= 0 <= maxChanLen)
      by (vm_compute; split; discriminate).
    pose proof (NewPipeline_ok outputChan 0 endpoints destinationsContext
                               w e He Hrange) as Hok.
    eexists _, _,
      {| InputChan := (length (heap w) + length (Additionals e) + 4)%nat;
         processor := (length (heap w) + length (Additionals e) + 5)%nat;
         sender := (length (heap w) + length (Additionals e) + 3)%nat |},
      (length (heap w) + length (Additionals e) + 2)%nat.
    split; [exact Hok|].
    unfold pipeline_senderChan, chan_at. cbn [heap InputChan].
    rewrite (pipeline_objects_stage _ _ _ _ _ (_ + _ + 6)%nat 5) by lia.
    rewrite (pipeline_objects_stage _ _ _ _ _ (_ + _ + 4)%nat 3) by lia.
    rewrite (pipeline_objects_stage _ _ _ _ _ (_ + _ + 2)%nat 1) by lia.
    cbn [stage_objects lookup list_lookup sender].
    rewrite (pipeline_objects_stage _ _ _ _ _ (_ + _ + 3)%nat 2) by lia.
    cbn [stage_objects lookup list_lookup].
    repeat split; try reflexivity.
    intros ops m.
    destruct (chan_run_bounded ops {| chan_cap := 0; chan_buf := [] |})
      as [Hcap Hlen]; [cbn; lia|].
    unfold chan_send. rewrite Hcap. cbn [chan_cap] in *.
    destruct (_ <? _) eqn:E; [|reflexivity].
    apply Z.ltb_lt in E. lia.
Qed.

Lemma NewPipeline_bufferSize_unchecked_witness :
  NewPipeline 3%nat (-1) 2%nat 4%nat example_world = Panic makechan_msg /\
  exists p w' pl sc,
    NewPipeline 3%nat 0 2%nat 4%nat example_world = Ok p w' /\
    heap w' !! p = Some (OPipeline pl) /\
    pipeline_senderChan (heap w') p = Some sc /\
    chan_at (heap w') (InputChan pl)
      = Some {| chan_cap := 0; chan_buf := [] |} /\
    chan_at (heap w') sc = Some {| chan_cap := 0; chan_buf := [] |} /\
    forall ops m,
      chan_send m (chan_run ops {| chan_cap := 0; chan_buf := [] |}) = None.
Proof.
  split.
  - apply (NewPipeline_bufferSize_unchecked 3%nat (-1) 2%nat 4%nat
             example_world example_endpoints eq_refl).
    lia.
  - apply (NewPipeline_bufferSize_unchecked 3%nat 0 2%nat 4%nat
             example_world example_endpoints eq_refl).
    reflexivity.
Defined.

(** ** The race *)

Lemma worker_events_app (l l' : list Event) :
  worker_events (l ++ l') = worker_events l ++ worker_events l'.
Proof.
  induction l as [|e l IH]; [reflexivity|].
  destruct e; cbn; rewrite IH; reflexivity.
Qed.

Lemma main_events_app (l l' : list Event) :
  main_events (l ++ l') = main_events l ++ main_events l'.
Proof.
  induction l as [|e l IH]; [reflexivity|].
  destruct e; cbn; rewrite IH; reflexivity.
Qed.

Lemma worker_events_Worker (l : list Event) :
  worker_events (map Worker l) = l.
Proof.
  induction l as [|e l IH]; [reflexivity|]. cbn. rewrite IH. reflexivity.
Qed.

(** Closes one conjunct of the invariant after a step. *)
Ltac inv_atom :=
  cbn in *; intros;
  repeat match goal with
         | H : andb _ _ = true |- _ => apply andb_prop in H as [? ?]
         | H : (_ <=? _) = true |- _ => apply Z.leb_le in H
         | H : (_ <? _) = true |- _ => apply Z.ltb_lt in H
         | H : Some _ = Some _ |- _ => inversion H; subst; clear H
         | H : negb _ = true |- _ => apply negb_true_iff in H
         | H : true = true -> _ |- _ => specialize (H eq_refl)
         | H : main_events _ = _ |- _ => rewrite H
         end;
  try rewrite <- app_assoc;
  rewrite ?app_nil_r in *;
  first
    [ assumption | reflexivity | discriminate | lia | congruence
    | match goal with
      | Hf : ?fr = true -> exists d, _, H : ?fr = true |- exists d, _ =>
          destruct (Hf H) as (?d & ? & ?); eexists; split;
          [eassumption | lia]
      end
    | match goal with
      | Hf : ?fr = true -> exists d, _, H : ?fr = true |- _ =>
          destruct (Hf H) as (?d & ? & ?); discriminate
      end
    | eexists; split; [reflexivity | lia]
    | eauto ].

Section RaceFacts.

Variables (c ctx : ref) (timeout : Z) (evs : list Event).

Local Abbreviation inv := (race_inv c ctx timeout evs).
Local Abbreviation run := (exec c ctx timeout).
Local Abbreviation next := (step c ctx timeout).

Lemma race_init_inv : inv (race_init evs).
Proof.
  unfold race_inv, race_init. cbn.
  rewrite app_nil_r. repeat split; try discriminate; try lia.
Qed.

Lemma step_returned (s : Race) (ch : Choice) :
  pc s = PcReturned -> next s ch = s.
Proof. intros H. unfold step. rewrite H. reflexivity. Qed.

Lemma exec_returned (sched : list Choice) (s : Race) :
  pc s = PcReturned -> run sched s = s.
Proof.
  revert s. induction sched as [|ch sched IH]; intros s H.
  - reflexivity.
  - cbn. rewrite step_returned by assumption. apply IH, H.
Qed.

Lemma exec_app (sched sched' : list Choice) (s : Race) :
  run (sched ++ sched') s = run sched' (run sched s).
Proof. unfold exec. apply fold_left_app. Qed.

(** Every step keeps the invariant. *)
Lemma step_inv (s : Race) (ch : Choice) : inv s -> inv (next s ch).
Proof.
  destruct s as [clk pend cl dl fr to p tr].
  unfold race_inv. cbn.
  intros (Hw & Hcl & Hclk & Hdl & Hfr & Hto & Hpc).
  destruct ch as [d| | |coin]; destruct p; cbn;
    unfold step_worker, step_timer, step_main, say, set_pc,
      take_timer_case; cbn;
    repeat case_match; cbn;
    rewrite ?worker_events_app, ?main_events_app; cbn;
    destruct_and?; subst;
    repeat split; inv_atom.
Qed.

Lemma exec_inv (sched : list Choice) (s : Race) :
  inv s -> inv (run sched s).
Proof.
  revert s. induction sched as [|ch sched IH]; intros s Hs.
  - exact Hs.
  - cbn. apply IH, step_inv, Hs.
Qed.

(** The timeout branch, once taken, stays taken. *)
Lemma step_timed_out (s : Race) (ch : Choice) :
  timed_out s = true -> timed_out (next s ch) = true.
Proof.
  destruct s as [clk pend cl dl fr to p tr]. cbn. intros ->.
  destruct ch as [d| | |coin]; destruct p; cbn;
    unfold step_worker, step_timer, step_main, say, set_pc,
      take_timer_case; cbn;
    repeat case_match; reflexivity.
Qed.

Lemma exec_timed_out (sched : list Choice) (s : Race) :
  timed_out s = true -> timed_out (run sched s) = true.
Proof.
  revert s. induction sched as [|ch sched IH]; intros s Hs.
  - exact Hs.
  - cbn. apply IH, step_timed_out, Hs.
Qed.




Lemma worker_events_In (e : Event) (l : list Event) :
  In e (worker_events l) -> In (Worker e) l.
Proof.
  induction l as [|x l IH]; [intros []|].
  destruct x; cbn; intros H; try (right; apply IH, H).
  destruct H as [->|H]; [left; reflexivity|right; apply IH, H].
Qed.

(** What holds when Stop has returned. *)
Lemma returned_facts (s : Race) :
  inv s -> pc s = PcReturned ->
  worker_events (trace s) = evs ++ [CloseChan c] /\
  In (Worker (CloseChan c)) (trace s) /\
  main_events (trace s)
    = (if timed_out s then forced_events ctx else []) /\
  (timed_out s = true ->
   exists d, deadline s = Some d /\ timeout <= d /\ d <= clock s).
Proof.
  destruct s as [clk pend cl dl fr to p tr].
  unfold race_inv. cbn.
  intros (Hw & Hcl & Hclk & Hdl & Hfr & Hto & Hpc) ->.
  destruct Hpc as (-> & Hmain).
  rewrite (Hcl eq_refl), app_nil_r in Hw.
  repeat split.
  - exact Hw.
  - apply worker_events_In. rewrite Hw. apply in_or_app. right.
    left. reflexivity.
  - exact Hmain.
  - intros Ht. destruct (Hfr (Hto Ht)) as (d & Hd & Hle).
    exists d. repeat split; [exact Hd|apply Hdl, Hd|exact Hle].
Qed.

(** With [c] closed, the calling goroutine returns within six of its
    own steps. *)
Lemma main_finishes (s : Race) :
  inv s -> c_closed s = true ->
  pc (run (repeat (RunMain true) 6) s) = PcReturned.
Proof.
  destruct s as [clk pend cl dl fr to p tr].
  unfold race_inv. cbn.
  intros (_ & _ & _ & _ & _ & _ & Hpc) ->.
  destruct p, fr; cbn; try reflexivity; destruct_and?; discriminate.
Qed.

Lemma worker_closes (s : Race) :
  pending s = [] -> pc s <> PcReturned ->
  c_closed (next s RunWorker) = true.
Proof.
  destruct s as [clk pend cl dl fr to p tr]. cbn. intros -> Hp.
  destruct p; try congruence; cbn; unfold step_worker; cbn;
    destruct cl; reflexivity.
Qed.

Lemma worker_advances (s : Race) (e : Event) (rest : list Event) :
  pending s = e :: rest -> pc s <> PcReturned ->
  pending (next s RunWorker) = rest.
Proof.
  destruct s as [clk pend cl dl fr to p tr]. cbn. intros -> Hp.
  destruct p; try congruence; reflexivity.
Qed.

Lemma pc_eq_dec (p q : Pc) : {p = q} + {p <> q}.
Proof. decide equality. Qed.

(** From any state of the race, letting the goroutine finish and then
    the calling goroutine run makes Stop return. *)
Lemma can_finish (s : Race) :
  inv s -> pc (run (finishing s) s) = PcReturned.
Proof.
  unfold finishing.
  remember (length (pending s)) as n eqn:Hn.
  revert s Hn. induction n as [|n IH]; intros s Hn Hs.
  - destruct (pc_eq_dec (pc s) PcReturned) as [Hr|Hr].
    { rewrite exec_returned by assumption. assumption. }
    cbn [repeat app]. cbn [exec fold_left].
    apply main_finishes; [apply step_inv, Hs|].
    apply worker_closes; [|assumption].
    destruct (pending s); [reflexivity|discriminate].
  - destruct (pc_eq_dec (pc s) PcReturned) as [Hr|Hr].
    { rewrite exec_returned by assumption. assumption. }
    destruct (pending s) as [|e rest] eqn:Hp; [discriminate|].
    change (repeat RunWorker (S (S n)))
      with (RunWorker :: repeat RunWorker (S n)).
    cbn [app exec fold_left].
    apply IH; [|apply step_inv, Hs].
    rewrite (worker_advances s e rest) by assumption.
    cbn in Hn. congruence.
Qed.

End RaceFacts.

(** ** The orchestrators on components *)

Lemma is_component_app (h L : list Obj) (r : ref) :
  is_component h r = true -> is_component (h ++ L) r = true.
Proof.
  unfold is_component. destruct (h !! r) as [o|] eqn:Hr; [|discriminate].
  rewrite (lookup_app_l_Some _ _ _ _ Hr). trivial.
Qed.

Lemma components_app (h L : list Obj) (rs : list ref) :
  forallb (is_component h) rs = true ->
  forallb (is_component (h ++ L)) rs = true.
Proof.
  rewrite !forallb_forall. intros H r Hr. apply is_component_app, H, Hr.
Qed.

Lemma records_is_component (m : Method) (rs : list ref) (h : list Obj)
    (r : ref) :
  is_component (fold_left (record m) rs h) r = is_component h r.
Proof.
  revert h. induction rs as [|x rs IH]; intros h; cbn; [reflexivity|].
  rewrite IH. apply record_is_component.
Qed.

Lemma components_records (m : Method) (rs : list ref) (h : list Obj)
    (cs : list ref) :
  forallb (is_component h) cs = true ->
  forallb (is_component (fold_left (record m) rs h)) cs = true.
Proof.
  rewrite !forallb_forall. intros H r Hr.
  rewrite records_is_component. apply H, Hr.
Qed.

Lemma insert_last (h : list Obj) (o o' : Obj) :
  <[length h := o']> (h ++ [o]) = h ++ [o'].
Proof.
  replace (length h) with (length h + 0)%nat by lia.
  rewrite insert_app_r. reflexivity.
Qed.

Lemma for_each_Starter_Add (s : ref) (rs cs : list ref) (w : World) :
  heap w !! s = Some (OStarter cs) ->
  for_each rs (fun input => Starter_Add s input) w =
  Ok tt {| heap := <[s := OStarter (cs ++ rs)]> (heap w); log := log w |}.
Proof.
  revert cs w. induction rs as [|r rs IH]; intros cs w Hs.
  - cbn. unfold ret. rewrite app_nil_r, list_insert_id by assumption.
    destruct w; reflexivity.
  - cbn [for_each]. unfold bind at 1. unfold Starter_Add at 1.
    unfold bind at 1. unfold load. rewrite Hs. unfold store.
    rewrite (IH (cs ++ [r])).
    + cbn [heap log]. rewrite list_insert_insert_eq, <- app_assoc.
      reflexivity.
    + cbn [heap]. apply list_lookup_insert_eq.
      eapply lookup_lt_Some, Hs.
Qed.

Lemma for_each_ParallelStopper_Add (s : ref) (rs cs : list ref)
    (w : World) :
  heap w !! s = Some (OParallelStopper cs) ->
  for_each rs (fun input => ParallelStopper_Add s input) w =
  Ok tt {| heap := <[s := OParallelStopper (cs ++ rs)]> (heap w);
           log := log w |}.
Proof.
  revert cs w. induction rs as [|r rs IH]; intros cs w Hs.
  - cbn. unfold ret. rewrite app_nil_r, list_insert_id by assumption.
    destruct w; reflexivity.
  - cbn [for_each]. unfold bind at 1. unfold ParallelStopper_Add at 1.
    unfold bind at 1. unfold load. rewrite Hs. unfold store.
    rewrite (IH (cs ++ [r])).
    + cbn [heap log]. rewrite list_insert_insert_eq, <- app_assoc.
      reflexivity.
    + cbn [heap]. apply list_lookup_insert_eq.
      eapply lookup_lt_Some, Hs.
Qed.

Lemma invoke_Starter (sched : list nat) (fuel : nat) (s : ref)
    (cs : list ref) (w : World) :
  heap w !! s = Some (OStarter cs) ->
  forallb (is_component (heap w)) cs = true ->
  invoke sched (S (S fuel)) s Start w =
  Ok tt {| heap := fold_left (record Start) cs (heap w);
           log := log w ++ Invoke s Start
                  :: flat_map (call_events Start) cs
                  ++ [Return s Start] |}.
Proof.
  intros Hs Hcs.
  change (invoke sched (S (S fuel)) s Start)
    with (o <- load s ;;
          emit (Invoke s Start) ;;
          match o, Start with
          | OComponent k calls, _ => store s (OComponent k (calls ++ [Start]))
          | OPipeline _, Start => Pipeline_Start (invoke sched (S fuel)) s
          | OPipeline _, Stop => Pipeline_Stop (invoke sched (S fuel)) s
          | OStarter _, Start => Starter_Start (invoke sched (S fuel)) s
          | OParallelStopper _, Stop =>
              ParallelStopper_Stop sched (invoke sched (S fuel)) s
          | OSerialStopper _, Stop =>
              SerialStopper_Stop (invoke sched (S fuel)) s
          | _, _ => panic no_method
          end ;;
          emit (Return s Start)).
  unfold bind at 1. unfold load at 1. rewrite Hs.
  unfold bind at 1. unfold emit at 1.
  unfold bind at 1. unfold Starter_Start, bind at 1, load.
  cbn [heap log]. rewrite Hs.
  rewrite for_each_invoke by assumption.
  unfold emit. cbn [heap log].
  rewrite <- !app_assoc. reflexivity.
Qed.

Lemma isolate_component (sched : list nat) (fuel : nat) (r : ref)
    (m : Method) (w : World) :
  is_component (heap w) r = true ->
  isolate (invoke sched (S fuel) r m) w =
  Ok (call_events m r) {| heap := record m (heap w) r; log := log w |}.
Proof.
  intros Hc. unfold isolate.
  rewrite invoke_component by assumption. reflexivity.
Qed.

Lemma foldM_isolate (sched : list nat) (fuel : nat) (cs : list ref)
    (acc : list (list Event)) (w : World) :
  forallb (is_component (heap w)) cs = true ->
  foldM (fun segs t => seg <- isolate t ;; ret (segs ++ [seg]))
        (map (fun r => invoke sched (S fuel) r Stop) cs) acc w =
  Ok (acc ++ map (call_events Stop) cs)
     {| heap := fold_left (record Stop) cs (heap w); log := log w |}.
Proof.
  revert acc w. induction cs as [|r cs IH]; intros acc w Hall.
  - cbn. unfold ret. rewrite app_nil_r. destruct w; reflexivity.
  - cbn [forallb] in Hall. apply andb_prop in Hall as [Hr Hrs].
    cbn [map foldM]. unfold bind at 1. unfold bind at 1.
    rewrite isolate_component by assumption. unfold ret at 1.
    rewrite IH.
    + cbn [heap log fold_left map]. rewrite <- app_assoc. reflexivity.
    + cbn [heap]. rewrite forallb_forall in *. intros x Hx.
      rewrite record_is_component. apply Hrs, Hx.
Qed.

Lemma invoke_ParallelStopper (sched : list nat) (fuel : nat) (s : ref)
    (cs : list ref) (w : World) :
  heap w !! s = Some (OParallelStopper cs) ->
  forallb (is_component (heap w)) cs = true ->
  invoke sched (S (S fuel)) s Stop w =
  Ok tt {| heap := fold_left (record Stop) cs (heap w);
           log := log w ++ Invoke s Stop
                  :: interleave
                       (length (concat (map (call_events Stop) cs))) sched
                       (map (call_events Stop) cs)
                  ++ [Return s Stop] |}.
Proof.
  intros Hs Hcs.
  change (invoke sched (S (S fuel)) s Stop)
    with (o <- load s ;;
          emit (Invoke s Stop) ;;
          match o, Stop with
          | OComponent k calls, _ => store s (OComponent k (calls ++ [Stop]))
          | OPipeline _, Start => Pipeline_Start (invoke sched (S fuel)) s
          | OPipeline _, Stop => Pipeline_Stop (invoke sched (S fuel)) s
          | OStarter _, Start => Starter_Start (invoke sched (S fuel)) s
          | OParallelStopper _, Stop =>
              ParallelStopper_Stop sched (invoke sched (S fuel)) s
          | OSerialStopper _, Stop =>
              SerialStopper_Stop (invoke sched (S fuel)) s
          | _, _ => panic no_method
          end ;;
          emit (Return s Stop)).
  unfold bind at 1. unfold load at 1. rewrite Hs.
  unfold bind at 1. unfold emit at 1.
  unfold bind at 1. unfold ParallelStopper_Stop, bind at 1, load.
  cbn [heap log]. rewrite Hs.
  unfold parallel, bind at 1.
  rewrite foldM_isolate by assumption.
  unfold emit_all, emit. cbn [heap log app].
  rewrite <- !app_assoc. reflexivity.
Qed.


Lemma invoke_SerialStopper (sched : list nat) (fuel : nat) (s par : ref)
    (ins stages : list ref) (w : World) :
  heap w !! s = Some (OSerialStopper (par :: stages)) ->
  heap w !! par = Some (OParallelStopper ins) ->
  forallb (is_component (heap w)) ins = true ->
  forallb (is_component (heap w)) stages = true ->
  invoke sched (S (S (S fuel))) s Stop w =
  Ok tt {| heap := fold_left (record Stop) (ins ++ stages) (heap w);
           log := log w ++ Invoke s Stop
                  :: (Invoke par Stop
                      :: interleave
                           (length (concat (map (call_events Stop) ins)))
                           sched (map (call_events Stop) ins)
                      ++ [Return par Stop])
                  ++ flat_map (call_events Stop) stages
                  ++ [Return s Stop] |}.
Proof.
  intros Hs Hpar Hins Hstages.
  change (invoke sched (S (S (S fuel))) s Stop)
    with (o <- load s ;;
          emit (Invoke s Stop) ;;
          match o, Stop with
          | OComponent k calls, _ => store s (OComponent k (calls ++ [Stop]))
          | OPipeline _, Start =>
              Pipeline_Start (invoke sched (S (S fuel))) s
          | OPipeline _, Stop => Pipeline_Stop (invoke sched (S (S fuel))) s
          | OStarter _, Start => Starter_Start (invoke sched (S (S fuel))) s
          | OParallelStopper _, Stop =>
              ParallelStopper_Stop sched (invoke sched (S (S fuel))) s
          | OSerialStopper _, Stop =>
              SerialStopper_Stop (invoke sched (S (S fuel))) s
          | _, _ => panic no_method
          end ;;
          emit (Return s Stop)).
  unfold bind at 1. unfold load at 1. rewrite Hs.
  unfold bind at 1. unfold emit at 1.
  unfold bind at 1. unfold SerialStopper_Stop, bind at 1, load.
  cbn [heap log]. rewrite Hs.
  cbn [for_each]. unfold bind at 1.
  rewrite (invoke_ParallelStopper sched fuel par ins) by assumption.
  rewrite for_each_invoke
    by (cbn [heap]; apply components_records; assumption).
  unfold emit. cbn [heap log].
  rewrite fold_left_app, <- !app_assoc. cbn [app].
  rewrite <- !app_assoc. reflexivity.
Qed.

Lemma forced_stop_component (r : ref) (w : World) :
  is_component (heap w) r = true ->
  forced_stop r w = Ok tt {| heap := record Stop (heap w) r; log := log w |}.
Proof.
  intros Hc. apply is_component_spec in Hc as (k & calls & Hr).
  unfold forced_stop, bind, load, component_call, store, record.
  rewrite Hr. reflexivity.
Qed.

Lemma close_chan_open (c : ref) (cap : Z) (buf : list ref) (cl : bool)
    (w : World) :
  heap w !! c = Some (OChan cap buf cl) ->
  close_chan c w =
  Ok tt {| heap := <[c := OChan cap buf true]> (heap w); log := log w |}.
Proof.
  intros Hc. unfold close_chan, bind, load, store. rewrite Hc. reflexivity.
Qed.

(** Agent.Start on an agent whose fields point to components. *)
Lemma Agent_Start_eq (sched : list nat) (fuel : nat) (a : ref) (ag : Agent)
    (w : World) :
  heap w !! a = Some (OAgent ag) ->
  forallb (is_component (heap w)) (agent_components ag) = true ->
  Agent_Start sched (S (S fuel)) a w =
  Ok tt {| heap := fold_left (record Start) (agent_components ag)
                     (heap w ++ [OStarter (agent_components ag)]);
           log := log w ++ Invoke (length (heap w)) Start
                  :: flat_map (call_events Start) (agent_components ag)
                  ++ [Return (length (heap w)) Start] |}.
Proof.
  intros Ha Hcs. destruct w as [h l]. cbn [heap log] in *.
  unfold Agent_Start, load_agent.
  unfold bind at 1. unfold bind at 1. unfold load. cbn [heap].
  rewrite Ha. unfold ret at 1.
  unfold bind at 1. unfold NewStarter, alloc. cbn [heap log].
  unfold bind at 1.
  rewrite (for_each_Starter_Add _ _
             [destinationsCtx ag; auditor ag; pipelineProvider ag])
    by (cbn [heap]; rewrite lookup_app_r by lia;
        rewrite Nat.sub_diag; reflexivity).
  cbn [heap log]. rewrite insert_last.
  change ([destinationsCtx ag; auditor ag; pipelineProvider ag] ++ inputs ag)
    with (agent_components ag).
  rewrite (invoke_Starter sched fuel (length h) (agent_components ag)).
  - reflexivity.
  - cbn [heap]. rewrite lookup_app_r by lia.
    rewrite Nat.sub_diag. reflexivity.
  - cbn [heap]. apply components_app, Hcs.
Qed.


(** Agent.Stop on an agent whose fields point to components: it returns
    exactly when the schedule lets the race reach the end of Stop. *)
Lemma Agent_Stop_eq (cfg : Config) (sched : list nat) (fuel : nat)
    (rsched : list Choice) (a : ref) (ag : Agent) (w : World) :
  heap w !! a = Some (OAgent ag) ->
  forallb (is_component (heap w)) (agent_components ag) = true ->
  Agent_Stop cfg sched (S (S (S fuel))) rsched a w =
  match pc (exec (length (heap w) + 2)%nat (destinationsCtx ag)
                 (stop_timeout cfg) rsched
                 (race_init (stop_events sched (length (heap w)) ag))) with
  | PcReturned =>
      Ok tt {| heap := stopped_heap
                         (timed_out
                            (exec (length (heap w) + 2)%nat
                                  (destinationsCtx ag) (stop_timeout cfg)
                                  rsched
                                  (race_init
                                     (stop_events sched (length (heap w))
                                                  ag))))
                         (length (heap w)) ag (heap w);
               log := log w
                      ++ trace (exec (length (heap w) + 2)%nat
                                     (destinationsCtx ag) (stop_timeout cfg)
                                     rsched
                                     (race_init
                                        (stop_events sched (length (heap w))
                                                     ag))) |}
  | _ => NoResult
  end.
Proof.
  intros Ha Hcs. destruct w as [h l]. cbn [heap log] in *.
  cbn [agent_components forallb] in Hcs.
  apply andb_prop in Hcs as [Hctx Hcs].
  apply andb_prop in Hcs as [Haud Hcs].
  apply andb_prop in Hcs as [Hprov Hins].
  unfold Agent_Stop, load_agent.
  unfold bind at 1. unfold bind at 1. unfold load. cbn [heap].
  rewrite Ha. unfold ret at 1.
  unfold bind at 1. unfold NewParallelStopper, alloc. cbn [heap log].
  unfold bind at 1.
  rewrite (for_each_ParallelStopper_Add _ _ [])
    by (cbn [heap]; rewrite lookup_app_r by lia;
        rewrite Nat.sub_diag; reflexivity).
  cbn [heap log app]. rewrite insert_last.
  unfold bind at 1. unfold NewSerialStopper. rewrite alloc_app.
  unfold bind at 1.
  rewrite (makechan_in_range 0) by (vm_compute; split; discriminate).
  rewrite alloc_app. cbn [length app].
  change [OParallelStopper (inputs ag);
          OSerialStopper [length h; pipelineProvider ag; auditor ag;
                          destinationsCtx ag];
          OChan 0 [] false]
    with (stop_objects (length h) ag).
  set (h3 := h ++ stop_objects (length h) ag).
  assert (Hpar : h3 !! length h = Some (OParallelStopper (inputs ag))).
  { subst h3. rewrite lookup_app_r by lia. rewrite Nat.sub_diag.
    reflexivity. }
  assert (Hser : h3 !! (length h + 1)%nat
                 = Some (OSerialStopper (length h :: agent_stages ag))).
  { subst h3. rewrite lookup_app_plus. reflexivity. }
  assert (Hc : h3 !! (length h + 2)%nat = Some (OChan 0 [] false)).
  { subst h3. rewrite lookup_app_plus. reflexivity. }
  assert (Hins3 : forallb (is_component h3) (inputs ag) = true)
    by (apply components_app, Hins).
  assert (Hst3 : forallb (is_component h3) (agent_stages ag) = true).
  { cbn [agent_stages forallb]. subst h3.
    rewrite !is_component_app by assumption. reflexivity. }
  unfold stop_race. unfold bind at 1. unfold isolate.
  rewrite (invoke_SerialStopper sched fuel (length h + 1)%nat (length h)
             (inputs ag) (agent_stages ag))
    by assumption.
  cbn [heap log app].
  change (Invoke (length h + 1)%nat Stop
          :: (Invoke (length h) Stop
              :: interleave
                   (length (concat (map (call_events Stop) (inputs ag))))
                   sched (map (call_events Stop) (inputs ag))
              ++ [Return (length h) Stop])
          ++ flat_map (call_events Stop) (agent_stages ag)
          ++ [Return (length h + 1)%nat Stop])
    with (stop_events sched (length h) ag).
  set (s := exec _ _ _ _ _).
  destruct (pc s); try reflexivity.
  set (h4 := fold_left (record Stop) (inputs ag ++ agent_stages ag) h3).
  assert (Hctx4 : is_component h4 (destinationsCtx ag) = true).
  { subst h4. rewrite records_is_component. subst h3.
    apply is_component_app, Hctx. }
  assert (Hc4 : h4 !! (length h + 2)%nat = Some (OChan 0 [] false)).
  { subst h4. apply records_frame; [assumption|]. intros; discriminate. }
  unfold stopped_heap. fold h3. fold h4.
  destruct (timed_out s).
  - unfold bind at 1. rewrite forced_stop_component by assumption.
    unfold bind at 1.
    rewrite (close_chan_open _ 0 [] false)
      by (cbn [heap]; apply record_frame;
          [assumption|intros; discriminate]).
    reflexivity.
  - unfold bind at 1. unfold ret at 1. unfold bind at 1.
    rewrite (close_chan_open _ 0 [] false) by assumption.
    reflexivity.
Qed.


(** ** Interleavings *)

Lemma concat_filter_nonempty (ts : list (list Event)) :
  concat (List.filter nonempty ts) = concat ts.
Proof.
  induction ts as [|t ts IH]; [reflexivity|].
  destruct t as [|e t]; cbn; rewrite IH; reflexivity.
Qed.

Lemma pick_head_perm (k : nat) (ts : list (list Event)) (e : Event)
    (ts' : list (list Event)) :
  pick_head k ts = Some (e, ts') ->
  Permutation (e :: concat ts') (concat ts) /\
  length (concat ts) = S (length (concat ts')).
Proof.
  unfold pick_head. destruct (ts !! k) as [[|e0 t]|] eqn:Hk; try discriminate.
  intros H. inversion H; subst; clear H.
  rewrite insert_take_drop by (eapply lookup_lt_Some, Hk).
  pose proof (take_drop_middle ts k (e :: t) Hk) as Hts.
  remember (take k ts) as A eqn:HA. remember (drop (S k) ts) as B eqn:HB.
  clear HA HB Hk. subst ts.
  rewrite !concat_app. cbn [concat]. split.
  - cbn [app]. apply Permutation_middle.
  - rewrite !length_app. cbn [length app]. rewrite ?length_app. lia.
Qed.

Lemma pick_head_live (x : nat) (ts : list (list Event)) :
  List.filter nonempty ts <> [] ->
  exists e ts',
    pick_head (Nat.modulo x (length (List.filter nonempty ts)))
              (List.filter nonempty ts) = Some (e, ts').
Proof.
  intros Hne. set (live := List.filter nonempty ts) in *.
  assert (Hlt : (Nat.modulo x (length live) < length live)%nat).
  { apply Nat.mod_upper_bound. destruct live; [congruence|discriminate]. }
  apply lookup_lt_is_Some_2 in Hlt as [t Ht].
  assert (Hin : In t live).
  { apply list_elem_of_In. eapply list_elem_of_lookup_2, Ht. }
  apply filter_In in Hin as [_ Hnon].
  unfold pick_head. rewrite Ht.
  destruct t as [|e t]; [discriminate|]. eauto.
Qed.

(** An interleaving holds exactly the events of its threads. *)
Lemma interleave_perm (n : nat) (sched : list nat)
    (ts : list (list Event)) :
  length (concat ts) = n ->
  Permutation (interleave n sched ts) (concat ts).
Proof.
  revert sched ts. induction n as [|n IH]; intros sched ts Hn.
  - destruct (concat ts); [constructor|discriminate].
  - cbn [interleave].
    assert (Hne : List.filter nonempty ts <> []).
    { intros Hnil.
      pose proof (concat_filter_nonempty ts) as Hc.
      rewrite Hnil in Hc. cbn in Hc. rewrite <- Hc in Hn. discriminate. }
    destruct (pick_head_live (hd 0%nat sched) ts Hne) as (e & ts' & Hp).
    rewrite Hp.
    apply pick_head_perm in Hp as [Hperm Hlen].
    rewrite concat_filter_nonempty in Hperm, Hlen.
    rewrite <- Hperm. apply perm_skip. apply IH. lia.
Qed.

Lemma inputs_stop_events_perm (sched : list nat) (ag : Agent) :
  Permutation (inputs_stop_events sched ag)
              (flat_map (call_events Stop) (inputs ag)).
Proof.
  unfold inputs_stop_events. rewrite interleave_perm by reflexivity.
  rewrite flat_map_concat_map. reflexivity.
Qed.

(** ** Order of calls in a serial run *)

Lemma flat_map_precedes (m : Method) (l : list ref) (i j : nat)
    (r r' : ref) (pre post : list Event) :
  l !! i = Some r -> l !! j = Some r' -> (i < j)%nat ->
  precedes (Return r m) (Invoke r' m)
           (pre ++ flat_map (call_events m) l ++ post).
Proof.
  intros Hi Hj Hlt.
  rewrite <- (take_drop_middle l i r Hi).
  assert (Hj' : drop (S i) l !! (j - S i)%nat = Some r').
  { rewrite lookup_drop. rewrite <- Hj. f_equal. lia. }
  rewrite <- (take_drop_middle _ _ _ Hj').
  set (l1 := take i l). set (l3 := take (j - S i) (drop (S i) l)).
  set (l4 := drop (S (j - S i)) (drop (S i) l)).
  exists (pre ++ flat_map (call_events m) l1 ++ [Invoke r m]),
         (flat_map (call_events m) l3),
         (Return r' m :: flat_map (call_events m) l4 ++ post).
  rewrite !flat_map_app. cbn [flat_map call_events app].
  rewrite !flat_map_app. cbn [flat_map call_events app].
  repeat (rewrite <- ?app_assoc; cbn [app]). reflexivity.
Qed.


(** The objects of the store that Agent.Stop leaves as they are. *)
Lemma stopped_heap_frame (forced : bool) (n : nat) (ag : Agent)
    (h : list Obj) (r : ref) (o : Obj) :
  (h ++ stop_objects n ag) !! r = Some o ->
  (forall k calls, o <> OComponent k calls) ->
  r <> (n + 2)%nat ->
  stopped_heap forced n ag h !! r = Some o.
Proof.
  intros Hr Hno Hne. unfold stopped_heap.
  rewrite list_lookup_insert_ne by congruence.
  destruct forced.
  - apply record_frame; [|assumption]. apply records_frame; assumption.
  - apply records_frame; assumption.
Qed.

Lemma is_component_insert_ne (h : list Obj) (c r : ref) (o : Obj) :
  r <> c -> is_component (<[c := o]> h) r = is_component h r.
Proof.
  intros Hne. unfold is_component.
  rewrite list_lookup_insert_ne by congruence. reflexivity.
Qed.

Lemma stopped_heap_components (forced : bool) (n : nat) (ag : Agent)
    (h : list Obj) (rs : list ref) :
  n = length h ->
  forallb (is_component h) rs = true ->
  forallb (is_component (stopped_heap forced n ag h)) rs = true.
Proof.
  intros -> H. rewrite forallb_forall in *. intros r Hr.
  specialize (H r Hr). unfold stopped_heap.
  assert (Hlt : (r < length h)%nat).
  { apply is_component_spec in H as (k & calls & Hk).
    eapply lookup_lt_Some, Hk. }
  cbv zeta. rewrite is_component_insert_ne by lia.
  destruct forced; rewrite ?record_is_component, records_is_component;
    apply is_component_app, H.
Qed.


(** ** Agent.Stop returns, and what it returns *)

Lemma Agent_Stop_returns (cfg : Config) (sched : list nat) (fuel : nat)
    (rsched : list Choice) (a : ref) (ag : Agent) (w w' : World) :
  heap w !! a = Some (OAgent ag) ->
  forallb (is_component (heap w)) (agent_components ag) = true ->
  Agent_Stop cfg sched (S (S (S fuel))) rsched a w = Ok tt w' ->
  pc (exec (length (heap w) + 2)%nat (destinationsCtx ag)
           (stop_timeout cfg) rsched
           (race_init (stop_events sched (length (heap w)) ag)))
    = PcReturned /\
  w' = {| heap := stopped_heap
                    (timed_out
                       (exec (length (heap w) + 2)%nat (destinationsCtx ag)
                             (stop_timeout cfg) rsched
                             (race_init
                                (stop_events sched (length (heap w)) ag))))
                    (length (heap w)) ag (heap w);
          log := log w
                 ++ trace (exec (length (heap w) + 2)%nat
                                (destinationsCtx ag) (stop_timeout cfg)
                                rsched
                                (race_init
                                   (stop_events sched (length (heap w))
                                                ag))) |}.
Proof.
  intros Ha Hcs Hok.
  rewrite (Agent_Stop_eq cfg sched fuel rsched a ag w Ha Hcs) in Hok.
  destruct (pc _) eqn:Hpc; try discriminate.
  inversion Hok. split; reflexivity.
Qed.

Lemma Agent_Stop_can_finish (cfg : Config) (sched : list nat) (fuel : nat)
    (rsched : list Choice) (a : ref) (ag : Agent) (w : World) :
  heap w !! a = Some (OAgent ag) ->
  forallb (is_component (heap w)) (agent_components ag) = true ->
  exists more w',
    Agent_Stop cfg sched (S (S (S fuel))) (rsched ++ more) a w = Ok tt w'.
Proof.
  intros Ha Hcs.
  set (s := exec (length (heap w) + 2)%nat (destinationsCtx ag)
                 (stop_timeout cfg) rsched
                 (race_init (stop_events sched (length (heap w)) ag))).
  exists (finishing s).
  rewrite (Agent_Stop_eq cfg sched fuel _ a ag w Ha Hcs).
  rewrite exec_app. fold s.
  rewrite (can_finish _ _ _ (stop_events sched (length (heap w)) ag) s).
  - eexists. reflexivity.
  - apply exec_inv, race_init_inv.
Qed.

(** ** The agent: claims C3 and C9 *)

(** C3.  Agent.Start returns, and what it adds to the log is the call of
    Start on the Starter it builds and, inside it, for each of the
    DestinationsContext, the Auditor, the PipelineProvider and then the
    inputs in the order of the agent's list, the call of Start followed by
    its return: the Start of a member has returned before the Start of
    any later member is invoked. *)
Theorem Agent_Start_order (sched : list nat) (fuel : nat) (a : ref)
    (ag : Agent) (w : World) :
  heap w !! a = Some (OAgent ag) ->
  forallb (is_component (heap w)) (agent_components ag) = true ->
  exists w',
    Agent_Start sched (S (S fuel)) a w = Ok tt w' /\
    heap w' !! length (heap w)
      = Some (OStarter (destinationsCtx ag :: auditor ag
                        :: pipelineProvider ag :: inputs ag)) /\
    log w' = log w ++ Invoke (length (heap w)) Start
             :: flat_map (call_events Start)
                  (destinationsCtx ag :: auditor ag :: pipelineProvider ag
                   :: inputs ag)
             ++ [Return (length (heap w)) Start] /\
    forall i j r r',
      (destinationsCtx ag :: auditor ag :: pipelineProvider ag
       :: inputs ag) !! i = Some r ->
      (destinationsCtx ag :: auditor ag :: pipelineProvider ag
       :: inputs ag) !! j = Some r' ->
      (i < j)%nat ->
      precedes (Return r Start) (Invoke r' Start) (log w').
Proof.
  intros Ha Hcs. eexists. split; [|split; [|split]].
  - apply (Agent_Start_eq sched fuel a ag w Ha Hcs).
  - cbn [heap]. apply records_frame; [|intros; discriminate].
    rewrite lookup_app_r by lia. rewrite Nat.sub_diag. reflexivity.
  - reflexivity.
  - intros i j r r' Hi Hj Hlt. cbn [log].
    apply (flat_map_precedes Start (agent_components ag) i j r r'
             (log w ++ [Invoke (length (heap w)) Start])
             [Return (length (heap w)) Start]) in Hlt;
      [|assumption|assumption].
    rewrite <- app_assoc in Hlt. exact Hlt.
Qed.


Lemma Ok_inj {A} (x y : A) (w w' : World) : Ok x w = Ok y w' -> w = w'.
Proof. intros H. injection H. auto. Qed.

Lemma Agent_Start_order_witness :
  exists w',
    Agent_Start [] 2 14%nat example_agent_world = Ok tt w' /\
    heap w' !! 15%nat = Some (OStarter [7; 6; 8; 9; 10; 11; 12; 13]%nat) /\
    log w' = [] ++ Invoke 15%nat Start
             :: flat_map (call_events Start)
                  [7; 6; 8; 9; 10; 11; 12; 13]%nat
             ++ [Return 15%nat Start] /\
    forall i j r r',
      [7; 6; 8; 9; 10; 11; 12; 13]%nat !! i = Some r ->
      [7; 6; 8; 9; 10; 11; 12; 13]%nat !! j = Some r' ->
      (i < j)%nat ->
      precedes (Return r Start) (Invoke r' Start) (log w').
Proof.
  refine (Agent_Start_order [] 0 14%nat example_agent example_agent_world
            _ _);
    vm_compute; reflexivity.
Defined.


(** C9.  Agent.Start and Agent.Stop leave the Agent struct as it is: after
    either call the store still holds at the agent's address the same
    auditor, destinationsCtx, pipelineProvider, inputs and health, these
    still point to components, and every object of the store that is not
    a component is as it was.  The Starter of Start, and the
    ParallelStopper and the SerialStopper of Stop, are objects allocated
    by the call at addresses that held nothing before; so each further
    call finds the agent as the first one did and allocates its own. *)
Theorem Agent_struct_unchanged (cfg : Config) (sched : list nat)
    (fuel : nat) (rsched : list Choice) (a : ref) (ag : Agent)
    (w w1 w2 : World) :
  heap w !! a = Some (OAgent ag) ->
  forallb (is_component (heap w)) (agent_components ag) = true ->
  Agent_Start sched (S (S fuel)) a w = Ok tt w1 ->
  Agent_Stop cfg sched (S (S (S fuel))) rsched a w = Ok tt w2 ->
  (heap w !! length (heap w) = None /\
   heap w !! (length (heap w) + 1)%nat = None) /\
  (heap w1 !! a = Some (OAgent ag) /\
   forallb (is_component (heap w1)) (agent_components ag) = true /\
   heap w1 !! length (heap w) = Some (OStarter (agent_components ag)) /\
   forall r o,
     heap w !! r = Some o -> (forall k calls, o <> OComponent k calls) ->
     heap w1 !! r = Some o) /\
  (heap w2 !! a = Some (OAgent ag) /\
   forallb (is_component (heap w2)) (agent_components ag) = true /\
   heap w2 !! length (heap w) = Some (OParallelStopper (inputs ag)) /\
   heap w2 !! (length (heap w) + 1)%nat
     = Some (OSerialStopper (length (heap w) :: agent_stages ag)) /\
   forall r o,
     heap w !! r = Some o -> (forall k calls, o <> OComponent k calls) ->
     heap w2 !! r = Some o).
Proof.
  intros Ha Hcs Hstart Hstop.
  rewrite (Agent_Start_eq sched fuel a ag w Ha Hcs) in Hstart.
  apply Ok_inj in Hstart as Hw1.
  destruct (Agent_Stop_returns cfg sched fuel rsched a ag w w2 Ha Hcs
              Hstop) as [_ Hw2].
  assert (Hframe1 : forall r o,
             heap w !! r = Some o ->
             (forall k calls, o <> OComponent k calls) ->
             heap w1 !! r = Some o).
  { intros r o Hr Hno. subst w1. cbn [heap].
    apply records_frame; [|assumption].
    apply lookup_app_l_Some, Hr. }
  assert (Hframe2 : forall r o,
             heap w !! r = Some o ->
             (forall k calls, o <> OComponent k calls) ->
             heap w2 !! r = Some o).
  { intros r o Hr Hno. rewrite Hw2. cbn [heap].
    apply stopped_heap_frame; [|assumption|].
    - apply lookup_app_l_Some, Hr.
    - apply lookup_lt_Some in Hr. lia. }
  split; [|split].
  - split; apply lookup_ge_None; lia.
  - split; [|split; [|split]].
    + apply (Hframe1 a _ Ha). intros; discriminate.
    + subst w1. cbn [heap].
      apply components_records, components_app, Hcs.
    + subst w1. cbn [heap]. apply records_frame; [|intros; discriminate].
      rewrite lookup_app_r by lia. rewrite Nat.sub_diag. reflexivity.
    + exact Hframe1.
  - split; [|split; [|split; [|split]]].
    + apply (Hframe2 a _ Ha). intros; discriminate.
    + rewrite Hw2. cbn [heap].
      apply stopped_heap_components; [reflexivity|assumption].
    + rewrite Hw2. cbn [heap].
      apply stopped_heap_frame; [|intros; discriminate|lia].
      rewrite lookup_app_r by lia. rewrite Nat.sub_diag. reflexivity.
    + rewrite Hw2. cbn [heap].
      apply stopped_heap_frame; [|intros; discriminate|lia].
      rewrite lookup_app_plus. reflexivity.
    + exact Hframe2.
Qed.

Lemma Agent_struct_unchanged_witness :
  (heap example_agent_world !! length (heap example_agent_world) = None /\
   heap example_agent_world !! (length (heap example_agent_world) + 1)%nat
     = None) /\
  (heap example_started_world !! 14%nat = Some (OAgent example_agent) /\
   forallb (is_component (heap example_started_world))
           (agent_components example_agent) = true /\
   heap example_started_world !! length (heap example_agent_world)
     = Some (OStarter (agent_components example_agent)) /\
   forall r o,
     heap example_agent_world !! r = Some o ->
     (forall k calls, o <> OComponent k calls) ->
     heap example_started_world !! r = Some o) /\
  (heap example_unstarted_stop !! 14%nat = Some (OAgent example_agent) /\
   forallb (is_component (heap example_unstarted_stop))
           (agent_components example_agent) = true /\
   heap example_unstarted_stop !! length (heap example_agent_world)
     = Some (OParallelStopper (inputs example_agent)) /\
   heap example_unstarted_stop
     !! (length (heap example_agent_world) + 1)%nat
     = Some (OSerialStopper (length (heap example_agent_world)
                             :: agent_stages example_agent)) /\
   forall r o,
     heap example_agent_world !! r = Some o ->
     (forall k calls, o <> OComponent k calls) ->
     heap example_unstarted_stop !! r = Some o).
Proof.
  refine (Agent_struct_unchanged example_config [3; 1; 0; 2]%nat 0
            example_race 14%nat example_agent example_agent_world
            example_started_world example_unstarted_stop _ _ _ _);
    vm_compute; reflexivity.
Defined.


(** The timer's send is in the trace once it has happened. *)
Lemma step_fired_logged (c ctx : ref) (timeout : Z) (s : Race)
    (ch : Choice) :
  (fired s = true -> In TimerFired (trace s)) ->
  fired (step c ctx timeout s ch) = true ->
  In TimerFired (trace (step c ctx timeout s ch)).
Proof.
  destruct s as [clk pend cl dl fr to p tr]. cbn. intros H.
  destruct ch as [d| | |coin]; destruct p; cbn;
    unfold step_worker, step_timer, step_main, say, set_pc,
      take_timer_case; cbn;
    repeat case_match; cbn; intros Hf;
    rewrite ?in_app_iff; cbn; auto.
Qed.

Lemma fired_logged (c ctx : ref) (timeout : Z) (evs : list Event)
    (sched : list Choice) :
  fired (exec c ctx timeout sched (race_init evs)) = true ->
  In TimerFired (trace (exec c ctx timeout sched (race_init evs))).
Proof.
  assert (H : forall s,
             (fired s = true -> In TimerFired (trace s)) ->
             fired (exec c ctx timeout sched s) = true ->
             In TimerFired (trace (exec c ctx timeout sched s))).
  { induction sched as [|ch sched IH]; intros s Hs.
    - exact Hs.
    - cbn. apply IH. apply step_fired_logged, Hs. }
  apply H. cbn. discriminate.
Qed.


(** The agent NewAgent builds points to components only. *)
Lemma NewAgent_components (cfg : Config) (DefaultSleepDuration : Z)
    (sources services endpoints : ref) (w : World) (a : ref)
    (w' : World) :
  NewAgent cfg DefaultSleepDuration sources services endpoints w
    = Ok a w' ->
  exists ag,
    heap w' !! a = Some (OAgent ag) /\
    forallb (is_component (heap w')) (agent_components ag) = true.
Proof.
  rewrite NewAgent_ok. intros H. inversion H; subst; clear H.
  eexists. cbn [heap]. split.
  - rewrite agent_objects_lookup. reflexivity.
  - cbn [agent_components destinationsCtx auditor pipelineProvider inputs
         forallb].
    unfold is_component. rewrite !agent_objects_lookup. reflexivity.
Qed.


(** The example schedule takes the timeout branch: the timer fires while
    the select is parked, DestinationsContext.Stop() is forced, and Stop
    returns after the goroutine has closed the channel. *)
Example example_race_times_out :
  main_events (drop (length (log example_started_world))
                    (log example_stopped_world))
    = forced_events (destinationsCtx example_agent) /\
  worker_events (drop (length (log example_started_world))
                      (log example_stopped_world))
    = stop_events [3; 1; 0; 2]%nat 16 example_agent ++ [CloseChan 18%nat] /\
  is_component (heap example_stopped_world) 7%nat = true /\
  heap example_stopped_world !! 7%nat
    = Some (OComponent DestinationsContext [Start; Stop; Stop]).
Proof. vm_compute. repeat split; reflexivity. Qed.


(** ** Further properties of the pipeline *)

Lemma calls_of_record (m : Method) (h : list Obj) (x r : ref) :
  calls_of (record m h x) r =
  if decide (x = r)
  then option_map (fun cs => cs ++ [m]) (calls_of h r)
  else calls_of h r.
Proof.
  unfold record, calls_of.
  destruct (decide (x = r)) as [->|Hne].
  - destruct (h !! r) as [o|] eqn:Hr; [|rewrite Hr; reflexivity].
    destruct o; try (rewrite Hr; reflexivity).
    rewrite list_lookup_insert_eq by (eapply lookup_lt_Some, Hr).
    reflexivity.
  - destruct (h !! x) as [o|]; [|reflexivity].
    destruct o; try reflexivity.
    rewrite list_lookup_insert_ne by assumption. reflexivity.
Qed.

Lemma calls_of_records (m : Method) (rs : list ref) (h : list Obj)
    (r : ref) :
  calls_of (fold_left (record m) rs h) r =
  option_map (fun cs => cs ++ repeat m (count_occ Nat.eq_dec rs r))
             (calls_of h r).
Proof.
  revert h. induction rs as [|x rs IH]; intros h.
  - cbn. destruct (calls_of h r); cbn; [rewrite app_nil_r|]; reflexivity.
  - cbn [fold_left count_occ]. rewrite IH, calls_of_record.
    destruct (Nat.eq_dec x r) as [->|Hne].
    + destruct (decide (r = r)) as [_|]; [|congruence].
      destruct (calls_of h r); cbn; [|reflexivity].
      rewrite <- app_assoc. reflexivity.
    + destruct (decide (x = r)); [congruence|reflexivity].
Qed.

(** Appending objects that are not components gives no component a
    history it did not have. *)
Lemma calls_of_app (h L : list Obj) (r : ref) :
  Forall (fun o => forall k calls, o <> OComponent k calls) L ->
  calls_of (h ++ L) r = calls_of h r.
Proof.
  intros HL. unfold calls_of.
  destruct (lt_dec r (length h)) as [Hlt|Hge].
  - rewrite lookup_app_l by assumption. reflexivity.
  - rewrite lookup_app_r by lia.
    rewrite (lookup_ge_None_2 h) by lia.
    destruct (L !! (r - length h)%nat) as [o|] eqn:Ho; [|reflexivity].
    apply list_elem_of_lookup_2 in Ho.
    rewrite Forall_forall in HL. specialize (HL o Ho).
    destruct o; try reflexivity. exfalso. eapply HL. reflexivity.
Qed.

Lemma NewPipeline_layout (outputChan : ref) (bufferSize : Z)
    (endpoints destinationsContext : ref) (w : World) (p : ref)
    (w' : World) :
  NewPipeline outputChan bufferSize endpoints destinationsContext w
    = Ok p w' ->
  exists e,
    heap w !! endpoints = Some (OEndpoints e) /\
    0 <= bufferSize <= maxChanLen /\
    log w' = log w /\
    heap w' = heap w ++ pipeline_objects (length (heap w)) outputChan
                                         bufferSize e destinationsContext /\
    length (heap w')
      = (length (heap w) + length (Additionals e) + 7)%nat /\
    p = (length (heap w) + length (Additionals e) + 6)%nat /\
    forall j,
      heap w' !! (length (heap w) + length (Additionals e) + S j)%nat
      = stage_objects (length (heap w)) (length (Additionals e)) outputChan
                      bufferSize e !! j.
Proof.
  intros Hok.
  apply NewPipeline_inv in Hok as (e & He & Hsz & -> & ->).
  exists e. cbn [heap log]. repeat split; try assumption; try lia.
  - unfold pipeline_objects, stage_objects.
    rewrite length_app. cbn [length]. rewrite length_app, length_map.
    cbn [length]. lia.
  - intros j. apply pipeline_objects_stage. reflexivity.
Qed.

(** X1.  NewPipeline only allocates: when it returns, the store it was
    given is the beginning of the store it leaves, followed by one
    Destination per endpoint and six further objects, the Pipeline last;
    the log is as it was, so nothing has been started, and the Sender and
    the Processor have received no call. *)
Theorem NewPipeline_only_allocates
    (outputChan : ref) (bufferSize : Z)
    (endpoints destinationsContext : ref) (w : World) (p : ref)
    (w' : World) :
  NewPipeline outputChan bufferSize endpoints destinationsContext w
    = Ok p w' ->
  exists e pl,
    heap w !! endpoints = Some (OEndpoints e) /\
    log w' = log w /\
    take (length (heap w)) (heap w') = heap w /\
    length (heap w')
      = (length (heap w) + (1 + length (Additionals e)) + 6)%nat /\
    S p = length (heap w') /\
    heap w' !! p = Some (OPipeline pl) /\
    calls_of (heap w') (sender pl) = Some [] /\
    calls_of (heap w') (processor pl) = Some [] /\
    forall r o, heap w !! r = Some o -> heap w' !! r = Some o.
Proof.
  intros Hok.
  apply NewPipeline_layout in Hok
    as (e & He & Hsz & Hlog & Hheap & Hlen & -> & Hst).
  exists e,
    {| InputChan := (length (heap w) + length (Additionals e) + 4)%nat;
       processor := (length (heap w) + length (Additionals e) + 5)%nat;
       sender := (length (heap w) + length (Additionals e) + 3)%nat |}.
  unfold calls_of. cbn [sender processor].
  rewrite !Hst.
  repeat split; try assumption; try lia.
  - rewrite Hheap. rewrite take_app_length. reflexivity.
  - intros r o Hr. rewrite Hheap. apply lookup_app_l_Some, Hr.
Qed.

Lemma NewPipeline_only_allocates_witness :
  exists e pl,
    heap example_world !! 2%nat = Some (OEndpoints e) /\
    log example_pipeline_world = log example_world /\
    take (length (heap example_world)) (heap example_pipeline_world)
      = heap example_world /\
    length (heap example_pipeline_world)
      = (length (heap example_world) + (1 + length (Additionals e)) + 6)%nat /\
    14%nat = length (heap example_pipeline_world) /\
    heap example_pipeline_world !! 13%nat = Some (OPipeline pl) /\
    calls_of (heap example_pipeline_world) (sender pl) = Some [] /\
    calls_of (heap example_pipeline_world) (processor pl) = Some [] /\
    forall r o,
      heap example_world !! r = Some o ->
      heap example_pipeline_world !! r = Some o.
Proof.
  refine (NewPipeline_only_allocates 3%nat 10 2%nat 4%nat example_world
            13%nat example_pipeline_world _);
    vm_compute; reflexivity.
Defined.

(** X2.  NewPipeline dereferences its endpoints before anything else:
    with a nil endpoints pointer it panics on the dereference whatever
    the buffer size is, a valid one or one that make would refuse. *)
Theorem NewPipeline_nil_endpoints_panics
    (outputChan : ref) (bufferSize : Z)
    (endpoints destinationsContext : ref) (w : World) :
  heap w !! endpoints = None ->
  NewPipeline outputChan bufferSize endpoints destinationsContext w
    = Panic nil_deref.
Proof.
  intros Hnil. apply NewPipeline_nil_endpoints. congruence.
Qed.

Lemma NewPipeline_nil_endpoints_panics_witness :
  NewPipeline 3%nat (-1) 99%nat 4%nat example_world = Panic nil_deref.
Proof.
  refine (NewPipeline_nil_endpoints_panics 3%nat (-1) 99%nat 4%nat
            example_world _);
    vm_compute; reflexivity.
Defined.


(** X3.  Two successive calls of NewPipeline build pipelines that share
    nothing they allocate: the two Pipelines, their entry queues, their
    sender queues, their Senders and their Processors are ten distinct
    objects, and the second call leaves the first pipeline and its
    queues as the first call made them. *)
Theorem NewPipeline_twice_independent
    (out1 : ref) (size1 : Z) (eps1 ctx1 : ref)
    (out2 : ref) (size2 : Z) (eps2 ctx2 : ref)
    (w : World) (p1 : ref) (w1 : World) (p2 : ref) (w2 : World) :
  NewPipeline out1 size1 eps1 ctx1 w = Ok p1 w1 ->
  NewPipeline out2 size2 eps2 ctx2 w1 = Ok p2 w2 ->
  exists pl1 pl2 sc1 sc2,
    heap w1 !! p1 = Some (OPipeline pl1) /\
    heap w2 !! p1 = Some (OPipeline pl1) /\
    heap w2 !! p2 = Some (OPipeline pl2) /\
    pipeline_senderChan (heap w2) p1 = Some sc1 /\
    pipeline_senderChan (heap w2) p2 = Some sc2 /\
    NoDup [p1; InputChan pl1; sc1; sender pl1; processor pl1;
           p2; InputChan pl2; sc2; sender pl2; processor pl2] /\
    chan_at (heap w2) (InputChan pl1)
      = Some {| chan_cap := size1; chan_buf := [] |} /\
    chan_at (heap w2) sc1 = Some {| chan_cap := size1; chan_buf := [] |} /\
    chan_at (heap w2) (InputChan pl2)
      = Some {| chan_cap := size2; chan_buf := [] |} /\
    chan_at (heap w2) sc2 = Some {| chan_cap := size2; chan_buf := [] |}.
Proof.
  intros H1 H2.
  apply NewPipeline_layout in H1
    as (e1 & He1 & Hsz1 & Hlog1 & Hheap1 & Hlen1 & -> & Hst1).
  apply NewPipeline_layout in H2
    as (e2 & He2 & Hsz2 & Hlog2 & Hheap2 & Hlen2 & -> & Hst2).
  set (n := length (heap w)) in *. set (k := length (Additionals e1)) in *.
  set (n' := length (heap w1)) in *.
  set (k' := length (Additionals e2)) in *.
  assert (Hold : forall j,
             (j < 6)%nat ->
             heap w2 !! (n + k + S j)%nat
             = stage_objects n k out1 size1 e1 !! j).
  { intros j Hj. rewrite Hheap2. rewrite lookup_app_l by (subst n'; lia).
    apply Hst1. }
  exists {| InputChan := (n + k + 4)%nat; processor := (n + k + 5)%nat;
            sender := (n + k + 3)%nat |},
         {| InputChan := (n' + k' + 4)%nat; processor := (n' + k' + 5)%nat;
            sender := (n' + k' + 3)%nat |},
         (n + k + 2)%nat, (n' + k' + 2)%nat.
  unfold pipeline_senderChan, chan_at. cbn [InputChan sender processor].
  rewrite !Hst1, !Hst2. rewrite !Hold by lia.
  cbn [stage_objects lookup list_lookup sender].
  rewrite !Hst2. rewrite !Hold by lia.
  cbn [stage_objects lookup list_lookup].
  repeat split; try reflexivity.
  repeat (constructor;
          [rewrite ?not_elem_of_cons; repeat split; try lia;
           apply not_elem_of_nil|]).
  constructor.
Qed.

Lemma NewPipeline_twice_independent_witness :
  exists pl1 pl2 sc1 sc2,
    heap example_pipeline_world !! 13%nat = Some (OPipeline pl1) /\
    heap example_two_pipelines !! 13%nat = Some (OPipeline pl1) /\
    heap example_two_pipelines !! 22%nat = Some (OPipeline pl2) /\
    pipeline_senderChan (heap example_two_pipelines) 13%nat = Some sc1 /\
    pipeline_senderChan (heap example_two_pipelines) 22%nat = Some sc2 /\
    NoDup [13%nat; InputChan pl1; sc1; sender pl1; processor pl1;
           22%nat; InputChan pl2; sc2; sender pl2; processor pl2] /\
    chan_at (heap example_two_pipelines) (InputChan pl1)
      = Some {| chan_cap := 10; chan_buf := [] |} /\
    chan_at (heap example_two_pipelines) sc1
      = Some {| chan_cap := 10; chan_buf := [] |} /\
    chan_at (heap example_two_pipelines) (InputChan pl2)
      = Some {| chan_cap := 5; chan_buf := [] |} /\
    chan_at (heap example_two_pipelines) sc2
      = Some {| chan_cap := 5; chan_buf := [] |}.
Proof.
  refine (NewPipeline_twice_independent 3%nat 10 2%nat 4%nat
            3%nat 5 2%nat 4%nat example_world 13%nat
            example_pipeline_world 22%nat example_two_pipelines _ _);
    vm_compute; reflexivity.
Defined.


Lemma Pipeline_Start_eq (sched : list nat) (fuel : nat) (p : ref)
    (pl : Pipeline) (w : World) :
  heap w !! p = Some (OPipeline pl) ->
  is_component (heap w) (sender pl) = true ->
  is_component (heap w) (processor pl) = true ->
  Pipeline_Start (invoke sched (S fuel)) p w =
  Ok tt {| heap := record Start (record Start (heap w) (sender pl))
                          (processor pl);
           log := log w ++ call_events Start (sender pl)
                  ++ call_events Start (processor pl) |}.
Proof.
  intros Hp Hs Hpr. unfold Pipeline_Start, load_pipeline, load.
  unfold bind at 1. unfold bind at 1. rewrite Hp. unfold ret at 1.
  unfold bind at 1. rewrite invoke_component by assumption.
  rewrite invoke_component
    by (cbn [heap]; rewrite record_is_component; assumption).
  cbn [heap log]. rewrite <- app_assoc. reflexivity.
Qed.

Lemma Pipeline_Stop_eq (sched : list nat) (fuel : nat) (p : ref)
    (pl : Pipeline) (w : World) :
  heap w !! p = Some (OPipeline pl) ->
  is_component (heap w) (sender pl) = true ->
  is_component (heap w) (processor pl) = true ->
  Pipeline_Stop (invoke sched (S fuel)) p w =
  Ok tt {| heap := record Stop (record Stop (heap w) (processor pl))
                          (sender pl);
           log := log w ++ call_events Stop (processor pl)
                  ++ call_events Stop (sender pl) |}.
Proof.
  intros Hp Hs Hpr. unfold Pipeline_Stop, load_pipeline, load.
  unfold bind at 1. unfold bind at 1. rewrite Hp. unfold ret at 1.
  unfold bind at 1. rewrite invoke_component by assumption.
  rewrite invoke_component
    by (cbn [heap]; rewrite record_is_component; assumption).
  cbn [heap log]. rewrite <- app_assoc. reflexivity.
Qed.

Lemma calls_of_component (h : list Obj) (r : ref) (cs : list Method) :
  calls_of h r = Some cs -> is_component h r = true.
Proof.
  unfold calls_of, is_component.
  destruct (h !! r) as [[]|]; try discriminate. reflexivity.
Qed.

Lemma chan_at_record (m : Method) (h : list Obj) (x r : ref) :
  chan_at (record m h x) r = chan_at h r.
Proof.
  unfold chan_at, record.
  destruct (h !! x) as [o|] eqn:Hx; [|reflexivity].
  destruct o; try reflexivity.
  destruct (decide (x = r)) as [->|Hne].
  - rewrite list_lookup_insert_eq by (eapply lookup_lt_Some, Hx).
    rewrite Hx. reflexivity.
  - rewrite list_lookup_insert_ne by assumption. reflexivity.
Qed.

(** X4.  A pipeline that NewPipeline returns can be started and then
    stopped: both calls return, Stop stops the two stages in the reverse
    of the order in which Start started them, the Sender and the
    Processor have each received exactly one Start followed by one Stop,
    and every object that is not a component, the two queues among them,
    is as NewPipeline left it. *)
Theorem Pipeline_lifecycle (sched : list nat) (fuel : nat)
    (outputChan : ref) (bufferSize : Z)
    (endpoints destinationsContext : ref) (w : World) (p : ref)
    (w' : World) :
  NewPipeline outputChan bufferSize endpoints destinationsContext w
    = Ok p w' ->
  exists pl w1 w2,
    heap w' !! p = Some (OPipeline pl) /\
    Pipeline_Start (invoke sched (S fuel)) p w' = Ok tt w1 /\
    Pipeline_Stop (invoke sched (S fuel)) p w1 = Ok tt w2 /\
    log w2 = log w ++ [Invoke (sender pl) Start; Return (sender pl) Start;
                       Invoke (processor pl) Start;
                       Return (processor pl) Start;
                       Invoke (processor pl) Stop;
                       Return (processor pl) Stop;
                       Invoke (sender pl) Stop; Return (sender pl) Stop] /\
    calls_of (heap w2) (sender pl) = Some [Start; Stop] /\
    calls_of (heap w2) (processor pl) = Some [Start; Stop] /\
    chan_at (heap w2) (InputChan pl)
      = Some {| chan_cap := bufferSize; chan_buf := [] |} /\
    forall r o,
      heap w' !! r = Some o ->
      (forall k calls, o <> OComponent k calls) ->
      heap w2 !! r = Some o.
Proof.
  intros Hok.
  apply NewPipeline_layout in Hok
    as (e & He & Hsz & Hlog & Hheap & Hlen & -> & Hst).
  set (n := length (heap w)) in *. set (k := length (Additionals e)) in *.
  set (pl := {| InputChan := (n + k + 4)%nat; processor := (n + k + 5)%nat;
                sender := (n + k + 3)%nat |}).
  assert (Hp : heap w' !! (n + k + 6)%nat = Some (OPipeline pl))
    by (rewrite Hst; reflexivity).
  assert (Hcs : calls_of (heap w') (sender pl) = Some [])
    by (unfold calls_of; cbn [sender pl]; rewrite Hst; reflexivity).
  assert (Hcp : calls_of (heap w') (processor pl) = Some [])
    by (unfold calls_of; cbn [processor pl]; rewrite Hst; reflexivity).
  assert (Hin : chan_at (heap w') (InputChan pl)
                = Some {| chan_cap := bufferSize; chan_buf := [] |})
    by (unfold chan_at; cbn [InputChan pl]; rewrite Hst; reflexivity).
  pose proof (calls_of_component _ _ _ Hcs) as Hs.
  pose proof (calls_of_component _ _ _ Hcp) as Hpr.
  set (h1 := record Start (record Start (heap w') (sender pl))
                    (processor pl)).
  set (h2 := record Stop (record Stop h1 (processor pl)) (sender pl)).
  assert (Hframe : forall r o,
             heap w' !! r = Some o ->
             (forall k0 calls, o <> OComponent k0 calls) ->
             h2 !! r = Some o).
  { intros r o Hr Hno. subst h2 h1.
    repeat (apply record_frame; [|assumption]). exact Hr. }
  exists pl, {| heap := h1;
                log := log w' ++ call_events Start (sender pl)
                       ++ call_events Start (processor pl) |},
         {| heap := h2;
            log := (log w' ++ call_events Start (sender pl)
                    ++ call_events Start (processor pl))
                   ++ call_events Stop (processor pl)
                   ++ call_events Stop (sender pl) |}.
  split; [exact Hp|].
  split; [apply Pipeline_Start_eq; assumption|].
  split.
  { apply (Pipeline_Stop_eq sched fuel _ pl).
    - cbn [heap]. subst h1.
      repeat (apply record_frame; [|intros; discriminate]). exact Hp.
    - cbn [heap]. subst h1. rewrite !record_is_component. exact Hs.
    - cbn [heap]. subst h1. rewrite !record_is_component. exact Hpr. }
  cbn [heap log].
  split.
  { rewrite Hlog. unfold call_events. rewrite <- !app_assoc. reflexivity. }
  assert (Hne : sender pl <> processor pl) by (cbn; lia).
  split; [|split; [|split]].
  - subst h2 h1. rewrite !calls_of_record.
    repeat destruct (decide _); try congruence.
    rewrite Hcs. reflexivity.
  - subst h2 h1. rewrite !calls_of_record.
    repeat destruct (decide _); try congruence.
    rewrite Hcp. reflexivity.
  - subst h2 h1. rewrite !chan_at_record. exact Hin.
  - exact Hframe.
Qed.

Lemma Pipeline_lifecycle_witness :
  exists pl w1 w2,
    heap example_pipeline_world !! 13%nat = Some (OPipeline pl) /\
    Pipeline_Start (invoke [] 1) 13%nat example_pipeline_world = Ok tt w1 /\
    Pipeline_Stop (invoke [] 1) 13%nat w1 = Ok tt w2 /\
    log w2 = log example_world
             ++ [Invoke (sender pl) Start; Return (sender pl) Start;
                 Invoke (processor pl) Start; Return (processor pl) Start;
                 Invoke (processor pl) Stop; Return (processor pl) Stop;
                 Invoke (sender pl) Stop; Return (sender pl) Stop] /\
    calls_of (heap w2) (sender pl) = Some [Start; Stop] /\
    calls_of (heap w2) (processor pl) = Some [Start; Stop] /\
    chan_at (heap w2) (InputChan pl)
      = Some {| chan_cap := 10; chan_buf := [] |} /\
    forall r o,
      heap example_pipeline_world !! r = Some o ->
      (forall k calls, o <> OComponent k calls) ->
      heap w2 !! r = Some o.
Proof.
  refine (Pipeline_lifecycle [] 0 3%nat 10 2%nat 4%nat example_world
            13%nat example_pipeline_world _);
    vm_compute; reflexivity.
Defined.

(** X5.  The entry queue of a pipeline built with buffer size B takes
    exactly B messages without a receiver: B sends are all buffered, in
    order; any further send would block; and once the oldest message has
    been received, one more send is buffered, behind the others. *)
Theorem entry_queue_fills_at_buffer_size
    (outputChan : ref) (bufferSize : Z)
    (endpoints destinationsContext : ref) (w : World) (p : ref)
    (w' : World) (ms : list ref) :
  NewPipeline outputChan bufferSize endpoints destinationsContext w
    = Ok p w' ->
  Z.of_nat (length ms) = bufferSize ->
  exists pl ch,
    heap w' !! p = Some (OPipeline pl) /\
    chan_at (heap w') (InputChan pl) = Some ch /\
    chan_run (map Send ms) ch
      = {| chan_cap := bufferSize; chan_buf := ms |} /\
    (forall m, chan_send m (chan_run (map Send ms) ch) = None) /\
    (forall m, chan_run (map Send (ms ++ [m])) ch
               = chan_run (map Send ms) ch) /\
    forall m0 rest m,
      ms = m0 :: rest ->
      chan_run (map Send ms ++ [Recv; Send m]) ch
        = {| chan_cap := bufferSize; chan_buf := rest ++ [m] |}.
Proof.
  intros Hok Hlen.
  apply NewPipeline_layout in Hok
    as (e & He & Hsz & Hlog & Hheap & Hl & -> & Hst).
  exists {| InputChan := (length (heap w) + length (Additionals e) + 4)%nat;
            processor := (length (heap w) + length (Additionals e) + 5)%nat;
            sender := (length (heap w) + length (Additionals e) + 3)%nat |},
         {| chan_cap := bufferSize; chan_buf := [] |}.
  unfold chan_at. cbn [InputChan]. rewrite !Hst.
  assert (Hfull : chan_run (map Send ms)
                    {| chan_cap := bufferSize; chan_buf := [] |}
                  = {| chan_cap := bufferSize; chan_buf := ms |}).
  { rewrite chan_run_sends by (cbn; lia). reflexivity. }
  assert (Hblock : forall m,
             chan_send m {| chan_cap := bufferSize; chan_buf := ms |}
             = None).
  { intros m. unfold chan_send. cbn [chan_cap chan_buf].
    destruct (_ <? _) eqn:E; [apply Z.ltb_lt in E; lia|reflexivity]. }
  split; [reflexivity|]. split; [reflexivity|].
  split; [exact Hfull|].
  split; [intros m; rewrite Hfull; apply Hblock|].
  split.
  - intros m. rewrite map_app. unfold chan_run in *.
    rewrite fold_left_app, Hfull. cbn [map fold_left chan_step].
    rewrite Hblock. reflexivity.
  - intros m0 rest m ->. unfold chan_run in *.
    rewrite fold_left_app, Hfull. cbn [fold_left chan_step].
    unfold chan_recv at 1. cbn [chan_buf chan_cap].
    unfold chan_send. cbn [chan_cap chan_buf].
    cbn [length] in Hlen.
    destruct (_ <? _) eqn:E; [reflexivity|apply Z.ltb_ge in E; lia].
Qed.

Lemma entry_queue_fills_at_buffer_size_witness :
  exists pl ch,
    heap example_pipeline_world !! 13%nat = Some (OPipeline pl) /\
    chan_at (heap example_pipeline_world) (InputChan pl) = Some ch /\
    chan_run (map Send (seq 20 10)) ch
      = {| chan_cap := 10; chan_buf := seq 20 10 |} /\
    (forall m, chan_send m (chan_run (map Send (seq 20 10)) ch) = None) /\
    (forall m, chan_run (map Send (seq 20 10 ++ [m])) ch
               = chan_run (map Send (seq 20 10)) ch) /\
    forall m0 rest m,
      seq 20 10 = m0 :: rest ->
      chan_run (map Send (seq 20 10) ++ [Recv; Send m]) ch
        = {| chan_cap := 10; chan_buf := rest ++ [m] |}.
Proof.
  refine (entry_queue_fills_at_buffer_size 3%nat 10 2%nat 4%nat
            example_world 13%nat example_pipeline_world (seq 20 10) _ _);
    vm_compute; reflexivity.
Defined.


(** ** Further properties of the agent *)

(** X6.  NewAgent only allocates and wires: the log is as it was and the
    store it was given is untouched; the agent's auditor,
    destinationsCtx, pipelineProvider, five inputs and health handle are
    ten distinct new objects; the provider holds the agent's auditor and
    context and the endpoints NewAgent was given; the auditor holds the
    agent's health handle; every input holds the agent's provider, and
    the scanner, the container launcher and the journald launcher hold
    the agent's auditor; no component has received a call. *)
Theorem NewAgent_wiring (cfg : Config) (DefaultSleepDuration : Z)
    (sources services endpoints : ref) (w : World) (a : ref)
    (w' : World) :
  NewAgent cfg DefaultSleepDuration sources services endpoints w
    = Ok a w' ->
  exists ag scanner containers listeners journal winevents,
    heap w' !! a = Some (OAgent ag) /\
    log w' = log w /\
    take (length (heap w)) (heap w') = heap w /\
    inputs ag = [scanner; containers; listeners; journal; winevents] /\
    NoDup (a :: health ag :: agent_components ag) /\
    Forall (fun r => (length (heap w) <= r)%nat)
           (a :: health ag :: agent_components ag) /\
    heap w' !! health ag = Some (OHealth "logs-agent") /\
    heap w' !! auditor ag
      = Some (OComponent
                (Auditor (GetString cfg "logs_config.run_path")
                         (GetInt cfg "logs_config.pipeline.buffer_size")
                         (health ag)) []) /\
    heap w' !! destinationsCtx ag
      = Some (OComponent DestinationsContext []) /\
    heap w' !! pipelineProvider ag
      = Some (OComponent
                (Provider (GetInt cfg "logs_config.pipeline.count")
                          (GetInt cfg "logs_config.pipeline.buffer_size")
                          (auditor ag) endpoints (destinationsCtx ag)) []) /\
    heap w' !! scanner
      = Some (OComponent
                (Scanner sources (GetInt cfg "logs_config.open_files_limit")
                         (pipelineProvider ag) (auditor ag)
                         DefaultSleepDuration) []) /\
    heap w' !! containers
      = Some (OComponent
                (ContainerLauncher sources services (pipelineProvider ag)
                                   (auditor ag)) []) /\
    heap w' !! listeners
      = Some (OComponent
                (ListenerLauncher sources
                                  (GetInt cfg "logs_config.frame_size")
                                  (pipelineProvider ag)) []) /\
    heap w' !! journal
      = Some (OComponent
                (JournaldLauncher sources (pipelineProvider ag)
                                  (auditor ag)) []) /\
    heap w' !! winevents
      = Some (OComponent
                (WindowsEventLauncher sources (pipelineProvider ag)) []).
Proof.
  rewrite NewAgent_ok. intros H. apply Ok_inj in H as Hw. 
  assert (Ha : a = (length (heap w) + 9)%nat) by (injection H; auto).
  subst a w'. cbn [heap log].
  set (n := length (heap w)).
  exists {| auditor := (n + 1)%nat; destinationsCtx := (n + 2)%nat;
            pipelineProvider := (n + 3)%nat;
            inputs := [n + 4; n + 5; n + 6; n + 7; n + 8]%nat;
            health := n |},
         (n + 4)%nat, (n + 5)%nat, (n + 6)%nat, (n + 7)%nat, (n + 8)%nat.
  unfold agent_components.
  cbn [auditor destinationsCtx pipelineProvider inputs health].
  subst n. rewrite !agent_objects_lookup.
  repeat split; try reflexivity.
  - rewrite take_app_length. reflexivity.
  - repeat (constructor;
            [rewrite ?not_elem_of_cons; repeat split; try lia;
             apply not_elem_of_nil|]).
    constructor.
  - repeat (constructor; [lia|]). constructor.
  - rewrite lookup_app_r by lia. rewrite Nat.sub_diag. reflexivity.
Qed.

Lemma NewAgent_wiring_witness :
  exists ag scanner containers listeners journal winevents,
    heap example_agent_world !! 14%nat = Some (OAgent ag) /\
    log example_agent_world = log example_world /\
    take (length (heap example_world)) (heap example_agent_world) = heap
        example_world /\
    inputs ag = [scanner; containers; listeners; journal; winevents] /\
    NoDup (14%nat :: health ag :: agent_components ag) /\
    Forall (fun r => (length (heap example_world) <= r)%nat)
           (14%nat :: health ag :: agent_components ag) /\
    heap example_agent_world !! health ag = Some (OHealth "logs-agent") /\
    heap example_agent_world !! auditor ag
      = Some (OComponent
                (Auditor (GetString example_config "logs_config.run_path")
                         (GetInt example_config
                             "logs_config.pipeline.buffer_size")
                         (health ag)) []) /\
    heap example_agent_world !! destinationsCtx ag
      = Some (OComponent DestinationsContext []) /\
    heap example_agent_world !! pipelineProvider ag
      = Some (OComponent
                (Provider (GetInt example_config "logs_config.pipeline.count")
                          (GetInt example_config
                              "logs_config.pipeline.buffer_size")
                          (auditor ag) 2%nat (destinationsCtx ag)) []) /\
    heap example_agent_world !! scanner
      = Some (OComponent
                (Scanner 0%nat (GetInt example_config
                    "logs_config.open_files_limit")
                         (pipelineProvider ag) (auditor ag)
                         1) []) /\
    heap example_agent_world !! containers
      = Some (OComponent
                (ContainerLauncher 0%nat 1%nat (pipelineProvider ag)
                                   (auditor ag)) []) /\
    heap example_agent_world !! listeners
      = Some (OComponent
                (ListenerLauncher 0%nat
                                  (GetInt example_config
                                      "logs_config.frame_size")
                                  (pipelineProvider ag)) []) /\
    heap example_agent_world !! journal
      = Some (OComponent
                (JournaldLauncher 0%nat (pipelineProvider ag)
                                  (auditor ag)) []) /\
    heap example_agent_world !! winevents
      = Some (OComponent
                (WindowsEventLauncher 0%nat (pipelineProvider ag)) []).
Proof.
  refine (NewAgent_wiring example_config 1 0%nat 1%nat 2%nat example_world
      14%nat example_agent_world _);
    vm_compute; reflexivity.
Defined.


(** *** Who is called, and how often *)

Lemma calls_of_insert_other (h : list Obj) (c r : ref) (o : Obj) :
  (forall k calls, o <> OComponent k calls) ->
  calls_of h c = None ->
  calls_of (<[c := o]> h) r = calls_of h r.
Proof.
  intros Hno Hc. unfold calls_of in *.
  destruct (decide (c = r)) as [->|Hne].
  - destruct (lt_dec r (length h)) as [Hlt|Hge].
    + rewrite list_lookup_insert_eq by assumption. rewrite Hc.
      destruct o; try reflexivity. exfalso. eapply Hno. reflexivity.
    + rewrite list_insert_ge by lia. reflexivity.
  - rewrite list_lookup_insert_ne by assumption. reflexivity.
Qed.

Lemma calls_of_beyond (h : list Obj) (r : ref) :
  (length h <= r)%nat -> calls_of h r = None.
Proof.
  intros Hge. unfold calls_of. rewrite (lookup_ge_None_2 h) by lia.
  reflexivity.
Qed.

Lemma stop_order_perm (ag : Agent) :
  Permutation (inputs ag ++ agent_stages ag) (agent_components ag).
Proof.
  unfold agent_components, agent_stages.
  rewrite Permutation_app_comm. cbn [app].
  change (Permutation
            (rev [destinationsCtx ag; auditor ag; pipelineProvider ag]
             ++ inputs ag)
            ([destinationsCtx ag; auditor ag; pipelineProvider ag]
             ++ inputs ag)).
  apply Permutation_app_tail. symmetry. apply Permutation_rev.
Qed.

Lemma count_once (l : list ref) (r : ref) :
  NoDup l -> In r l -> count_occ Nat.eq_dec l r = 1%nat.
Proof.
  intros Hnd Hin. apply NoDup_ListNoDup in Hnd.
  apply (proj1 (List.NoDup_count_occ' Nat.eq_dec l) Hnd), Hin.
Qed.

Lemma count_never (l : list ref) (r : ref) :
  ~ In r l -> count_occ Nat.eq_dec l r = 0%nat.
Proof. apply count_occ_not_In. Qed.

(** The histories after Agent.Start: each component has received Start
    as many times as it occurs among the agent's components. *)
Lemma Agent_Start_calls (sched : list nat) (fuel : nat) (a : ref)
    (ag : Agent) (w w1 : World) (r : ref) :
  heap w !! a = Some (OAgent ag) ->
  forallb (is_component (heap w)) (agent_components ag) = true ->
  Agent_Start sched (S (S fuel)) a w = Ok tt w1 ->
  calls_of (heap w1) r =
  option_map
    (fun cs => cs ++ repeat Start
                       (count_occ Nat.eq_dec (agent_components ag) r))
    (calls_of (heap w) r).
Proof.
  intros Ha Hcs Hstart.
  rewrite (Agent_Start_eq sched fuel a ag w Ha Hcs) in Hstart.
  apply Ok_inj in Hstart. subst w1. cbn [heap].
  rewrite calls_of_records, calls_of_app; [reflexivity|].
  constructor; [intros; discriminate|constructor].
Qed.

Lemma stopped_heap_calls (forced : bool) (ag : Agent) (h : list Obj)
    (r : ref) :
  calls_of (stopped_heap forced (length h) ag h) r =
  option_map
    (fun cs =>
       cs ++ repeat Stop (count_occ Nat.eq_dec (agent_components ag) r)
       ++ (if forced
           then if decide (destinationsCtx ag = r) then [Stop] else []
           else []))
    (calls_of h r).
Proof.
  assert (Hbase : forall x,
             calls_of
               (fold_left (record Stop) (inputs ag ++ agent_stages ag)
                          (h ++ stop_objects (length h) ag)) x
             = option_map
                 (fun cs =>
                    cs ++ repeat Stop
                            (count_occ Nat.eq_dec (agent_components ag) x))
                 (calls_of h x)).
  { intros x. rewrite calls_of_records, calls_of_app.
    - rewrite (proj1 (Permutation_count_occ Nat.eq_dec _ _)
                     (stop_order_perm ag) x).
      reflexivity.
    - repeat (constructor; [intros; discriminate|]). constructor. }
  unfold stopped_heap. cbv zeta.
  rewrite calls_of_insert_other.
  - destruct forced.
    + rewrite calls_of_record, Hbase.
      destruct (decide (destinationsCtx ag = r)).
      * destruct (calls_of h r); cbn; [|reflexivity].
        rewrite <- app_assoc. reflexivity.
      * destruct (calls_of h r); cbn; [|reflexivity].
        rewrite app_nil_r. reflexivity.
    + rewrite Hbase. destruct (calls_of h r); cbn; [|reflexivity].
      rewrite app_nil_r. reflexivity.
  - intros; discriminate.
  - destruct forced.
    + rewrite calls_of_record, Hbase.
      rewrite (calls_of_beyond h) by lia.
      destruct (decide _); reflexivity.
    + rewrite Hbase. rewrite (calls_of_beyond h) by lia. reflexivity.
Qed.

(** The histories after Agent.Stop: each component has received Stop as
    many times as it occurs among the agent's components, and the
    DestinationsContext once more on the timeout branch. *)
Lemma Agent_Stop_calls (cfg : Config) (sched : list nat) (fuel : nat)
    (rsched : list Choice) (a : ref) (ag : Agent) (w w2 : World)
    (r : ref) :
  heap w !! a = Some (OAgent ag) ->
  forallb (is_component (heap w)) (agent_components ag) = true ->
  Agent_Stop cfg sched (S (S (S fuel))) rsched a w = Ok tt w2 ->
  calls_of (heap w2) r =
  option_map
    (fun cs =>
       cs ++ repeat Stop (count_occ Nat.eq_dec (agent_components ag) r)
       ++ (if timed_out
                (exec (length (heap w) + 2)%nat (destinationsCtx ag)
                      (stop_timeout cfg) rsched
                      (race_init (stop_events sched (length (heap w)) ag)))
           then if decide (destinationsCtx ag = r) then [Stop] else []
           else []))
    (calls_of (heap w) r).
Proof.
  intros Ha Hcs Hstop.
  destruct (Agent_Stop_returns cfg sched fuel rsched a ag w w2 Ha Hcs
              Hstop) as [_ ->].
  cbn [heap]. apply stopped_heap_calls.
Qed.

(** What Agent.Stop adds to the log, and the state of the race it ends
    in. *)
Lemma Agent_Stop_log (cfg : Config) (sched : list nat) (fuel : nat)
    (rsched : list Choice) (a : ref) (ag : Agent) (w w2 : World) :
  heap w !! a = Some (OAgent ag) ->
  forallb (is_component (heap w)) (agent_components ag) = true ->
  Agent_Stop cfg sched (S (S (S fuel))) rsched a w = Ok tt w2 ->
  exists final,
    final = exec (length (heap w) + 2)%nat (destinationsCtx ag)
                 (stop_timeout cfg) rsched
                 (race_init (stop_events sched (length (heap w)) ag)) /\
    race_inv (length (heap w) + 2)%nat (destinationsCtx ag)
             (stop_timeout cfg) (stop_events sched (length (heap w)) ag)
             final /\
    pc final = PcReturned /\
    log w2 = log w ++ trace final /\
    worker_events (trace final)
      = stop_events sched (length (heap w)) ag
        ++ [CloseChan (length (heap w) + 2)%nat] /\
    main_events (trace final)
      = (if timed_out final then forced_events (destinationsCtx ag)
         else []) /\
    heap w2 !! (length (heap w) + 2)%nat = Some (OChan 0 [] true).
Proof.
  intros Ha Hcs Hstop.
  destruct (Agent_Stop_returns cfg sched fuel rsched a ag w w2 Ha Hcs
              Hstop) as [Hpc ->].
  eexists. split; [reflexivity|].
  assert (Hinv := exec_inv (length (heap w) + 2)%nat (destinationsCtx ag)
                    (stop_timeout cfg)
                    (stop_events sched (length (heap w)) ag) rsched _
                    (race_init_inv _ _ _ _)).
  destruct (returned_facts _ _ _ _ _ Hinv Hpc) as (Hw & _ & Hm & _).
  split; [exact Hinv|]. split; [exact Hpc|]. split; [reflexivity|].
  split; [exact Hw|]. split; [exact Hm|].
  cbn [heap]. unfold stopped_heap. cbv zeta.
  apply list_lookup_insert_eq.
  destruct (timed_out _); rewrite ?record_length, records_length, length_app;
    cbn [stop_objects length]; lia.
Qed.

(** X7.  Agent.Start keeps no record of having run: whatever the
    components have been through, when their pointers are distinct it
    adds exactly one Start to the history of each of the agent's
    components, and the history of every other component is as it
    was. *)
Theorem Agent_Start_calls_each_once (sched : list nat) (fuel : nat)
    (a : ref) (ag : Agent) (w w1 : World) :
  heap w !! a = Some (OAgent ag) ->
  forallb (is_component (heap w)) (agent_components ag) = true ->
  NoDup (agent_components ag) ->
  Agent_Start sched (S (S fuel)) a w = Ok tt w1 ->
  (forall r, In r (agent_components ag) ->
             exists cs, calls_of (heap w) r = Some cs /\
                        calls_of (heap w1) r = Some (cs ++ [Start])) /\
  (forall r, ~ In r (agent_components ag) ->
             calls_of (heap w1) r = calls_of (heap w) r).
Proof.
  intros Ha Hcs Hnd Hstart. split.
  - intros r Hin.
    rewrite (Agent_Start_calls sched fuel a ag w w1 r Ha Hcs Hstart).
    rewrite (count_once _ _ Hnd Hin).
    rewrite forallb_forall in Hcs. specialize (Hcs r Hin).
    apply is_component_spec in Hcs as (k & cs & Hr).
    exists cs. unfold calls_of. rewrite Hr. split; reflexivity.
  - intros r Hout.
    rewrite (Agent_Start_calls sched fuel a ag w w1 r Ha Hcs Hstart).
    rewrite (count_never _ _ Hout).
    destruct (calls_of (heap w) r); cbn; [rewrite app_nil_r|]; reflexivity.
Qed.

Lemma Agent_Start_calls_each_once_witness :
  (forall r, In r (agent_components example_agent) ->
             exists cs, calls_of (heap example_agent_world) r = Some cs /\
                        calls_of (heap example_started_world) r = Some (cs ++
                            [Start])) /\
  (forall r, ~ In r (agent_components example_agent) ->
             calls_of (heap example_started_world) r = calls_of (heap
                 example_agent_world) r).
Proof.
  refine (Agent_Start_calls_each_once [] 0 14%nat example_agent
      example_agent_world example_started_world _ _ _ _);
    [vm_compute; reflexivity
    |vm_compute; reflexivity
    |apply (bool_decide_unpack _); vm_compute; exact I
    |vm_compute; reflexivity].
Defined.


(** X8.  When Agent.Stop returns, and the agent's pointers are
    distinct, each of the agent's components has received exactly one
    more Stop, except the DestinationsContext on the timeout branch,
    which has received two: one from the calling goroutine and one from
    the stop sequence.  The history of every other component is as it
    was, and the channel of the race is closed. *)
Theorem Agent_Stop_calls_each_once (cfg : Config) (sched : list nat)
    (fuel : nat) (rsched : list Choice) (a : ref) (ag : Agent)
    (w w2 : World) :
  heap w !! a = Some (OAgent ag) ->
  forallb (is_component (heap w)) (agent_components ag) = true ->
  NoDup (agent_components ag) ->
  Agent_Stop cfg sched (S (S (S fuel))) rsched a w = Ok tt w2 ->
  exists new (forced : bool),
    log w2 = log w ++ new /\
    main_events new
      = (if forced then forced_events (destinationsCtx ag) else []) /\
    (forall r, In r (agent_components ag) ->
               exists cs,
                 calls_of (heap w) r = Some cs /\
                 calls_of (heap w2) r
                 = Some (cs ++ [Stop]
                         ++ (if forced
                             then if decide (destinationsCtx ag = r)
                                  then [Stop] else []
                             else []))) /\
    (forall cs, calls_of (heap w) (destinationsCtx ag) = Some cs ->
                calls_of (heap w2) (destinationsCtx ag)
                = Some (cs ++ if forced then [Stop; Stop] else [Stop])) /\
    (forall r, ~ In r (agent_components ag) ->
               calls_of (heap w2) r = calls_of (heap w) r) /\
    heap w2 !! (length (heap w) + 2)%nat = Some (OChan 0 [] true).
Proof.
  intros Ha Hcs Hnd Hstop.
  destruct (Agent_Stop_log cfg sched fuel rsched a ag w w2 Ha Hcs Hstop)
    as (final & Hfinal & _ & _ & Hlog & _ & Hmain & Hchan).
  exists (trace final), (timed_out final).
  split; [exact Hlog|]. split; [exact Hmain|].
  assert (Hcalls := fun r =>
            Agent_Stop_calls cfg sched fuel rsched a ag w w2 r Ha Hcs
                             Hstop).
  rewrite <- Hfinal in Hcalls.
  split; [|split; [|split]].
  - intros r Hin. rewrite Hcalls, (count_once _ _ Hnd Hin).
    rewrite forallb_forall in Hcs. specialize (Hcs r Hin).
    apply is_component_spec in Hcs as (k & cs & Hr).
    exists cs. unfold calls_of at 1 2. rewrite Hr. split; reflexivity.
  - intros cs Hctx. rewrite Hcalls, Hctx.
    rewrite (count_once _ (destinationsCtx ag) Hnd) by (left; reflexivity).
    cbn. destruct (timed_out final); [|reflexivity].
    destruct (decide _); [reflexivity|congruence].
  - intros r Hout. rewrite Hcalls, (count_never _ _ Hout).
    assert (Hne : destinationsCtx ag <> r)
      by (intros <-; apply Hout; left; reflexivity).
    destruct (decide _); [congruence|].
    destruct (calls_of (heap w) r); cbn; [|reflexivity].
    destruct (timed_out final); rewrite app_nil_r; reflexivity.
  - exact Hchan.
Qed.

Lemma Agent_Stop_calls_each_once_witness :
  exists new (forced : bool),
    log example_stopped_world = log example_started_world ++ new /\
    main_events new
      = (if forced then forced_events (destinationsCtx example_agent) else [])
          /\
    (forall r, In r (agent_components example_agent) ->
               exists cs,
                 calls_of (heap example_started_world) r = Some cs /\
                 calls_of (heap example_stopped_world) r
                 = Some (cs ++ [Stop]
                         ++ (if forced
                             then if decide (destinationsCtx example_agent = r)
                                  then [Stop] else []
                             else []))) /\
    (forall cs, calls_of (heap example_started_world) (destinationsCtx
        example_agent) = Some cs ->
                calls_of (heap example_stopped_world) (destinationsCtx
                    example_agent)
                = Some (cs ++ if forced then [Stop; Stop] else [Stop])) /\
    (forall r, ~ In r (agent_components example_agent) ->
               calls_of (heap example_stopped_world) r = calls_of (heap
                   example_started_world) r) /\
    heap example_stopped_world !! (length (heap example_started_world) +
        2)%nat = Some (OChan 0 [] true).
Proof.
  refine (Agent_Stop_calls_each_once example_config [3; 1; 0; 2]%nat 0
      example_race 14%nat example_agent example_started_world
      example_stopped_world _ _ _ _);
    [vm_compute; reflexivity
    |vm_compute; reflexivity
    |apply (bool_decide_unpack _); vm_compute; exact I
    |vm_compute; reflexivity].
Defined.


(** *** Time in the race *)

Lemma tick_of_nonneg (ch : Choice) : 0 <= tick_of ch.
Proof.
  destruct ch as [d| | |coin]; cbn; try lia.
  destruct (0 <? d) eqn:E; [apply Z.ltb_lt in E|]; lia.
Qed.

Lemma total_ticks_app (l l' : list Choice) :
  total_ticks (l ++ l') = total_ticks l + total_ticks l'.
Proof.
  unfold total_ticks. induction l as [|ch l IH]; cbn; [reflexivity|].
  fold (total_ticks (l ++ l')) in *. lia.
Qed.

Lemma total_ticks_workers (n : nat) : total_ticks (repeat RunWorker n) = 0.
Proof. induction n as [|n IH]; cbn; [reflexivity|exact IH]. Qed.

Lemma total_ticks_mains (coin : bool) (n : nat) :
  total_ticks (repeat (RunMain coin) n) = 0.
Proof. induction n as [|n IH]; cbn; [reflexivity|exact IH]. Qed.

Lemma total_ticks_finishing (s : Race) : total_ticks (finishing s) = 0.
Proof.
  unfold finishing.
  rewrite total_ticks_app, total_ticks_workers, total_ticks_mains.
  reflexivity.
Qed.

(** The clock moves only by the ticks of the schedule. *)
Lemma step_clock (c ctx : ref) (timeout : Z) (s : Race) (ch : Choice) :
  clock (step c ctx timeout s ch) <= clock s + tick_of ch.
Proof.
  destruct s as [clk pend cl dl fr to p tr].
  destruct ch as [d| | |coin]; destruct p; cbn;
    unfold step_worker, step_timer, step_main, say, set_pc,
      take_timer_case; cbn;
    repeat case_match; cbn; lia.
Qed.

Lemma exec_clock (c ctx : ref) (timeout : Z) (sched : list Choice)
    (s : Race) :
  clock (exec c ctx timeout sched s) <= clock s + total_ticks sched.
Proof.
  revert s. induction sched as [|ch sched IH]; intros s.
  - cbn. lia.
  - cbn [exec fold_left total_ticks fold_right].
    fold (total_ticks sched). specialize (IH (step c ctx timeout s ch)).
    unfold exec in IH. pose proof (step_clock c ctx timeout s ch). lia.
Qed.

(** The timer's send is in the trace only if it has happened. *)
Lemma step_logged_fired (c ctx : ref) (timeout : Z) (s : Race)
    (ch : Choice) :
  (In TimerFired (trace s) -> fired s = true) ->
  In TimerFired (trace (step c ctx timeout s ch)) ->
  fired (step c ctx timeout s ch) = true.
Proof.
  destruct s as [clk pend cl dl fr to p tr]. cbn. intros H.
  destruct ch as [d| | |coin]; destruct p; cbn;
    unfold step_worker, step_timer, step_main, say, set_pc,
      take_timer_case; cbn;
    repeat case_match; cbn; rewrite ?in_app_iff; cbn;
    intros Hin; auto;
    repeat match goal with
           | H : _ \/ _ |- _ => destruct H
           | H : False |- _ => destruct H
           end;
    auto; discriminate.
Qed.

Lemma logged_fired (c ctx : ref) (timeout : Z) (evs : list Event)
    (sched : list Choice) :
  In TimerFired (trace (exec c ctx timeout sched (race_init evs))) ->
  fired (exec c ctx timeout sched (race_init evs)) = true.
Proof.
  assert (H : forall s,
             (In TimerFired (trace s) -> fired s = true) ->
             In TimerFired (trace (exec c ctx timeout sched s)) ->
             fired (exec c ctx timeout sched s) = true).
  { induction sched as [|ch sched IH]; intros s Hs.
    - exact Hs.
    - cbn. apply IH. apply step_logged_fired, Hs. }
  apply H. cbn. intros [].
Qed.

(** Before the timeout has elapsed the timer has not fired. *)
Lemma not_fired_early (c ctx : ref) (timeout : Z) (evs : list Event)
    (sched : list Choice) :
  total_ticks sched < timeout ->
  fired (exec c ctx timeout sched (race_init evs)) = false.
Proof.
  intros Hearly.
  destruct (fired _) eqn:Hf; [|reflexivity].
  destruct (exec_inv c ctx timeout evs sched _
              (race_init_inv c ctx timeout evs))
    as (_ & _ & _ & Hdl & Hfr & _).
  destruct (Hfr Hf) as (d & Hd & Hle).
  specialize (Hdl d Hd).
  pose proof (exec_clock c ctx timeout sched (race_init evs)) as Hclk.
  cbn [race_init clock] in Hclk. lia.
Qed.

Lemma only_worker_events (l : list Event) :
  main_events l = [] -> ~ In TimerFired l ->
  l = map Worker (worker_events l).
Proof.
  induction l as [|e l IH]; intros Hm Hno; [reflexivity|].
  destruct e; cbn in *; try discriminate.
  - f_equal. apply IH; [assumption|]. intros Hin. apply Hno. right.
    exact Hin.
  - exfalso. apply Hno. left. reflexivity.
Qed.

(** X9.  If less than the timeout elapses while Agent.Stop runs, the
    shutdown is clean: when Stop returns, the timer has not fired, the
    calling goroutine has forced nothing, the log holds nothing but the
    stop sequence followed by the close of the channel, and every
    component has received Stop exactly as many times as it occurs among
    the agent's components. *)
Theorem Agent_Stop_within_grace (cfg : Config) (sched : list nat)
    (fuel : nat) (rsched : list Choice) (a : ref) (ag : Agent)
    (w w2 : World) :
  heap w !! a = Some (OAgent ag) ->
  forallb (is_component (heap w)) (agent_components ag) = true ->
  total_ticks rsched < stop_timeout cfg ->
  Agent_Stop cfg sched (S (S (S fuel))) rsched a w = Ok tt w2 ->
  log w2 = log w
           ++ map Worker (stop_events sched (length (heap w)) ag
                          ++ [CloseChan (length (heap w) + 2)%nat]) /\
  main_events (log w2) = main_events (log w) /\
  forall r,
    calls_of (heap w2) r
    = option_map
        (fun cs => cs ++ repeat Stop
                           (count_occ Nat.eq_dec (agent_components ag) r))
        (calls_of (heap w) r).
Proof.
  intros Ha Hcs Hearly Hstop.
  destruct (Agent_Stop_log cfg sched fuel rsched a ag w w2 Ha Hcs Hstop)
    as (final & Hfinal & Hinv & _ & Hlog & Hworker & Hmain & _).
  assert (Hnf : fired final = false)
    by (subst final; apply not_fired_early, Hearly).
  assert (Hnt : timed_out final = false).
  { destruct (timed_out final) eqn:Ht; [|reflexivity].
    destruct Hinv as (_ & _ & _ & _ & _ & Hto & _).
    rewrite (Hto Ht) in Hnf. discriminate. }
  rewrite Hnt in Hmain.
  assert (Hno : ~ In TimerFired (trace final)).
  { intros Hin. subst final. apply logged_fired in Hin.
    rewrite Hin in Hnf. discriminate. }
  split; [|split].
  - rewrite Hlog, (only_worker_events _ Hmain Hno), Hworker. reflexivity.
  - rewrite Hlog, main_events_app, Hmain, app_nil_r. reflexivity.
  - intros r.
    rewrite (Agent_Stop_calls cfg sched fuel rsched a ag w w2 r Ha Hcs
               Hstop).
    rewrite <- Hfinal, Hnt.
    destruct (calls_of (heap w) r); cbn; [|reflexivity].
    rewrite app_nil_r. reflexivity.
Qed.

Lemma Agent_Stop_within_grace_witness :
  log example_clean_stop = log example_started_world
           ++ map Worker (stop_events [3; 1; 0; 2]%nat (length (heap
               example_started_world)) example_agent
                          ++ [CloseChan (length (heap example_started_world) +
                              2)%nat]) /\
  main_events (log example_clean_stop) = main_events (log
      example_started_world) /\
  forall r,
    calls_of (heap example_clean_stop) r
    = option_map
        (fun cs => cs ++ repeat Stop
                           (count_occ Nat.eq_dec (agent_components
                               example_agent) r))
        (calls_of (heap example_started_world) r).
Proof.
  refine (Agent_Stop_within_grace example_config [3; 1; 0; 2]%nat 0
      example_clean_race 14%nat example_agent example_started_world
      example_clean_stop _ _ _ _);
    [vm_compute; reflexivity
    |vm_compute; reflexivity
    |vm_compute; reflexivity
    |vm_compute; reflexivity].
Defined.


(** With a timeout that is not positive, the timer may fire as soon as
    the select is entered. *)
Lemma hasty_stop (cfg : Config) (sched : list nat) (fuel : nat) (a : ref)
    (ag : Agent) (w : World) :
  heap w !! a = Some (OAgent ag) ->
  forallb (is_component (heap w)) (agent_components ag) = true ->
  stop_timeout cfg <= 0 ->
  exists rsched w2 new,
    total_ticks rsched = 0 /\
    Agent_Stop cfg sched (S (S (S fuel))) rsched a w = Ok tt w2 /\
    log w2 = log w ++ new /\
    In TimerFired new /\
    main_events new = forced_events (destinationsCtx ag).
Proof.
  intros Ha Hcs Hneg.
  set (c := (length (heap w) + 2)%nat). set (ctx := destinationsCtx ag).
  set (T := stop_timeout cfg) in *.
  set (evs := stop_events sched (length (heap w)) ag).
  set (s1 := exec c ctx T hasty (race_init evs)).
  assert (Hto1 : timed_out s1 = true /\ fired s1 = true).
  { subst s1. cbn. unfold step_timer. cbn.
    destruct (0 + T <=? 0) eqn:E; [|apply Z.leb_gt in E; lia].
    cbn. split; reflexivity. }
  assert (Hinv1 : race_inv c ctx T evs s1)
    by (apply exec_inv, race_init_inv).
  pose proof (can_finish c ctx T evs s1 Hinv1) as Hfin.
  set (final := exec c ctx T (finishing s1) s1) in *.
  assert (Hfinal : exec c ctx T (hasty ++ finishing s1) (race_init evs)
                   = final)
    by (rewrite exec_app; reflexivity).
  assert (Hinv : race_inv c ctx T evs final)
    by (subst final; apply exec_inv, Hinv1).
  assert (Hto : timed_out final = true)
    by (subst final; apply exec_timed_out, Hto1).
  destruct (returned_facts c ctx T evs final Hinv Hfin)
    as (_ & _ & Hmain & _).
  rewrite Hto in Hmain.
  exists (hasty ++ finishing s1).
  rewrite (Agent_Stop_eq cfg sched fuel _ a ag w Ha Hcs).
  fold c ctx T evs. rewrite Hfinal, Hfin.
  eexists _, (trace final).
  split; [rewrite total_ticks_app, total_ticks_finishing; reflexivity|].
  split; [reflexivity|]. split; [reflexivity|].
  split; [|exact Hmain].
  rewrite <- Hfinal. apply fired_logged. rewrite Hfinal.
  destruct Hinv as (_ & _ & _ & _ & _ & Hf & _). apply Hf, Hto.
Qed.

(** X10.  With a stop_grace_period that gives a timeout of zero or less,
    Agent.Stop can force the stop before any time has passed: there is a
    schedule without a single tick on which the timer fires and Stop
    returns having called DestinationsContext.Stop() itself. *)
Theorem Agent_Stop_no_grace (cfg : Config) (sched : list nat) (fuel : nat)
    (a : ref) (ag : Agent) (w : World) :
  heap w !! a = Some (OAgent ag) ->
  forallb (is_component (heap w)) (agent_components ag) = true ->
  stop_timeout cfg <= 0 ->
  exists rsched w2 new,
    total_ticks rsched = 0 /\
    Agent_Stop cfg sched (S (S (S fuel))) rsched a w = Ok tt w2 /\
    log w2 = log w ++ new /\
    In TimerFired new /\
    main_events new = forced_events (destinationsCtx ag).
Proof. apply hasty_stop. Qed.

Lemma Agent_Stop_no_grace_witness :
  exists rsched w2 new,
    total_ticks rsched = 0 /\
    Agent_Stop example_config_no_grace [3; 1; 0; 2]%nat (S (S (S 0))) rsched
        14%nat example_started_world = Ok tt w2 /\
    log w2 = log example_started_world ++ new /\
    In TimerFired new /\
    main_events new = forced_events (destinationsCtx example_agent).
Proof.
  refine (Agent_Stop_no_grace example_config_no_grace [3; 1; 0; 2]%nat 0
      14%nat example_agent example_started_world _ _ _);
    [vm_compute; reflexivity
    |vm_compute; reflexivity
    |apply Z.leb_le; vm_compute; reflexivity].
Defined.


(** X11.  The timeout is computed in int64 nanoseconds, so a
    stop_grace_period from 9223372037 to 18446744073 seconds overflows:
    the timeout is the product less 2^64, a negative duration, and Stop
    can then force the stop before any time has passed. *)
Theorem stop_grace_period_overflow (cfg : Config) (sched : list nat)
    (fuel : nat) (a : ref) (ag : Agent) (w : World) :
  heap w !! a = Some (OAgent ag) ->
  forallb (is_component (heap w)) (agent_components ag) = true ->
  9223372037 <= GetInt cfg "logs_config.stop_grace_period"
             <= 18446744073 ->
  stop_timeout cfg
    = GetInt cfg "logs_config.stop_grace_period" * 1000000000 - 2 ^ 64 /\
  stop_timeout cfg < 0 /\
  exists rsched w2 new,
    total_ticks rsched = 0 /\
    Agent_Stop cfg sched (S (S (S fuel))) rsched a w = Ok tt w2 /\
    log w2 = log w ++ new /\
    main_events new = forced_events (destinationsCtx ag).
Proof.
  intros Ha Hcs Hbig.
  assert (Hval : stop_timeout cfg
                 = GetInt cfg "logs_config.stop_grace_period" * 1000000000
                   - 2 ^ 64).
  { unfold stop_timeout, wrap64, Second.
    set (n := GetInt cfg _) in *.
    change (2 ^ 63) with 9223372036854775808.
    change (2 ^ 64) with 18446744073709551616.
    rewrite (Z.mod_small (n + _)) by lia.
    replace (n + 9223372036854775808 - 9223372036854775808) with n by lia.
    replace (n * 1000000000 + 9223372036854775808)
      with (n * 1000000000 - 9223372036854775808
            + 1 * 18446744073709551616) by lia.
    rewrite Z.mod_add by lia. rewrite Z.mod_small by lia. lia. }
  assert (Hneg : stop_timeout cfg < 0).
  { rewrite Hval. change (2 ^ 64) with 18446744073709551616. lia. }
  split; [exact Hval|]. split; [exact Hneg|].
  destruct (hasty_stop cfg sched fuel a ag w Ha Hcs ltac:(lia))
    as (rsched & w2 & new & Ht & Hok & Hlog & _ & Hmain).
  exists rsched, w2, new. repeat split; assumption.
Qed.

Lemma stop_grace_period_overflow_witness :
  stop_timeout example_config_overflow
    = GetInt example_config_overflow "logs_config.stop_grace_period" *
        1000000000 - 2 ^ 64 /\
  stop_timeout example_config_overflow < 0 /\
  exists rsched w2 new,
    total_ticks rsched = 0 /\
    Agent_Stop example_config_overflow [3; 1; 0; 2]%nat (S (S (S 0))) rsched
        14%nat example_started_world = Ok tt w2 /\
    log w2 = log example_started_world ++ new /\
    main_events new = forced_events (destinationsCtx example_agent).
Proof.
  refine (stop_grace_period_overflow example_config_overflow [3; 1; 0; 2]%nat
      0 14%nat example_agent example_started_world _ _ _);
    [vm_compute; reflexivity
    |vm_compute; reflexivity
    |split; apply Z.leb_le; vm_compute; reflexivity].
Defined.


(** *** Start, then Stop *)

Lemma Agent_Start_keeps (sched : list nat) (fuel : nat) (a : ref)
    (ag : Agent) (w w1 : World) :
  heap w !! a = Some (OAgent ag) ->
  forallb (is_component (heap w)) (agent_components ag) = true ->
  Agent_Start sched (S (S fuel)) a w = Ok tt w1 ->
  heap w1 !! a = Some (OAgent ag) /\
  forallb (is_component (heap w1)) (agent_components ag) = true /\
  heap w1 = fold_left (record Start) (agent_components ag)
                      (heap w ++ [OStarter (agent_components ag)]) /\
  length (heap w1) = S (length (heap w)) /\
  log w1 = log w ++ Invoke (length (heap w)) Start
           :: flat_map (call_events Start) (agent_components ag)
           ++ [Return (length (heap w)) Start].
Proof.
  intros Ha Hcs Hstart.
  rewrite (Agent_Start_eq sched fuel a ag w Ha Hcs) in Hstart.
  apply Ok_inj in Hstart. subst w1. cbn [heap log].
  split; [|split; [|split; [|split]]].
  - apply records_frame; [|intros; discriminate].
    apply lookup_app_l_Some, Ha.
  - apply components_records, components_app, Hcs.
  - reflexivity.
  - rewrite records_length, length_app. cbn. lia.
  - reflexivity.
Qed.

Lemma record_other (m : Method) (h : list Obj) (x r : ref) :
  x <> r -> record m h x !! r = h !! r.
Proof.
  intros Hne. unfold record.
  destruct (h !! x) as [o|]; [|reflexivity].
  destruct o; try reflexivity.
  apply list_lookup_insert_ne, Hne.
Qed.

Lemma records_other (m : Method) (rs : list ref) (h : list Obj) (r : ref) :
  ~ In r rs -> fold_left (record m) rs h !! r = h !! r.
Proof.
  revert h. induction rs as [|x rs IH]; intros h Hout; [reflexivity|].
  cbn [fold_left]. rewrite IH by (intros Hin; apply Hout; right; exact Hin).
  apply record_other. intros ->. apply Hout. left. reflexivity.
Qed.

Lemma stopped_heap_other (forced : bool) (ag : Agent) (h : list Obj)
    (r : ref) :
  (r < length h)%nat -> ~ In r (agent_components ag) ->
  stopped_heap forced (length h) ag h !! r = h !! r.
Proof.
  intros Hlt Hout. unfold stopped_heap. cbv zeta.
  rewrite list_lookup_insert_ne by lia.
  assert (Hout' : ~ In r (inputs ag ++ agent_stages ag)).
  { intros Hin. apply Hout.
    apply (Permutation_in _ (stop_order_perm ag)), Hin. }
  assert (Hctx : destinationsCtx ag <> r)
    by (intros <-; apply Hout; left; reflexivity).
  destruct forced; rewrite ?record_other by assumption;
    rewrite records_other by assumption;
    apply lookup_app_l; assumption.
Qed.


(** X12.  The agent that NewAgent builds goes through its whole life
    without touching anything else: after Start and then Stop, each of
    its eight components has received exactly one Start followed by one
    Stop, the DestinationsContext a second Stop on the timeout branch,
    and every object that was in the store before NewAgent is as it
    was. *)
Theorem Agent_full_lifecycle (cfg : Config) (DefaultSleepDuration : Z)
    (sources services endpoints : ref) (sched : list nat) (fuel : nat)
    (rsched : list Choice) (w : World) (a : ref) (w0 w1 w2 : World) :
  NewAgent cfg DefaultSleepDuration sources services endpoints w
    = Ok a w0 ->
  Agent_Start sched (S (S fuel)) a w0 = Ok tt w1 ->
  Agent_Stop cfg sched (S (S (S fuel))) rsched a w1 = Ok tt w2 ->
  exists ag (forced : bool) new,
    heap w2 !! a = Some (OAgent ag) /\
    length (agent_components ag) = 8%nat /\
    log w2 = log w1 ++ new /\
    main_events new
      = (if forced then forced_events (destinationsCtx ag) else []) /\
    (forall r,
       In r (agent_components ag) ->
       calls_of (heap w2) r
       = Some ([Start; Stop]
               ++ (if forced
                   then if decide (destinationsCtx ag = r) then [Stop]
                        else []
                   else []))) /\
    forall r o, heap w !! r = Some o -> heap w2 !! r = Some o.
Proof.
  intros Hnew Hstart Hstop.
  rewrite NewAgent_ok in Hnew.
  assert (Ha : a = (length (heap w) + 9)%nat) by (injection Hnew; auto).
  apply Ok_inj in Hnew. subst a.
  set (n := length (heap w)) in *.
  set (ag := {| auditor := (n + 1)%nat; destinationsCtx := (n + 2)%nat;
                pipelineProvider := (n + 3)%nat;
                inputs := [n + 4; n + 5; n + 6; n + 7; n + 8]%nat;
                health := n |}).
  assert (Hheap0 : heap w0
                   = heap w ++ agent_objects n cfg DefaultSleepDuration
                                             sources services endpoints)
    by (subst w0; reflexivity).
  assert (Ha0 : heap w0 !! (n + 9)%nat = Some (OAgent ag)).
  { rewrite Hheap0. subst n. rewrite agent_objects_lookup. reflexivity. }
  assert (Hnew0 : forall r,
             In r (agent_components ag) ->
             (n <= r)%nat /\ calls_of (heap w0) r = Some []).
  { intros r Hin. unfold calls_of. rewrite Hheap0.
    cbn in Hin.
    repeat (destruct Hin as [<-|Hin];
            [split; [lia|subst n; rewrite agent_objects_lookup;
                          reflexivity]|]).
    destruct Hin. }
  assert (Hcs0 : forallb (is_component (heap w0)) (agent_components ag)
                 = true).
  { apply forallb_forall. intros r Hin.
    destruct (Hnew0 r Hin) as [_ Hc].
    eapply calls_of_component, Hc. }
  assert (Hnd : NoDup (agent_components ag)).
  { unfold agent_components. cbn [ag destinationsCtx auditor
                                  pipelineProvider inputs].
    repeat (constructor;
            [rewrite ?not_elem_of_cons; repeat split; try lia;
             apply not_elem_of_nil|]).
    constructor. }
  destruct (Agent_Start_keeps sched fuel _ ag w0 w1 Ha0 Hcs0 Hstart)
    as (Ha1 & Hcs1 & Hheap1 & Hlen1 & _).
  destruct (Agent_Stop_log cfg sched fuel rsched _ ag w1 w2 Ha1 Hcs1 Hstop)
    as (final & Hfinal & _ & _ & Hlog & _ & Hmain & _).
  destruct (Agent_Stop_returns cfg sched fuel rsched _ ag w1 w2 Ha1 Hcs1
              Hstop) as [_ Hw2].
  rewrite <- Hfinal in Hw2.
  exists ag, (timed_out final), (trace final).
  split; [|split; [reflexivity|]].
  - rewrite Hw2. cbn [heap].
    apply stopped_heap_frame; [|intros; discriminate|].
    + apply lookup_app_l_Some, Ha1.
    + apply lookup_lt_Some in Ha1. lia.
  - split; [exact Hlog|]. split; [exact Hmain|]. split.
    + intros r Hin. destruct (Hnew0 r Hin) as [_ Hc0].
      rewrite (Agent_Stop_calls cfg sched fuel rsched _ ag w1 w2 r Ha1
                 Hcs1 Hstop).
      rewrite (Agent_Start_calls sched fuel _ ag w0 w1 r Ha0 Hcs0 Hstart).
      rewrite Hc0, (count_once _ _ Hnd Hin), <- Hfinal. reflexivity.
    + intros r o Hr.
      assert (Hlt : (r < n)%nat) by (eapply lookup_lt_Some, Hr).
      assert (Hout : ~ In r (agent_components ag)).
      { intros Hin. destruct (Hnew0 r Hin) as [Hge _]. lia. }
      assert (Hlen0 : (n <= length (heap w0))%nat)
        by (rewrite Hheap0, length_app; lia).
      rewrite Hw2. cbn [heap].
      rewrite stopped_heap_other by (assumption || lia).
      rewrite Hheap1, records_other by assumption.
      rewrite lookup_app_l by lia.
      rewrite Hheap0. apply lookup_app_l_Some, Hr.
Qed.

Lemma Agent_full_lifecycle_witness :
  exists ag (forced : bool) new,
    heap example_stopped_world !! 14%nat = Some (OAgent ag) /\
    length (agent_components ag) = 8%nat /\
    log example_stopped_world = log example_started_world ++ new /\
    main_events new
      = (if forced then forced_events (destinationsCtx ag) else []) /\
    (forall r,
       In r (agent_components ag) ->
       calls_of (heap example_stopped_world) r
       = Some ([Start; Stop]
               ++ (if forced
                   then if decide (destinationsCtx ag = r) then [Stop]
                        else []
                   else []))) /\
    forall r o, heap example_world !! r = Some o -> heap example_stopped_world
        !! r = Some o.
Proof.
  refine (Agent_full_lifecycle example_config 1 0%nat 1%nat 2%nat [3; 1; 0;
      2]%nat 0 example_race example_world 14%nat example_agent_world
      example_started_world example_stopped_world _ _ _);
    [vm_compute; reflexivity
    |vm_compute; reflexivity
    |vm_compute; reflexivity].
Defined.


(** *** Nothing is forced early *)

(** The trace only grows. *)
Lemma step_trace_grows (c ctx : ref) (timeout : Z) (s : Race)
    (ch : Choice) :
  exists l, trace (step c ctx timeout s ch) = trace s ++ l.
Proof.
  destruct s as [clk pend cl dl fr to p tr].
  destruct ch as [d| | |coin]; destruct p; cbn;
    unfold step_worker, step_timer, step_main, say, set_pc,
      take_timer_case; cbn;
    repeat case_match; cbn;
    solve [exists []; rewrite app_nil_r; reflexivity | eexists; reflexivity].
Qed.

Lemma exec_trace_grows (c ctx : ref) (timeout : Z) (sched : list Choice)
    (s : Race) :
  exists l, trace (exec c ctx timeout sched s) = trace s ++ l.
Proof.
  revert s. induction sched as [|ch sched IH]; intros s.
  - exists []. rewrite app_nil_r. reflexivity.
  - cbn [exec fold_left].
    destruct (step_trace_grows c ctx timeout s ch) as (l1 & H1).
    destruct (IH (step c ctx timeout s ch)) as (l2 & H2).
    exists (l1 ++ l2). unfold exec in H2. rewrite H2, H1, app_assoc.
    reflexivity.
Qed.

(** Until the select has taken the timer case, the calling goroutine has
    logged nothing. *)
Lemma quiet_until_timed_out (c ctx : ref) (timeout : Z)
    (evs : list Event) (s : Race) :
  race_inv c ctx timeout evs s -> timed_out s = false ->
  main_events (trace s) = [].
Proof.
  destruct s as [clk pend cl dl fr to p tr]. unfold race_inv. cbn.
  intros (_ & _ & _ & _ & _ & _ & Hpc) ->.
  destruct p; destruct_and?; try assumption; discriminate.
Qed.

(** X14.  Agent.Stop forces nothing before the timeout has elapsed, also
    on a run that times out later: whatever part of the schedule takes
    less than the timeout, what has been logged by its end is a
    beginning of what Stop logs in all, holds no timer event and holds
    nothing but events of the stop sequence. *)
Theorem Agent_Stop_never_forces_early (cfg : Config) (sched : list nat)
    (fuel : nat) (prefix rest : list Choice) (a : ref) (ag : Agent)
    (w w2 : World) :
  heap w !! a = Some (OAgent ag) ->
  forallb (is_component (heap w)) (agent_components ag) = true ->
  total_ticks prefix < stop_timeout cfg ->
  Agent_Stop cfg sched (S (S (S fuel))) (prefix ++ rest) a w = Ok tt w2 ->
  exists early later,
    early = trace (exec (length (heap w) + 2)%nat (destinationsCtx ag)
                        (stop_timeout cfg) prefix
                        (race_init
                           (stop_events sched (length (heap w)) ag))) /\
    log w2 = log w ++ early ++ later /\
    main_events early = [] /\
    ~ In TimerFired early /\
    early = map Worker (worker_events early) /\
    main_events later
      = main_events (drop (length (log w)) (log w2)).
Proof.
  intros Ha Hcs Hearly Hstop.
  destruct (Agent_Stop_log cfg sched fuel (prefix ++ rest) a ag w w2 Ha Hcs
              Hstop)
    as (final & Hfinal & _ & _ & Hlog & _ & _ & _).
  set (c := (length (heap w) + 2)%nat) in *.
  set (ctx := destinationsCtx ag) in *.
  set (T := stop_timeout cfg) in *.
  set (evs := stop_events sched (length (heap w)) ag) in *.
  set (mid := exec c ctx T prefix (race_init evs)).
  assert (Hinv : race_inv c ctx T evs mid)
    by (apply exec_inv, race_init_inv).
  assert (Hnf : fired mid = false) by (apply not_fired_early, Hearly).
  assert (Hnt : timed_out mid = false).
  { destruct (timed_out mid) eqn:Ht; [|reflexivity].
    destruct Hinv as (_ & _ & _ & _ & _ & Hto & _).
    rewrite (Hto Ht) in Hnf. discriminate. }
  assert (Hquiet : main_events (trace mid) = [])
    by (eapply quiet_until_timed_out; eassumption).
  assert (Hno : ~ In TimerFired (trace mid)).
  { intros Hin. apply logged_fired in Hin. fold mid in Hin.
    rewrite Hin in Hnf. discriminate. }
  destruct (exec_trace_grows c ctx T rest mid) as (later & Hlater).
  rewrite exec_app in Hfinal. fold mid in Hfinal. rewrite <- Hfinal in Hlater.
  exists (trace mid), later.
  split; [reflexivity|].
  split; [rewrite Hlog, Hlater; reflexivity|].
  split; [exact Hquiet|]. split; [exact Hno|].
  split; [apply only_worker_events; assumption|].
  rewrite Hlog, drop_app_length, Hlater, main_events_app, Hquiet.
  reflexivity.
Qed.

Lemma Agent_Stop_never_forces_early_witness :
  exists early later,
    early = trace (exec (length (heap example_started_world) + 2)%nat
        (destinationsCtx example_agent)
                        (stop_timeout example_config) example_race_early
                        (race_init
                           (stop_events [3; 1; 0; 2]%nat (length (heap
                               example_started_world)) example_agent))) /\
    log example_stopped_world = log example_started_world ++ early ++ later /\
    main_events early = [] /\
    ~ In TimerFired early /\
    early = map Worker (worker_events early) /\
    main_events later
      = main_events (drop (length (log example_started_world)) (log
          example_stopped_world)).
Proof.
  refine (Agent_Stop_never_forces_early example_config [3; 1; 0; 2]%nat 0
      example_race_early example_race_late 14%nat example_agent
      example_started_world example_stopped_world _ _ _ _);
    [vm_compute; reflexivity
    |vm_compute; reflexivity
    |vm_compute; reflexivity
    |vm_compute; reflexivity].
Defined.

(** ** Serial order of the stop-groups: claim C2 *)

Lemma completed_before_split (e1 e2 : Event) (L1 L2 : list Event) :
  In e1 L1 -> ~ In e2 L1 -> completed_before e1 e2 (L1 ++ L2).
Proof.
  intros H1 H2 l1 l2 Heq.
  apply app_eq_app in Heq as (l' & [[-> Hl]|[-> Hl]]).
  - destruct l' as [|x l'].
    + rewrite app_nil_r in H1. exact H1.
    + inversion Hl; subst. exfalso. apply H2.
      apply in_or_app. right. left. reflexivity.
  - apply in_or_app. left. exact H1.
Qed.

Lemma filter_split {A} (P : A -> bool) (L l1 l2 : list A) (x : A) :
  List.filter P L = l1 ++ x :: l2 ->
  exists L1 L2, L = L1 ++ x :: L2 /\ List.filter P L1 = l1 /\
                List.filter P L2 = l2.
Proof.
  revert l1. induction L as [|y L IH]; intros l1 H.
  - destruct l1; discriminate.
  - cbn in H. destruct (P y) eqn:Hy.
    + destruct l1 as [|z l1]; cbn in H; inversion H; subst.
      * exists [], L. cbn. auto.
      * destruct (IH l1 H2) as (L1 & L2 & -> & <- & <-).
        exists (z :: L1), L2. cbn. rewrite Hy. auto.
    + destruct (IH l1 H) as (L1 & L2 & -> & <- & <-).
      exists (y :: L1), L2. cbn. rewrite Hy. auto.
Qed.

Lemma completed_before_filter (P : Event -> bool) (e1 e2 : Event)
    (l : list Event) :
  P e1 = true ->
  completed_before e1 e2 l -> completed_before e1 e2 (List.filter P l).
Proof.
  intros HP H l1 l2 Heq.
  apply filter_split in Heq as (L1 & L2 & -> & <- & _).
  apply filter_In. split; [|exact HP]. apply (H L1 L2 eq_refl).
Qed.

Lemma In_main_events (e : Event) (l : list Event) :
  In e l -> is_call e = true -> In e (main_events l).
Proof.
  induction l as [|x l IH]; intros Hin Hc; [destruct Hin|].
  destruct Hin as [->|Hin].
  - destruct e; try discriminate; left; reflexivity.
  - destruct x; cbn; auto.
Qed.

Lemma In_all_calls (e : Event) (l : list Event) :
  In e (worker_events l) -> is_call e = true -> In e (all_calls l).
Proof.
  intros Hin Hc. apply filter_In. split; [|exact Hc].
  apply in_map_iff. exists (Worker e). split; [reflexivity|].
  apply worker_events_In, Hin.
Qed.

(** A call that the calling goroutine never makes is, in the whole log,
    preceded by what precedes it on the goroutine. *)
Lemma completed_before_all_calls (e1 e2 : Event) (l : list Event) :
  is_call e1 = true -> is_call e2 = true ->
  ~ In e2 (main_events l) ->
  completed_before e1 e2 (worker_events l) ->
  completed_before e1 e2 (all_calls l).
Proof.
  intros H1 H2 Hmain Hw l1 l2 Heq. unfold all_calls in Heq.
  apply filter_split in Heq as (M1 & M2 & Hmap & <- & _).
  apply map_eq_app in Hmap as (la & lb' & -> & <- & Hmap').
  destruct lb' as [|x lb]; [discriminate|]. cbn in Hmap'.
  injection Hmap' as Hx _.
  assert (Hxw : x = Worker e2).
  { destruct x; cbn in Hx; subst; try discriminate; try reflexivity;
      exfalso; apply Hmain; apply In_main_events; cbn; auto;
      apply in_or_app; right; left; reflexivity. }
  subst x. rewrite worker_events_app in Hw. cbn in Hw.
  apply (In_all_calls e1 la); [|exact H1].
  apply (Hw (worker_events la) (worker_events lb)). reflexivity.
Qed.

Lemma inputs_stop_events_In (sched : list nat) (ag : Agent) (e : Event) :
  In e (inputs_stop_events sched ag) <->
  exists x, In x (inputs ag) /\ (e = Invoke x Stop \/ e = Return x Stop).
Proof.
  split.
  - intros H.
    apply (Permutation_in _ (inputs_stop_events_perm sched ag)) in H.
    apply in_flat_map in H as (x & Hx & [<-|[<-|[]]]); eauto.
  - intros (x & Hx & He).
    apply (Permutation_in _
             (Permutation_sym (inputs_stop_events_perm sched ag))).
    apply in_flat_map. exists x. split; [exact Hx|].
    destruct He as [->| ->]; cbn; auto.
Qed.

(** The stop sequence visits the groups one after the other. *)
Lemma stop_events_in_order (sched : list nat) (n : nat) (ag : Agent)
    (c : ref) :
  NoDup (agent_components ag) ->
  (forall r, In r (agent_components ag) -> (r < n)%nat) ->
  stops_in_order (stop_groups ag) (stop_events sched n ag ++ [CloseChan c]).
Proof.
  intros Hnd Hlt i j gi gj r r' Hi Hj Hij Hr Hr'.
  unfold agent_components in Hnd, Hlt.
  apply NoDup_ListNoDup in Hnd.
  inversion Hnd as [|? ? Hc Hnd1]; subst.
  inversion Hnd1 as [|? ? Ha Hnd2]; subst.
  inversion Hnd2 as [|? ? Hp _]; subst.
  cbn [In] in Hc, Ha.
  assert (Hlc := Hlt (destinationsCtx ag) ltac:(cbn; auto)).
  assert (Hla := Hlt (auditor ag) ltac:(cbn; auto)).
  assert (Hlp := Hlt (pipelineProvider ag) ltac:(cbn; auto)).
  assert (Hli : forall x, In x (inputs ag) -> (x < n)%nat)
    by (intros x Hx; apply Hlt; cbn; auto).
  set (G := inputs_stop_events sched ag).
  assert (HG := inputs_stop_events_In sched ag). fold G in HG.
  set (A := [Invoke (n + 1)%nat Stop; Invoke n Stop] ++ G).
  set (B := [Return n Stop; Invoke (pipelineProvider ag) Stop;
             Return (pipelineProvider ag) Stop]).
  set (C := [Invoke (auditor ag) Stop; Return (auditor ag) Stop]).
  set (D := [Invoke (destinationsCtx ag) Stop;
             Return (destinationsCtx ag) Stop;
             Return (n + 1)%nat Stop; CloseChan c]).
  assert (HL : stop_events sched n ag ++ [CloseChan c]
               = A ++ B ++ C ++ D).
  { unfold stop_events, agent_stages, A, B, C, D. fold G.
    cbn [flat_map call_events app].
    repeat (rewrite <- ?app_assoc; cbn [app]). reflexivity. }
  rewrite HL.
  assert (HA : forall x, In (Invoke x Stop) A -> In x (inputs ag) \/
                                                 (n <= x)%nat).
  { intros x. unfold A. rewrite in_app_iff. cbn [In].
    intros [[H|[H|[]]]|H].
    - injection H as <-. right. lia.
    - injection H as <-. right. lia.
    - apply HG in H as (y & Hy & [H|H]); [|discriminate].
      injection H as <-. left. exact Hy. }
  unfold stop_groups in Hi, Hj.
  destruct i as [|[|[|[|i]]]]; cbn in Hi; try discriminate;
    injection Hi as <-;
    (destruct j as [|[|[|[|j]]]]; cbn in Hj; try discriminate; try lia;
     injection Hj as <-);
    cbn [In] in Hr, Hr';
    repeat match goal with
           | H : _ \/ False |- _ => destruct H as [H|[]]
           end; subst.
  - (* inputs before the provider *)
    apply completed_before_split.
    + unfold A. apply in_or_app. right. apply HG. eauto.
    + intros H. apply HA in H as [H|H]; [tauto|lia].
  - apply completed_before_split.
    + unfold A. apply in_or_app. right. apply HG. eauto.
    + intros H. apply HA in H as [H|H]; [tauto|lia].
  - apply completed_before_split.
    + unfold A. apply in_or_app. right. apply HG. eauto.
    + intros H. apply HA in H as [H|H]; [tauto|lia].
  - (* the provider before the auditor and the context *)
    rewrite app_assoc. apply completed_before_split.
    + apply in_or_app. right. cbn. auto.
    + rewrite in_app_iff. intros [H|H].
      * apply HA in H as [H|H]; [tauto|lia].
      * cbn in H. destruct H as [H|[H|[H|[]]]]; try discriminate.
        injection H as H. tauto.
  - rewrite app_assoc. apply completed_before_split.
    + apply in_or_app. right. cbn. auto.
    + rewrite in_app_iff. intros [H|H].
      * apply HA in H as [H|H]; [tauto|lia].
      * cbn in H. destruct H as [H|[H|[H|[]]]]; try discriminate.
        injection H as H. tauto.
  - (* the auditor before the context *)
    rewrite 2!app_assoc. apply completed_before_split.
    + apply in_or_app. right. cbn. auto.
    + rewrite !in_app_iff. intros [[H|H]|H].
      * apply HA in H as [H|H]; [tauto|lia].
      * cbn in H. destruct H as [H|[H|[H|[]]]]; try discriminate.
        injection H as H. tauto.
      * cbn in H. destruct H as [H|[H|[]]]; try discriminate.
        injection H as H. tauto.
Qed.

Lemma stops_in_order_take (k : nat) (groups : list (list ref))
    (l : list Event) :
  stops_in_order groups l -> stops_in_order (take k groups) l.
Proof.
  intros H i j gi gj r r' Hi Hj.
  apply lookup_take_Some in Hi as [Hi _].
  apply lookup_take_Some in Hj as [Hj _].
  apply (H i j gi gj r r' Hi Hj).
Qed.

(** What the calling goroutine adds is nothing, or the forced stop. *)
Lemma forced_or_not (ctx : ref) (b : bool) (l : list Event) :
  l = (if b then forced_events ctx else []) ->
  l = [] \/ l = forced_events ctx.
Proof. intros ->. destruct b; auto. Qed.

(** The order of the groups in a run of Agent.Stop that returns: on the
    goroutine always; over both goroutines when the calling goroutine
    makes no call of its own, and for the groups before the
    DestinationsContext always. *)
Lemma Agent_Stop_in_order (cfg : Config) (sched : list nat) (fuel : nat)
    (rsched : list Choice) (a : ref) (ag : Agent) (w w2 : World)
    (new : list Event) :
  heap w !! a = Some (OAgent ag) ->
  forallb (is_component (heap w)) (agent_components ag) = true ->
  NoDup (agent_components ag) ->
  Agent_Stop cfg sched (S (S (S fuel))) rsched a w = Ok tt w2 ->
  log w2 = log w ++ new ->
  stops_in_order (stop_groups ag) (worker_events new) /\
  (main_events new = [] ->
   stops_in_order (stop_groups ag) (all_calls new)) /\
  stops_in_order (take 3 (stop_groups ag)) (all_calls new).
Proof.
  intros Ha Hcs Hnd Hstop Hnew.
  destruct (Agent_Stop_log cfg sched fuel rsched a ag w w2 Ha Hcs Hstop)
    as (final & _ & _ & _ & Hlog & Hworker & Hmain & _).
  rewrite Hlog in Hnew. apply app_inv_head in Hnew. subst new.
  assert (Hseq : stops_in_order (stop_groups ag)
                                (worker_events (trace final))).
  { rewrite Hworker. apply stop_events_in_order; [exact Hnd|].
    intros r Hr. rewrite forallb_forall in Hcs.
    apply Hcs, is_component_spec in Hr as (k & cs & Hr).
    apply lookup_lt_Some in Hr. exact Hr. }
  split; [exact Hseq|]. split.
  - intros Hm i j gi gj r r' Hi Hj Hij Hr Hr'.
    apply completed_before_all_calls; try reflexivity.
    + rewrite Hm. intros [].
    + apply (Hseq i j gi gj r r' Hi Hj Hij Hr Hr').
  - intros i j gi gj r r' Hi Hj Hij Hr Hr'.
    apply lookup_take_Some in Hi as [Hi _].
    apply lookup_take_Some in Hj as [Hj Hj3].
    apply completed_before_all_calls; try reflexivity.
    + rewrite Hmain. destruct (timed_out final); [|intros []].
      cbn. intros [H|[H|[H|[]]]]; try discriminate.
      injection H as H.
      unfold agent_components in Hnd. apply NoDup_ListNoDup in Hnd.
      apply List.NoDup_cons_iff in Hnd as [Hc _]. apply Hc. cbn [In].
      unfold stop_groups in Hj.
      destruct j as [|[|[|j]]]; try lia; cbn in Hj;
        injection Hj as <-; cbn [In] in Hr';
        destruct Hr' as [Hr'|[]]; intuition congruence.
    + apply (Hseq i j gi gj r r' Hi Hj Hij Hr Hr').
Qed.

(** C2.  Agent.Stop builds a ParallelStopper holding the inputs and a
    SerialStopper holding, in this order, that ParallelStopper, the
    PipelineProvider, the Auditor and the DestinationsContext, and runs
    the SerialStopper's Stop on a goroutine.  Whenever Stop returns, the
    events of that goroutine are: the call of Stop on the SerialStopper;
    the call of Stop on the ParallelStopper, then in some interleaving
    exactly the Stop calls and returns of the inputs, then the return of
    the ParallelStopper; then the call and the return of Stop on the
    PipelineProvider, on the Auditor and on the DestinationsContext; then
    the return of the SerialStopper and the close of the channel.  The
    calling goroutine makes no call of its own, or, on the timeout
    branch, the one forced call of DestinationsContext.Stop(), which is
    not bound by the order of the groups.  When the agent's components
    are distinct: on the goroutine no Stop of a group is invoked before
    the Stop of every member of the earlier groups has returned; over
    the calls of both goroutines the same holds on every run without a
    forced call, and on every run for the inputs, the PipelineProvider
    and the Auditor.  Every schedule can be continued so that Stop
    returns. *)
Theorem Agent_Stop_order (cfg : Config) (sched : list nat) (fuel : nat)
    (rsched : list Choice) (a : ref) (ag : Agent) (w w' : World) :
  heap w !! a = Some (OAgent ag) ->
  forallb (is_component (heap w)) (agent_components ag) = true ->
  Agent_Stop cfg sched (S (S (S fuel))) rsched a w = Ok tt w' ->
  heap w' !! length (heap w) = Some (OParallelStopper (inputs ag)) /\
  heap w' !! (length (heap w) + 1)%nat
    = Some (OSerialStopper [length (heap w); pipelineProvider ag;
                            auditor ag; destinationsCtx ag]) /\
  (exists new group,
     log w' = log w ++ new /\
     Permutation group (flat_map (call_events Stop) (inputs ag)) /\
     worker_events new
       = Invoke (length (heap w) + 1)%nat Stop
         :: Invoke (length (heap w)) Stop
         :: group
         ++ [Return (length (heap w)) Stop;
             Invoke (pipelineProvider ag) Stop;
             Return (pipelineProvider ag) Stop;
             Invoke (auditor ag) Stop;
             Return (auditor ag) Stop;
             Invoke (destinationsCtx ag) Stop;
             Return (destinationsCtx ag) Stop;
             Return (length (heap w) + 1)%nat Stop;
             CloseChan (length (heap w) + 2)%nat] /\
     (main_events new = [] \/
      main_events new = forced_events (destinationsCtx ag)) /\
     (NoDup (agent_components ag) ->
      stops_in_order (stop_groups ag) (worker_events new) /\
      (main_events new = [] ->
       stops_in_order (stop_groups ag) (all_calls new)) /\
      stops_in_order (take 3 (stop_groups ag)) (all_calls new))) /\
  forall prefix, exists more w'',
    Agent_Stop cfg sched (S (S (S fuel))) (prefix ++ more) a w = Ok tt w''.
Proof.
  intros Ha Hcs Hok.
  destruct (Agent_Stop_log cfg sched fuel rsched a ag w w' Ha Hcs Hok)
    as (final & _ & _ & _ & Hlog & Hworker & Hmain & _).
  destruct (Agent_Stop_returns cfg sched fuel rsched a ag w w' Ha Hcs Hok)
    as [_ Hw'].
  split; [|split; [|split]].
  - rewrite Hw'. cbn [heap].
    apply stopped_heap_frame; [|intros; discriminate|lia].
    rewrite lookup_app_r by lia. rewrite Nat.sub_diag. reflexivity.
  - rewrite Hw'. cbn [heap].
    apply stopped_heap_frame; [|intros; discriminate|lia].
    rewrite lookup_app_plus. reflexivity.
  - exists (trace final), (inputs_stop_events sched ag).
    split; [exact Hlog|]. split; [apply inputs_stop_events_perm|].
    split.
    { rewrite Hworker. unfold stop_events.
      cbn [agent_stages flat_map call_events app].
      repeat (rewrite <- ?app_assoc; cbn [app]). reflexivity. }
    split; [apply (forced_or_not _ _ _ Hmain)|].
    intros Hnd.
    apply (Agent_Stop_in_order cfg sched fuel rsched a ag w w'
             (trace final) Ha Hcs Hnd Hok Hlog).
  - intros prefix.
    apply (Agent_Stop_can_finish cfg sched fuel prefix a ag w Ha Hcs).
Qed.

Lemma Agent_Stop_order_witness :
  NoDup (agent_components example_agent) /\
  (heap example_stopped_world !! length (heap example_started_world) = Some
      (OParallelStopper (inputs example_agent)) /\
  heap example_stopped_world !! (length (heap example_started_world) + 1)%nat
    = Some (OSerialStopper [length (heap example_started_world);
        pipelineProvider example_agent;
                            auditor example_agent; destinationsCtx
                                example_agent]) /\
  (exists new group,
     log example_stopped_world = log example_started_world ++ new /\
     Permutation group (flat_map (call_events Stop) (inputs example_agent)) /\
     worker_events new
       = Invoke (length (heap example_started_world) + 1)%nat Stop
         :: Invoke (length (heap example_started_world)) Stop
         :: group
         ++ [Return (length (heap example_started_world)) Stop;
             Invoke (pipelineProvider example_agent) Stop;
             Return (pipelineProvider example_agent) Stop;
             Invoke (auditor example_agent) Stop;
             Return (auditor example_agent) Stop;
             Invoke (destinationsCtx example_agent) Stop;
             Return (destinationsCtx example_agent) Stop;
             Return (length (heap example_started_world) + 1)%nat Stop;
             CloseChan (length (heap example_started_world) + 2)%nat] /\
     (main_events new = [] \/
      main_events new = forced_events (destinationsCtx example_agent)) /\
     (NoDup (agent_components example_agent) ->
      stops_in_order (stop_groups example_agent) (worker_events new) /\
      (main_events new = [] ->
       stops_in_order (stop_groups example_agent) (all_calls new)) /\
      stops_in_order (take 3 (stop_groups example_agent)) (all_calls new))) /\
  forall prefix, exists more w'',
    Agent_Stop example_config [3; 1; 0; 2]%nat (S (S (S 0))) (prefix ++ more)
        14%nat example_started_world = Ok tt w'').
Proof.
  split; [apply (bool_decide_unpack _); vm_compute; exact I|].
  refine (Agent_Stop_order example_config [3; 1; 0; 2]%nat 0
            example_race 14%nat example_agent example_started_world
            example_stopped_world _ _ _);
    vm_compute; reflexivity.
Defined.

(** The order does not hold for every call to Agent.Stop when the calls
    of both goroutines are counted.  The example run takes the timeout
    branch: the calling goroutine invokes DestinationsContext.Stop(),
    the last group, while the last input is still stopping and before
    the PipelineProvider and the Auditor have been asked to stop. *)
Lemma Agent_Stop_order_counterexample :
  Agent_Stop example_config [3; 1; 0; 2]%nat 3 example_race 14%nat
             example_started_world = Ok tt example_stopped_world /\
  ~ stops_in_order
      (stop_groups example_agent)
      (all_calls (drop (length (log example_started_world))
                       (log example_stopped_world))).
Proof.
  split; [vm_compute; reflexivity|].
  intros H.
  specialize (H 0%nat 3%nat [9; 10; 11; 12; 13]%nat [7%nat] 13%nat 7%nat
                eq_refl eq_refl ltac:(lia)
                ltac:(cbn; auto 10) ltac:(cbn; auto)).
  specialize (H (take 11
                   (all_calls (drop (length (log example_started_world))
                                    (log example_stopped_world))))
                (drop 12
                   (all_calls (drop (length (log example_started_world))
                                    (log example_stopped_world))))
                ltac:(vm_compute; reflexivity)).
  vm_compute in H.
  repeat (destruct H as [H|H]; [discriminate|]). exact H.
Qed.

(** ** The stop sequence against the start sequence *)


(** What has happened before every occurrence of an event that occurs
    precedes it. *)
Lemma completed_precedes (e1 e2 : Event) (l : list Event) :
  In e2 l -> completed_before e1 e2 l -> precedes e1 e2 l.
Proof.
  intros Hin H. apply in_split in Hin as (l1 & l2 & ->).
  destruct (in_split _ _ (H l1 l2 eq_refl)) as (a1 & a2 & ->).
  exists a1, a2, l2. rewrite <- app_assoc. reflexivity.
Qed.

(** The stop-group of a component, by its place in the start order. *)
Lemma stop_group_of (ag : Agent) (i : nat) (r : ref) :
  agent_components ag !! i = Some r ->
  exists g, stop_groups ag !! (3 - i)%nat = Some g /\ In r g.
Proof.
  unfold agent_components, stop_groups. intros Hi.
  destruct i as [|[|[|i]]]; cbn in Hi |- *.
  - injection Hi as <-. eexists. split; [reflexivity|]. cbn. auto.
  - injection Hi as <-. eexists. split; [reflexivity|]. cbn. auto.
  - injection Hi as <-. eexists. split; [reflexivity|]. cbn. auto.
  - eexists. split; [reflexivity|].
    apply list_elem_of_In. eapply list_elem_of_lookup_2, Hi.
Qed.

(** X13.  The stop sequence of Agent.Stop mirrors Agent.Start.  When
    the agent's components are distinct and Start starts one of the
    DestinationsContext, the Auditor and the PipelineProvider before
    another component, the Start of the first has returned before the
    other is started, and on the goroutine of Stop the first is asked to
    stop only after the Stop of the other has returned.  Over the calls
    of both goroutines the same holds for the Auditor and the
    PipelineProvider on every run, and for the DestinationsContext on
    the runs on which the calling goroutine makes no call; on the
    timeout branch the calling goroutine makes the one forced call of
    DestinationsContext.Stop(), which waits for nothing. *)
Theorem Agent_Stop_mirrors_Start (cfg : Config) (sched : list nat)
    (fuel : nat) (rsched : list Choice) (a : ref) (ag : Agent)
    (w w1 w2 : World) (i j : nat) (r r' : ref) :
  heap w !! a = Some (OAgent ag) ->
  forallb (is_component (heap w)) (agent_components ag) = true ->
  NoDup (agent_components ag) ->
  Agent_Start sched (S (S fuel)) a w = Ok tt w1 ->
  Agent_Stop cfg sched (S (S (S fuel))) rsched a w1 = Ok tt w2 ->
  agent_components ag !! i = Some r ->
  agent_components ag !! j = Some r' ->
  (i < j)%nat ->
  (i < 3)%nat ->
  precedes (Return r Start) (Invoke r' Start) (log w1) /\
  exists new,
    log w2 = log w1 ++ new /\
    precedes (Return r' Stop) (Invoke r Stop) (worker_events new) /\
    completed_before (Return r' Stop) (Invoke r Stop) (worker_events new) /\
    (main_events new = [] \/
     main_events new = forced_events (destinationsCtx ag)) /\
    ((0 < i)%nat \/ main_events new = [] ->
     completed_before (Return r' Stop) (Invoke r Stop) (all_calls new)).
Proof.
  intros Ha Hcs Hnd Hstart Hstop Hi Hj Hlt Hstage.
  destruct (Agent_Start_keeps sched fuel a ag w w1 Ha Hcs Hstart)
    as (Ha1 & Hcs1 & _ & _ & Hlog1).
  split.
  - rewrite Hlog1.
    apply (flat_map_precedes Start (agent_components ag) i j r r'
             (log w ++ [Invoke (length (heap w)) Start])
             [Return (length (heap w)) Start]) in Hlt;
      [|assumption|assumption].
    rewrite <- app_assoc in Hlt. exact Hlt.
  - destruct (Agent_Stop_log cfg sched fuel rsched a ag w1 w2 Ha1 Hcs1
                Hstop)
      as (final & _ & _ & _ & Hlog & Hworker & Hmain & _).
    destruct (Agent_Stop_in_order cfg sched fuel rsched a ag w1 w2
                (trace final) Ha1 Hcs1 Hnd Hstop Hlog)
      as (Hseq & Hclean & Hfst).
    destruct (stop_group_of ag i r Hi) as (g & Hg & Hrg).
    destruct (stop_group_of ag j r' Hj) as (g' & Hg' & Hrg').
    assert (Hord : (3 - j < 3 - i)%nat) by lia.
    exists (trace final). split; [exact Hlog|].
    assert (Hin : In (Invoke r Stop) (worker_events (trace final))).
    { rewrite Hworker. apply in_or_app. left. unfold stop_events.
      right. apply in_or_app. right. apply in_or_app. left.
      apply in_flat_map. exists r. split; [|left; reflexivity].
      unfold agent_components, agent_stages in *.
      destruct i as [|[|[|i]]]; try lia; cbn in Hi; injection Hi as <-;
        cbn; auto. }
    assert (Hcb := Hseq _ _ g' g r' r Hg' Hg Hord Hrg' Hrg).
    split; [|split; [|split]].
    + apply completed_precedes; assumption.
    + exact Hcb.
    + apply (forced_or_not _ _ _ Hmain).
    + intros [Hpos|Hm].
      * apply (Hfst (3 - j)%nat (3 - i)%nat g' g r' r);
          try assumption;
          apply lookup_take_Some; split; try assumption; lia.
      * apply (Hclean Hm _ _ g' g r' r Hg' Hg Hord Hrg' Hrg).
Qed.

Lemma Agent_Stop_mirrors_Start_witness :
  precedes (Return 6%nat Start) (Invoke 11%nat Start) (log
      example_started_world) /\
  exists new,
    log example_stopped_world = log example_started_world ++ new /\
    precedes (Return 11%nat Stop) (Invoke 6%nat Stop) (worker_events new) /\
    completed_before (Return 11%nat Stop) (Invoke 6%nat Stop) (worker_events
        new) /\
    (main_events new = [] \/
     main_events new = forced_events (destinationsCtx example_agent)) /\
    ((0 < 1)%nat \/ main_events new = [] ->
     completed_before (Return 11%nat Stop) (Invoke 6%nat Stop) (all_calls
         new)).
Proof.
  refine (Agent_Stop_mirrors_Start example_config [3; 1; 0; 2]%nat 0
            example_race 14%nat example_agent example_agent_world
            example_started_world example_stopped_world 1%nat 5%nat
            6%nat 11%nat _ _ _ _ _ _ _ _ _);
    [vm_compute; reflexivity
    |vm_compute; reflexivity
    |apply (bool_decide_unpack _); vm_compute; exact I
    |vm_compute; reflexivity
    |vm_compute; reflexivity
    |vm_compute; reflexivity
    |vm_compute; reflexivity
    |lia
    |lia].
Defined.

(** ** The grace period: claim C1 *)



